(** * scripts.js: YouTube embed helpers and hover previews

    A shallow embedding of [scripts.js].  JavaScript strings are sequences
    of UTF-16 code units, so they are modelled as lists of code units
    ([N]); the regular expressions of [extractYTId] carry no [u] flag and
    therefore work on code units too.  Objects used as option bags are
    finite maps from property names to values.  The DOM is a tree of
    nodes; a reference to an element is the path of child indices that
    leads to it. *)

From Stdlib Require Import ZArith NArith Ascii String DecimalString.
From stdpp Require Import base option list strings gmap.

Local Open Scope N_scope.

(** ** JavaScript strings and primitive values *)

Module JS.

(** A string value: its UTF-16 code units. *)
Definition jsstring := list N.

(** The code units of an ASCII literal of the source. *)
Definition lit (s : string) : jsstring :=
  (λ a, N_of_ascii a) <$> list_ascii_of_string s.

(** The primitive values the helpers are called with.  [JNum z] is the
    Number whose value is the integer [z]; it stands for the safe
    integers, whose [Number::toString] is the decimal numeral. *)
Inductive jsval :=
  | JUndefined
  | JNull
  | JBool (b : bool)
  | JNum (z : Z)
  | JStr (s : jsstring).

(** ToBoolean, as used by [!value] and [if (x)]. *)
Definition to_boolean (v : jsval) : bool :=
  match v with
  | JUndefined | JNull => false
  | JBool b => b
  | JNum z => negb (z =? 0)%Z
  | JStr s => negb (bool_decide (s = []))
  end.

(** [String(v)]. *)
Definition to_string (v : jsval) : jsstring :=
  match v with
  | JUndefined => lit "undefined"
  | JNull => lit "null"
  | JBool true => lit "true"
  | JBool false => lit "false"
  | JNum z => lit (NilZero.string_of_int (Z.to_int z))
  | JStr s => s
  end.

Definition in_range (lo hi c : N) : bool := (lo <=? c) && (c <=? hi).

(** WhiteSpace and LineTerminator code points, the ones
    [String.prototype.trim] strips. *)
Definition is_white_space (c : N) : bool :=
  in_range 0x09 0x0D c || (c =? 0x20) || (c =? 0xA0) || (c =? 0x1680)
  || in_range 0x2000 0x200A c || (c =? 0x2028) || (c =? 0x2029)
  || (c =? 0x202F) || (c =? 0x205F) || (c =? 0x3000) || (c =? 0xFEFF).

Fixpoint trimStart (s : jsstring) : jsstring :=
  match s with
  | c :: s' => if is_white_space c then trimStart s' else s
  | [] => []
  end.

Definition trimEnd (s : jsstring) : jsstring := rev (trimStart (rev s)).

Definition trim (s : jsstring) : jsstring := trimEnd (trimStart s).

(** [s.startsWith(p)]. *)
Fixpoint startsWith (p s : jsstring) : bool :=
  match p, s with
  | [], _ => true
  | a :: p', b :: s' => (a =? b) && startsWith p' s'
  | _ :: _, [] => false
  end.

(** An object used as an option bag: own properties by name. *)
Abbreviation jsobject := (gmap string jsval).

(** [Object.assign(target, source)]: every own property of the source
    overwrites the target's; a [null] or [undefined] source is skipped. *)
Definition Object_assign (target : jsobject) (source : option jsobject) : jsobject :=
  match source with
  | Some src => src ∪ target
  | None => target
  end.

(** Property read: a missing property reads as [undefined]. *)
Definition get_prop (o : jsobject) (k : string) : jsval :=
  default JUndefined (o !! k).

End JS.

Import JS.

(** ** The YouTube helpers *)

Module Youtube.

(** The class [[A-Za-z0-9_-]]. *)
Definition is_id_char (c : N) : bool :=
  in_range 65 90 c || in_range 97 122 c || in_range 48 57 c
  || (c =? 95) || (c =? 45).

(** [/^[A-Za-z0-9_-]{11}$/.test(s)]: without the [m] flag the anchors are
    the two ends of the input. *)
Definition is_bare_id (s : jsstring) : bool :=
  bool_decide (length s = 11%nat) && forallb is_id_char s.

(** The capture group [([A-Za-z0-9_-]{11})] matched at the head of [s]. *)
Definition capture_id (s : jsstring) : option jsstring :=
  let g := take 11 s in
  if is_bare_id g then Some g else None.

(** A literal of the pattern matched at the head of [s]: what is left. *)
Fixpoint strip_literal (p s : jsstring) : option jsstring :=
  match p, s with
  | [], _ => Some s
  | a :: p', b :: s' => if a =? b then strip_literal p' s' else None
  | _ :: _, [] => None
  end.

(** The alternatives of [(?:v=|\/embed\/|\/shorts\/|youtu\.be\/)], in
    the order the pattern lists them. *)
Definition markers : list jsstring :=
  [lit "v="; lit "/embed/"; lit "/shorts/"; lit "youtu.be/"].

(** The whole pattern tried at one position: the alternatives in order,
    each followed by the capture group, backtracking to the next one. *)
Fixpoint match_alternatives (ms : list jsstring) (s : jsstring) : option jsstring :=
  match ms with
  | [] => None
  | m :: ms' =>
      match strip_literal m s ≫= capture_id with
      | Some g => Some g
      | None => match_alternatives ms' s
      end
  end.

(** [s.match(/(?:...)([A-Za-z0-9_-]{11})/)]: the leftmost position where
    the pattern matches; the result is capture group 1. *)
Fixpoint regex_match (s : jsstring) : option jsstring :=
  match match_alternatives markers s with
  | Some g => Some g
  | None =>
      match s with
      | [] => None
      | _ :: s' => regex_match s'
      end
  end.

Definition extractYTId (value : jsval) : jsstring :=
  if negb (to_boolean value) then []
  else
    let trimmed := trim (to_string value) in
    if is_bare_id trimmed then trimmed
    else
      match regex_match trimmed with
      | Some g => if to_boolean (JStr g) then g else trimmed
      | None => trimmed
      end.

(** *** URLSearchParams *)

(** UTF-8 bytes of a code point. *)
Definition utf8_bytes (cp : N) : list N :=
  if cp <? 0x80 then [cp]
  else if cp <? 0x800 then
    [N.lor 0xC0 (N.shiftr cp 6); N.lor 0x80 (N.land cp 0x3F)]
  else if cp <? 0x10000 then
    [N.lor 0xE0 (N.shiftr cp 12);
     N.lor 0x80 (N.land (N.shiftr cp 6) 0x3F);
     N.lor 0x80 (N.land cp 0x3F)]
  else
    [N.lor 0xF0 (N.shiftr cp 18);
     N.lor 0x80 (N.land (N.shiftr cp 12) 0x3F);
     N.lor 0x80 (N.land (N.shiftr cp 6) 0x3F);
     N.lor 0x80 (N.land cp 0x3F)].

Definition is_high_surrogate (c : N) : bool := in_range 0xD800 0xDBFF c.
Definition is_low_surrogate (c : N) : bool := in_range 0xDC00 0xDFFF c.

(** Conversion to a USVString (a lone surrogate becomes U+FFFD) followed
    by UTF-8 encoding. *)
Fixpoint utf8_encode (s : jsstring) : list N :=
  match s with
  | [] => []
  | c :: s' =>
      if is_high_surrogate c then
        match s' with
        | d :: s'' =>
            if is_low_surrogate d then
              utf8_bytes (0x10000 + (c - 0xD800) * 0x400 + (d - 0xDC00))
                ++ utf8_encode s''
            else utf8_bytes 0xFFFD ++ utf8_encode s'
        | [] => utf8_bytes 0xFFFD
        end
      else if is_low_surrogate c then utf8_bytes 0xFFFD ++ utf8_encode s'
      else utf8_bytes c ++ utf8_encode s'
  end.

(** Bytes the application/x-www-form-urlencoded serializer leaves as they
    are: ASCII alphanumerics and [*], [-], [.], [_]. *)
Definition is_urlencoded_safe (b : N) : bool :=
  in_range 65 90 b || in_range 97 122 b || in_range 48 57 b
  || (b =? 0x2A) || (b =? 0x2D) || (b =? 0x2E) || (b =? 0x5F).

Definition hex_digit (n : N) : N := if n <? 10 then 48 + n else 55 + n.

Definition urlencode_byte (b : N) : jsstring :=
  if is_urlencoded_safe b then [b]
  else if b =? 0x20 then [0x2B]
  else [0x25; hex_digit (N.shiftr b 4); hex_digit (N.land b 0xF)].

Definition urlencode (s : jsstring) : jsstring :=
  utf8_encode s ≫= urlencode_byte.

(** [new URLSearchParams(record).toString()]: the pairs in insertion
    order, [name=value] joined by [&]. *)
Fixpoint URLSearchParams_toString (ps : list (jsstring * jsstring)) : jsstring :=
  match ps with
  | [] => []
  | [(k, v)] => urlencode k ++ lit "=" ++ urlencode v
  | (k, v) :: ps' =>
      urlencode k ++ lit "=" ++ urlencode v ++ lit "&"
        ++ URLSearchParams_toString ps'
  end.

Definition ytSrc (raw : jsval) (options : option jsobject) : jsstring :=
  let opts := Object_assign {[ "autoplay"%string := JNum 1 ]} options in
  let id := extractYTId raw in
  if negb (to_boolean (JStr id)) || startsWith (lit "YOUR_") id then []
  else
    let base := lit "https://www.youtube-nocookie.com/embed/" ++ id in
    let params :=
      [ (lit "autoplay", to_string (get_prop opts "autoplay"));
        (lit "mute", lit "1");
        (lit "controls", lit "0");
        (lit "rel", lit "0");
        (lit "modestbranding", lit "1");
        (lit "playsinline", lit "1");
        (lit "iv_load_policy", lit "3");
        (lit "loop", lit "1");
        (lit "playlist", id) ] in
    base ++ lit "?" ++ URLSearchParams_toString params.

End Youtube.

Import Youtube.

(** ** The DOM *)

Module Dom.

(** An element: its local name, the tokens of its [classList] and its
    content attributes.  The IDL properties written by the script
    ([src], [loading], [allow], [title], [referrerPolicy]) reflect content
    attributes. *)
Record element := Element {
  tagName : string;
  classList : list string;
  attributes : gmap string jsstring
}.

(** A node is a text node or an element with its child nodes. *)
#[local] Unset Elimination Schemes.
Inductive node :=
  | Text (data : jsstring)
  | Elem (e : element) (childNodes : list node).
#[local] Set Elimination Schemes.

(** Induction over a tree: the children of an element all satisfy the
    property. *)
Fixpoint node_tree_ind (P : node → Prop)
    (HText : ∀ d, P (Text d))
    (HElem : ∀ e cs, Forall P cs → P (Elem e cs))
    (n : node) : P n :=
  match n with
  | Text d => HText d
  | Elem e cs =>
      HElem e cs
        ((fix all (l : list node) : Forall P l :=
            match l with
            | [] => Forall_nil_2 P
            | c :: l' => Forall_cons_2 P c l' (node_tree_ind P HText HElem c) (all l')
            end) cs)
  end.

(** A reference to a node: the child indices leading to it from the
    root of the tree under consideration. *)
Definition path := list nat.

Definition children (n : node) : list node :=
  match n with
  | Elem _ cs => cs
  | Text _ => []
  end.

Fixpoint node_at (n : node) (p : path) : option node :=
  match p with
  | [] => Some n
  | i :: p' => children n !! i ≫= λ c, node_at c p'
  end.

(** Mutation of the node a reference points to. *)
Fixpoint update_at (p : path) (f : node → node) (n : node) : node :=
  match p with
  | [] => f n
  | i :: p' =>
      match n with
      | Elem e cs => Elem e (alter (update_at p' f) i cs)
      | Text _ => n
      end
  end.

(** [node.remove()]: the node is taken out of its parent's children; a
    node without a parent is left alone. *)
Fixpoint remove_at (p : path) (n : node) : node :=
  match p with
  | [] => n
  | [i] =>
      match n with
      | Elem e cs => Elem e (delete i cs)
      | Text _ => n
      end
  | i :: p' =>
      match n with
      | Elem e cs => Elem e (alter (remove_at p') i cs)
      | Text _ => n
      end
  end.

(** [parent.appendChild(c)]. *)
Definition appendChild (parent c : node) : node :=
  match parent with
  | Elem e cs => Elem e (cs ++ [c])
  | Text _ => parent
  end.

(** Writing a reflected property or an attribute of an element. *)
Definition set_attribute (k : string) (v : jsstring) (n : node) : node :=
  match n with
  | Elem e cs =>
      Elem (Element (tagName e) (classList e) (<[k := v]> (attributes e))) cs
  | Text _ => n
  end.

(** [el.getAttribute(k)]: the value, or [null]. *)
Definition getAttribute (e : element) (k : string) : jsval :=
  match attributes e !! k with
  | Some v => JStr v
  | None => JNull
  end.

Definition hasAttribute (e : element) (k : string) : bool :=
  bool_decide (is_Some (attributes e !! k)).

Definition has_class (c : string) (e : element) : bool :=
  bool_decide (c ∈ classList e).

(** [el.classList.add(c)] and [el.classList.remove(c)]. *)
Definition classList_add (c : string) (n : node) : node :=
  match n with
  | Elem e cs =>
      if has_class c e then n
      else Elem (Element (tagName e) (classList e ++ [c]) (attributes e)) cs
  | Text _ => n
  end.

Definition classList_remove (c : string) (n : node) : node :=
  match n with
  | Elem e cs =>
      Elem (Element (tagName e) (filter (λ t, t ≠ c) (classList e)) (attributes e)) cs
  | Text _ => n
  end.

(** *** Selectors *)

(** The first [Some] of a list of search results, with the index of the
    child it was found under. *)
Fixpoint first_under (i : nat) (rs : list (option path)) : option path :=
  match rs with
  | [] => None
  | Some p :: _ => Some (i :: p)
  | None :: rs' => first_under (S i) rs'
  end.

(** First element matching [sel] among a node and its descendants, in
    document order. *)
Fixpoint first_match (sel : element → bool) (n : node) : option path :=
  match n with
  | Text _ => None
  | Elem e cs =>
      if sel e then Some []
      else first_under 0 (first_match sel <$> cs)
  end.

(** [el.querySelector(sel)]: the first matching descendant of [el]. *)
Definition querySelector (sel : element → bool) (n : node) : option path :=
  first_under 0 (first_match sel <$> children n).

(** The search results of the children put together, each under the
    index of its child. *)
Fixpoint all_under (i : nat) (rs : list (list path)) : list path :=
  match rs with
  | [] => []
  | ps :: rs' => ((i ::.) <$> ps) ++ all_under (S i) rs'
  end.

(** [document.querySelectorAll(sel)]: all elements matching [sel] among
    a node and its descendants, in document order. *)
Fixpoint all_matches (sel : element → bool) (n : node) : list path :=
  match n with
  | Text _ => []
  | Elem e cs =>
      (if sel e then [[]] else []) ++ all_under 0 (all_matches sel <$> cs)
  end.

(** Number of elements matching [sel] among a node and its descendants. *)
Fixpoint count_matches (sel : element → bool) (n : node) : nat :=
  match n with
  | Text _ => 0
  | Elem e cs =>
      ((if sel e then 1 else 0) + sum_list (count_matches sel <$> cs))%nat
  end.

(** Number of matching elements inside a container (its descendants). *)
Definition count_inside (sel : element → bool) (n : node) : nat :=
  sum_list (count_matches sel <$> children n).

(** The selector [iframe]. *)
Definition sel_iframe (e : element) : bool :=
  bool_decide (tagName e = "iframe"%string).

End Dom.

Import Dom.

(** ** Player host manager *)

Module Player.

(** The element [document.createElement("iframe")] returns, after the
    four presentation properties have been assigned. *)
Definition created_iframe : node :=
  set_attribute "referrerpolicy" (lit "strict-origin-when-cross-origin")
    (set_attribute "title" (lit "YouTube video")
      (set_attribute "allow" (lit "autoplay; encrypted-media; picture-in-picture")
        (set_attribute "loading" (lit "lazy")
          (Elem (Element "iframe" [] ∅) [])))).

(** What a call of [injectIframe] leaves behind: the host's subtree, the
    returned reference (relative to the host; [None] is [null]) and the
    values assigned to [iframe.src], in order. *)
Record injected := Injected {
  host_after : option node;
  returned : option path;
  src_writes : list jsstring
}.

Definition injectIframe (hostEl : option node) (raw : jsval)
    (options : option jsobject) : injected :=
  match hostEl with
  | None => Injected None None []
  | Some host =>
      if negb (to_boolean raw) then Injected (Some host) None []
      else
        let src := ytSrc raw options in
        if negb (to_boolean (JStr src)) then Injected (Some host) None []
        else
          let '(host1, iframe) :=
            match querySelector sel_iframe host with
            | Some p => (host, p)
            | None =>
                (appendChild host created_iframe, [length (children host)])
            end in
          Injected (Some (update_at iframe (set_attribute "src" src) host1))
                   (Some iframe) [src]
  end.

Definition clearIframe (hostEl : option node) : option node :=
  match hostEl with
  | None => None
  | Some host =>
      match querySelector sel_iframe host with
      | Some iframe => Some (remove_at iframe host)
      | None => Some host
      end
  end.

End Player.

Import Player.

(** ** Page behaviours *)

Module Page.

(** The selectors [.hoverPreview] and [.ytEmbed[data-yt]]. *)
Definition sel_hoverPreview (e : element) : bool := has_class "hoverPreview" e.

Definition sel_ytEmbed_data_yt (e : element) : bool :=
  has_class "ytEmbed" e && hasAttribute e "data-yt".

(** What the closures [play] and [stop] of one card capture: the host
    (a reference relative to the card) and the attribute value. *)
Record wiring := Wiring {
  host_ref : path;
  raw_value : jsstring
}.

(** The body of the [forEach] callback of [setupHoverPreviews] up to the
    two [addEventListener] calls: [None] when it returns early. *)
Definition wire (preview : node) : option wiring :=
  match querySelector sel_ytEmbed_data_yt preview with
  | None => None
  | Some host =>
      match node_at preview host with
      | Some (Elem he _) =>
          if hasAttribute he "data-autoplay" then None
          else
            match getAttribute he "data-yt" with
            | JStr raw =>
                if negb (to_boolean (JStr raw)) || startsWith (lit "YOUR_") raw
                then None
                else Some (Wiring host raw)
            | _ => None
            end
      | _ => None
      end
  end.

(** A host manager operation applied to the element a reference points
    to. *)
Definition on_host (op : option node → option node) (h : node) : node :=
  default h (op (Some h)).

Definition play (w : wiring) (preview : node) : node :=
  let preview1 := classList_add "is-playing" preview in
  update_at (host_ref w)
    (on_host (λ h, host_after
       (injectIframe h (JStr (raw_value w)) (Some {[ "autoplay"%string := JNum 1 ]}))))
    preview1.

Definition stop (w : wiring) (preview : node) : node :=
  let preview1 := classList_remove "is-playing" preview in
  update_at (host_ref w) (on_host clearIframe) preview1.

Inductive pointer_event := pointerenter | pointerleave.

Global Instance pointer_event_eq_dec : EqDecision pointer_event.
Proof. solve_decision. Defined.

(** A registered listener: the card it is attached to (a reference into
    the document), the event type and the handler. *)
Record listener := Listener {
  target : path;
  event_type : pointer_event;
  handler : node → node
}.

(** The two [addEventListener] calls of the callback, for the card a
    reference into the document points to; none when the callback
    returns early. *)
Definition card_listeners (document : node) (preview : path) : list listener :=
  match node_at document preview ≫= wire with
  | Some w =>
      [Listener preview pointerenter (play w);
       Listener preview pointerleave (stop w)]
  | None => []
  end.

(** [setupHoverPreviews]: the callback runs for every [.hoverPreview] of
    the document, in document order. *)
Definition setupHoverPreviews (document : node) : list listener :=
  all_matches sel_hoverPreview document ≫= card_listeners document.

(** Dispatch of a pointer event at a card: the listeners attached to it
    for that event type run in registration order.  A listener belongs
    to the element it was attached to, and the reference [target] names
    that element as long as it sits where it sat when the page was
    loaded: embedding never moves an element, and the removal of a
    player moves only the siblings that follow it.  The theorems stated
    with [dispatch] apply it to such documents only. *)
Definition dispatch (ls : list listener) (card : path) (ev : pointer_event)
    (document : node) : node :=
  foldl (λ doc l,
           if bool_decide (target l = card ∧ event_type l = ev)
           then update_at card (handler l) doc else doc)
        document ls.

End Page.

Import Page.

(** ** Behaviours run when the page is loaded *)

Module Load.

(** [document.querySelector(sel)]: the first matching element of the
    document, its root element included. *)
Definition document_querySelector (sel : element → bool) (document : node)
    : option path :=
  first_match sel document.

(** [document.getElementById(id)]: the first element, in tree order,
    whose [id] attribute is [id]. *)
Definition getElementById (id : jsstring) (document : node) : option path :=
  first_match (λ e, bool_decide (attributes e !! "id"%string = Some id)) document.

(** Assignment to [el.textContent]: the children are replaced by one
    text node, or by nothing when the string is empty. *)
Definition set_textContent (s : jsstring) (n : node) : node :=
  match n with
  | Elem e _ => Elem e (if bool_decide (s = []) then [] else [Text s])
  | Text _ => Text s
  end.

(** [setupFooterYear], for the year [new Date().getFullYear()] gives. *)
Definition setupFooterYear (year : Z) (document : node) : node :=
  match getElementById (lit "year") document with
  | Some yearEl =>
      update_at yearEl (set_textContent (to_string (JNum year))) document
  | None => document
  end.

(** The selectors [.bgVideo__yt[data-yt-bg]], [.bgVideo__vid] and
    [.ytEmbed[data-yt][data-autoplay]]. *)
Definition sel_bgVideo_yt (e : element) : bool :=
  has_class "bgVideo__yt" e && hasAttribute e "data-yt-bg".

Definition sel_bgVideo_vid (e : element) : bool := has_class "bgVideo__vid" e.

Definition sel_autoplay_embed (e : element) : bool :=
  has_class "ytEmbed" e && hasAttribute e "data-yt" && hasAttribute e "data-autoplay".

(** What is done to the local background video outside the tree of
    elements, classes and attributes: the call of [pause()], whose
    failure is caught and ignored. *)
Inductive media_effect :=
  | TryPause (el : path).

Record background := Background {
  document_after : node;
  fallback_effects : list media_effect
}.

Section Background.

(** The assignment [el.style.display = "none"] rewrites the [style]
    attribute of the element: its new value is the serialization of the
    element's inline declarations with [display] set.  For an element
    without a [style] attribute that is [display: none;]; what the
    browser's CSS parser and serializer make of a former value is
    [display_none]. *)
Context (display_none : jsstring → jsstring).

Definition hidden_style (former : option jsstring) : jsstring :=
  match former with
  | None => lit "display: none;"
  | Some style => display_none style
  end.

Definition style_display_none (n : node) : node :=
  match n with
  | Elem e _ =>
      set_attribute "style" (hidden_style (attributes e !! "style"%string)) n
  | Text _ => n
  end.

Definition setupYoutubeBackground (document : node) : background :=
  match document_querySelector sel_bgVideo_yt document with
  | None => Background document []
  | Some bgHost =>
      match node_at document bgHost with
      | Some (Elem he hcs) =>
          let raw := getAttribute he "data-yt-bg" in
          if negb (to_boolean raw) then Background document []
          else
            let r := injectIframe (Some (Elem he hcs)) raw
                       (Some {[ "autoplay"%string := JNum 1 ]}) in
            let document1 :=
              update_at bgHost (λ h, default h (host_after r)) document in
            match returned r with
            | Some _ =>
                match document_querySelector sel_bgVideo_vid document1 with
                | Some localBgVid =>
                    Background
                      (update_at localBgVid style_display_none document1)
                      [TryPause localBgVid]
                | None => Background document1 []
                end
            | None => Background document1 []
            end
      | _ => Background document []
      end
  end.

End Background.

(** The callback of [setupAutoplayEmbeds] for one host of the list. *)
Definition autoplay_embed (document : node) (host : path) : node :=
  match node_at document host with
  | Some (Elem he _) =>
      match getAttribute he "data-yt" with
      | JStr raw =>
          if negb (to_boolean (JStr raw)) || startsWith (lit "YOUR_") raw
          then document
          else
            update_at host
              (on_host (λ h, host_after
                 (injectIframe h (JStr raw) (Some {[ "autoplay"%string := JNum 1 ]}))))
              document
      | _ => document
      end
  | _ => document
  end.

(** [setupAutoplayEmbeds]: the hosts are listed once, on the document as
    it is when the function starts, and handled in document order. *)
Definition setupAutoplayEmbeds (document : node) : node :=
  foldl autoplay_embed document (all_matches sel_autoplay_embed document).

(** The state of the page once the [DOMContentLoaded] listener has run. *)
Record loaded := Loaded {
  page : node;
  media_effects : list media_effect;
  listeners : list listener
}.

Definition DOMContentLoaded (display_none : jsstring → jsstring)
    (year : Z) (document : node) : loaded :=
  let document1 := setupFooterYear year document in
  let bg := setupYoutubeBackground display_none document1 in
  let document3 := setupAutoplayEmbeds (document_after bg) in
  Loaded document3 (fallback_effects bg) (setupHoverPreviews document3).

End Load.

Import Load.

(** ** Notions of the specification, and what the claims are stated with *)

Module Spec.

(** The 64 characters of [[A-Za-z0-9_-]], written out. *)
Definition id_alphabet : jsstring :=
  lit "ABCDEFGHIJKLMNOPQRSTUVWXYZabcdefghijklmnopqrstuvwxyz0123456789_-".

(** A canonical identifier: exactly 11 characters of the alphabet. *)
Definition canonical (s : jsstring) : Prop :=
  length s = 11%nat ∧ Forall (λ c, c ∈ id_alphabet) s.

(** [id] is a canonical identifier standing right after one of the
    markers [ms], the marker starting at offset [i] of [s]. *)
Definition follows_marker (ms : list jsstring) (s : jsstring) (i : nat)
    (id : jsstring) : Prop :=
  ∃ m pre post,
    m ∈ ms ∧ s = pre ++ m ++ id ++ post ∧ length pre = i ∧ canonical id.

(** The markers as the specification lists them. *)
Definition spec_markers : list jsstring :=
  [lit "video="; lit "/embed/"; lit "/shorts/"; lit "youtu.be/"].

(** The embed URL format of the specification, for an identifier and an
    autoplay digit. *)
Definition embed_url (id autoplay : jsstring) : jsstring :=
  lit "https://www.youtube-nocookie.com/embed/" ++ id
    ++ lit "?autoplay=" ++ autoplay
    ++ lit "&mute=1&controls=0&rel=0&modestbranding=1&playsinline=1&iv_load_policy=3&loop=1&playlist="
    ++ id.

(** A decision procedure for occurrence, used on concrete URLs. *)
Fixpoint occurs (needle s : jsstring) : bool :=
  startsWith needle s
  || match s with
     | [] => false
     | _ :: s' => occurs needle s'
     end.

(** The extraction rule of the specification for inputs that are not
    bare identifiers, over a list of markers [ms]: the result is the
    canonical identifier after the first marker that has one, or else
    the trimmed input. *)
Definition extracts_first_after (ms : list jsstring) (v : jsval) : Prop :=
  let t := trim (to_string v) in
  (∃ i id, follows_marker ms t i id
           ∧ (∀ j id', (j < i)%nat → ¬ follows_marker ms t j id')
           ∧ (∀ id', follows_marker ms t i id' → id' = id)
           ∧ extractYTId v = id)
  ∨ ((∀ i id, ¬ follows_marker ms t i id) ∧ extractYTId v = t).

(** The characters form-urlencoding keeps: ASCII letters and digits and
    [*], [-], [.], [_]. *)
Definition unreserved : jsstring :=
  lit "ABCDEFGHIJKLMNOPQRSTUVWXYZabcdefghijklmnopqrstuvwxyz0123456789*-._".

(** [needle] occurs in [s]. *)
Definition contains (needle s : jsstring) : Prop :=
  ∃ pre post, s = pre ++ needle ++ post.

(** The fixed tail of the query string, up to the playlist value. *)
Definition fixed_params : jsstring :=
  lit "&mute=1&controls=0&rel=0&modestbranding=1&playsinline=1&iv_load_policy=3&loop=1&playlist=".

(** The number of player elements a host holds; an absent host holds
    none. *)
Definition players (host : option node) : nat :=
  from_option (count_inside sel_iframe) 0%nat host.

(** A call of [injectIframe] that gets past its two guards: the
    reference is truthy and the built URL is not empty. *)
Definition embeds (raw : jsval) (options : option jsobject) : bool :=
  to_boolean raw && to_boolean (JStr (ytSrc raw options)).

(** A sequence of [injectIframe] calls on one host. *)
Definition inject_all (host : option node)
    (calls : list (jsval * option jsobject)) : option node :=
  foldl (λ h c, host_after (injectIframe h c.1 c.2)) host calls.

(** The player element as [injectIframe] leaves it when it had to create
    one. *)
Definition player (src : jsstring) : node :=
  set_attribute "src" src created_iframe.

(** [removes_first sel cs cs']: the children [cs'] are the children [cs]
    with the first element matching [sel], in document order, taken out
    together with its subtree, and nothing else changed. *)
Inductive removes_first (sel : element → bool) : list node → list node → Prop :=
  | removes_here pre e cs post :
      sum_list (count_matches sel <$> pre) = 0%nat →
      sel e = true →
      removes_first sel (pre ++ Elem e cs :: post) (pre ++ post)
  | removes_below pre e cs cs' post :
      sum_list (count_matches sel <$> pre) = 0%nat →
      sel e = false →
      removes_first sel cs cs' →
      removes_first sel (pre ++ Elem e cs :: post) (pre ++ Elem e cs' :: post).

(** The handler a wired card runs for a pointer event. *)
Definition hover_event (w : wiring) (ev : pointer_event) (card : node) : node :=
  match ev with
  | pointerenter => play w card
  | pointerleave => stop w card
  end.

(** The pointer events of a list, dispatched at one card in turn, with
    the listeners [setupHoverPreviews] registered on the document as it
    was loaded. *)
Definition hover_all (loaded : node) (card : path) (evs : list pointer_event)
    (document : node) : node :=
  foldl (λ doc ev, dispatch (setupHoverPreviews loaded) card ev doc) document evs.

(** The options the page behaviours pass: [{ autoplay: 1 }]. *)
Definition autoplay_on : option jsobject :=
  Some {[ "autoplay"%string := JNum 1 ]}.

End Spec.

Import Spec.

(** ** What embedding leaves in place *)

Module Frame.

(** [e'] is [e] but for the value of [src]. *)
Definition same_but_src (e e' : element) : Prop :=
  tagName e' = tagName e
  ∧ classList e' = classList e
  ∧ ∀ k, k ≠ "src"%string → attributes e' !! k = attributes e !! k.

(** The element [document.createElement("iframe")] gives, with its four
    presentation attributes. *)
Definition created_element : element :=
  Element "iframe" []
    (<["referrerpolicy"%string := lit "strict-origin-when-cross-origin"]>
      (<["title"%string := lit "YouTube video"]>
        (<["allow"%string := lit "autoplay; encrypted-media; picture-in-picture"]>
          (<["loading"%string := lit "lazy"]> ∅)))).

(** A tree made of created iframes only, whatever their [src]; the
    player [injectIframe] appends is one. *)
Fixpoint embedded (n : node) : Prop :=
  match n with
  | Text _ => False
  | Elem e cs =>
      same_but_src created_element e
      ∧ fold_right (λ c rest, embedded c ∧ rest) True cs
  end.

Section Children.

Context (R : node → node → Prop).

(** The children [l'] are the children [l], related one by one, followed
    by embedded players. *)
Fixpoint grows_list (l l' : list node) : Prop :=
  match l, l' with
  | [], added => Forall embedded added
  | c :: l0, c' :: l0' => R c c' ∧ grows_list l0 l0'
  | _ :: _, [] => False
  end.

End Children.

(** [grows n n']: the tree [n'] is the tree [n] where some elements had
    their [src] assigned and some got embedded players as last
    children; no node is removed, moved or otherwise changed. *)
Fixpoint grows (n n' : node) : Prop :=
  match n, n' with
  | Text d, Text d' => d = d'
  | Elem e cs, Elem e' cs' => same_but_src e e' ∧ grows_list grows cs cs'
  | _, _ => False
  end.

(** A selector that does not look at [src] and does not match a created
    iframe: the class and [data-] selectors of the page behaviours are
    such. *)
Definition blind (sel : element → bool) : Prop :=
  (∀ e e', same_but_src e e' → sel e' = sel e)
  ∧ sel created_element = false.

(** Two references into a tree that part ways: neither leads into the
    subtree of the other. *)
Definition apart (p q : path) : Prop :=
  ∃ r i j p' q', p = r ++ i :: p' ∧ q = r ++ j :: q' ∧ i ≠ j.

(** The classes of the root element of a tree. *)
Definition root_classes (n : node) : list string :=
  match n with
  | Elem e _ => classList e
  | Text _ => []
  end.

(** [e'] is [e] but for the value of [style]. *)
Definition same_but_style (e e' : element) : Prop :=
  tagName e' = tagName e
  ∧ classList e' = classList e
  ∧ ∀ k, k ≠ "style"%string → attributes e' !! k = attributes e !! k.

Section Pairs.

Context (R : node → node → Prop).

(** Two lists of children of the same length, related one by one. *)
Fixpoint pairwise (l l' : list node) : Prop :=
  match l, l' with
  | [], [] => True
  | c :: l0, c' :: l0' => R c c' ∧ pairwise l0 l0'
  | _, _ => False
  end.

End Pairs.

(** [restyled n n']: the tree [n'] is the tree [n] where some elements
    had their [style] attribute written; no node is added, removed or
    otherwise changed. *)
Fixpoint restyled (n n' : node) : Prop :=
  match n, n' with
  | Text d, Text d' => d = d'
  | Elem e cs, Elem e' cs' => same_but_style e e' ∧ pairwise restyled cs cs'
  | _, _ => False
  end.

(** A selector that does not look at [style]. *)
Definition unstyled (sel : element → bool) : Prop :=
  ∀ e e', same_but_style e e' → sel e' = sel e.

(** [clearIframe] called [k] times in a row. *)
Fixpoint clear_times (k : nat) (host : option node) : option node :=
  match k with
  | O => host
  | S k' => clear_times k' (clearIframe host)
  end.

End Frame.

Import Frame.

(** ** The query of a URL, as a reader of the URL takes it apart *)

Module Query.

(** The part of a string before the first occurrence of a character,
    and the part after it when it occurs. *)
Fixpoint before_first (c : N) (s : jsstring) : jsstring :=
  match s with
  | [] => []
  | x :: s' => if x =? c then [] else x :: before_first c s'
  end.

Fixpoint after_first (c : N) (s : jsstring) : option jsstring :=
  match s with
  | [] => None
  | x :: s' => if x =? c then Some s' else after_first c s'
  end.

(** The query of an [https] URL: what stands between the first [?] and
    the fragment, which starts at the first [#]; [None] when no [?]
    comes before the fragment. *)
Definition url_query (url : jsstring) : option jsstring :=
  after_first 63 (before_first 35 url).

(** The pieces of a string between the occurrences of a separator. *)
Fixpoint split_on (c : N) (s : jsstring) : list jsstring :=
  match s with
  | [] => [[]]
  | x :: s' =>
      if x =? c then [] :: split_on c s'
      else
        match split_on c s' with
        | piece :: pieces => (x :: piece) :: pieces
        | [] => [[x]]
        end
  end.

(** The parameters of a query, in order: the pieces between [&], the
    empty ones left out, each split at its first [=] into a name and a
    value, both as they stand in the URL (still form-urlencoded). *)
Definition query_pairs (q : jsstring) : list (jsstring * jsstring) :=
  (λ piece, (before_first 61 piece, default [] (after_first 61 piece)))
    <$> filter (λ piece, piece ≠ []) (split_on 38 q).

Definition url_params (url : jsstring) : list (jsstring * jsstring) :=
  from_option query_pairs [] (url_query url).

(** The bytes a serialized name or value stands for: [+] is a space,
    [%] followed by two hexadecimal digits is the byte they write, and
    every other character is its own byte. *)
Definition is_hex_digit (c : N) : bool :=
  in_range 48 57 c || in_range 65 70 c || in_range 97 102 c.

Definition hex_value (c : N) : N :=
  if c <=? 57 then c - 48 else if c <=? 70 then c - 55 else c - 87.

Fixpoint form_decode (s : jsstring) : list N :=
  match s with
  | [] => []
  | c :: rest =>
      if c =? 43 then 32 :: form_decode rest
      else if c =? 37 then
        match rest with
        | h :: l :: rest' =>
            if is_hex_digit h && is_hex_digit l
            then (16 * hex_value h + hex_value l) :: form_decode rest'
            else c :: form_decode rest
        | _ => c :: form_decode rest
        end
      else c :: form_decode rest
  end.

(** The values the model stands for: a Number that is a safe integer
    (beyond them JavaScript prints a rounded numeral or an exponent), a
    String of 16-bit code units, and the other primitives. *)
Definition representable (v : jsval) : Prop :=
  match v with
  | JNum z => (Z.abs z ≤ 9007199254740991)%Z
  | JStr s => Forall (λ c, c < 65536) s
  | _ => True
  end.

(** The nine parameters [ytSrc] passes, with the values of the first
    and the last as serialized. *)
Definition embed_params (autoplay playlist : jsstring)
    : list (jsstring * jsstring) :=
  [ (lit "autoplay", autoplay); (lit "mute", lit "1");
    (lit "controls", lit "0"); (lit "rel", lit "0");
    (lit "modestbranding", lit "1"); (lit "playsinline", lit "1");
    (lit "iv_load_policy", lit "3"); (lit "loop", lit "1");
    (lit "playlist", playlist) ].

End Query.

Import Query.

(** ** Characters *)

Section Characters.

Lemma below_128 (P : N → bool) :
  forallb P (N.of_nat <$> seq 0 128) = true → ∀ c, c < 128 → P c = true.
Proof.
  intros HP c Hc.
  rewrite forallb_forall in HP. apply HP.
  apply list_elem_of_In, list_elem_of_fmap.
  exists (N.to_nat c). split; [by rewrite N2Nat.id|].
  apply list_elem_of_In, in_seq. lia.
Qed.

Ltac unfold_ranges :=
  unfold in_range in *;
  repeat match goal with
  | H : _ || _ = true |- _ => apply orb_true_iff in H; destruct H
  | H : _ && _ = true |- _ => apply andb_true_iff in H; destruct H
  | H : (_ <=? _) = true |- _ => apply N.leb_le in H
  | H : (_ =? _) = true |- _ => apply N.eqb_eq in H
  end.

Lemma id_char_ascii c : is_id_char c = true → c < 128.
Proof. unfold is_id_char. intros H. unfold_ranges; lia. Qed.

Lemma safe_ascii c : is_urlencoded_safe c = true → c < 128.
Proof. unfold is_urlencoded_safe. intros H. unfold_ranges; lia. Qed.

Lemma id_char_not_white_space c :
  is_id_char c = true → is_white_space c = false.
Proof.
  intros H. pose proof (id_char_ascii c H) as Hc.
  pose proof (below_128 (λ c, implb (is_id_char c) (negb (is_white_space c)))
                eq_refl c Hc) as HP.
  simpl in HP. rewrite H in HP. by apply negb_true_iff in HP.
Qed.

Lemma id_char_safe c : is_id_char c = true → is_urlencoded_safe c = true.
Proof.
  intros H. pose proof (id_char_ascii c H) as Hc.
  pose proof (below_128 (λ c, implb (is_id_char c) (is_urlencoded_safe c))
                eq_refl c Hc) as HP.
  simpl in HP. by rewrite H in HP.
Qed.

(** The character class of the pattern is the alphabet of the
    specification. *)
Lemma id_char_alphabet c : is_id_char c = true ↔ c ∈ id_alphabet.
Proof.
  split.
  - intros H. pose proof (id_char_ascii c H) as Hc.
    pose proof (below_128
      (λ c, implb (is_id_char c) (bool_decide (c ∈ id_alphabet)))
      eq_refl c Hc) as HP.
    simpl in HP. rewrite H in HP. by apply bool_decide_eq_true in HP.
  - intros H.
    assert (HA : Forall (λ c, is_id_char c = true) id_alphabet).
    { apply Forall_forall. intros x Hx.
      apply list_elem_of_In in Hx.
      revert x Hx. apply forallb_forall. reflexivity. }
    rewrite Forall_forall in HA. by apply HA.
Qed.

Lemma is_bare_id_canonical s : is_bare_id s = true ↔ canonical s.
Proof.
  unfold is_bare_id, canonical.
  rewrite andb_true_iff, bool_decide_eq_true, forallb_forall, Forall_forall.
  split; intros [Hl Hc]; split; auto; intros c Hin.
  - apply id_char_alphabet, Hc. by apply list_elem_of_In.
  - apply id_char_alphabet, Hc. by apply list_elem_of_In.
Qed.

End Characters.

(** ** Trimming *)

Section Trim.

Lemma trimStart_id s :
  Forall (λ c, is_white_space c = false) s → trimStart s = s.
Proof. destruct 1 as [|c s Hc _]; simpl; [done | by rewrite Hc]. Qed.

Lemma trim_id s :
  Forall (λ c, is_white_space c = false) s → trim s = s.
Proof.
  intros H. unfold trim, trimEnd.
  rewrite (trimStart_id s H), trimStart_id, rev_involutive; [done|].
  apply Forall_forall. intros c Hc. rewrite Forall_forall in H.
  apply H. apply list_elem_of_In. apply list_elem_of_In, in_rev in Hc.
  done.
Qed.

Lemma trim_bare_id s : is_bare_id s = true → trim s = s.
Proof.
  intros [_ H]%andb_true_iff. apply trim_id.
  rewrite forallb_forall in H. apply Forall_forall. intros c Hc.
  apply id_char_not_white_space, H. by apply list_elem_of_In.
Qed.

Lemma bare_id_truthy s : is_bare_id s = true → to_boolean (JStr s) = true.
Proof.
  intros [Hl _]%andb_true_iff. apply bool_decide_eq_true in Hl.
  destruct s; [done|]. reflexivity.
Qed.

Lemma trimStart_truthy s : trimStart s ≠ [] → s ≠ [].
Proof. by destruct s. Qed.

Lemma trim_truthy s : trim s ≠ [] → s ≠ [].
Proof.
  unfold trim, trimEnd. intros H. apply trimStart_truthy.
  intros E. rewrite E in H. done.
Qed.

End Trim.

(** ** Identifier extraction *)

Section Extract.

Lemma extract_bare_trimmed raw :
  is_bare_id (trim raw) = true → extractYTId (JStr raw) = trim raw.
Proof.
  intros H. unfold extractYTId.
  assert (Hraw : raw ≠ []).
  { apply trim_truthy. intros E. rewrite E in H. done. }
  simpl. rewrite bool_decide_eq_false_2 by done. simpl. by rewrite H.
Qed.

(** C2. A string of exactly 11 characters drawn from [[A-Za-z0-9_-]] is
    returned unchanged by [extractYTId]; more generally an input whose
    trimmed value is such a string yields that string. *)
Theorem extract_bare_id (raw s : jsstring) :
  trim raw = s → canonical s →
  extractYTId (JStr raw) = s ∧ extractYTId (JStr s) = s.
Proof.
  intros Ht Hc. apply is_bare_id_canonical in Hc.
  split.
  - subst s. by apply extract_bare_trimmed.
  - rewrite <- (trim_bare_id s Hc) at 2.
    apply extract_bare_trimmed. by rewrite (trim_bare_id s Hc).
Qed.

Lemma extract_bare_id_witness :
  extractYTId (JStr (lit "  RAbnwLxwPNY ")) = lit "RAbnwLxwPNY"
  ∧ extractYTId (JStr (lit "RAbnwLxwPNY")) = lit "RAbnwLxwPNY".
Proof.
  apply (extract_bare_id (lit "  RAbnwLxwPNY ") (lit "RAbnwLxwPNY")).
  - reflexivity.
  - split; [reflexivity|].
    apply Forall_forall. intros c Hc. apply id_char_alphabet.
    apply list_elem_of_In in Hc. revert c Hc. apply forallb_forall.
    reflexivity.
Defined.

(** C5. For an empty or missing input ([undefined], [null] or the empty
    string) both [extractYTId] and [ytSrc] return the empty string,
    whatever the options; both are total functions, nothing raises. *)
Theorem empty_input_yields_empty (v : jsval) (options : option jsobject) :
  v ∈ [JUndefined; JNull; JStr []] →
  extractYTId v = [] ∧ ytSrc v options = [].
Proof.
  intros Hv. repeat (apply elem_of_cons in Hv as [->|Hv]); try done.
  by apply elem_of_nil in Hv.
Qed.

Lemma empty_input_yields_empty_witness :
  extractYTId JNull = [] ∧ ytSrc JNull (Some {[ "autoplay"%string := JNum 0 ]}) = [].
Proof.
  apply (empty_input_yields_empty JNull). apply elem_of_cons. right.
  apply elem_of_cons. by left.
Defined.

End Extract.

(** ** The URL pattern *)

Section Pattern.

Lemma strip_literal_Some m s r : strip_literal m s = Some r ↔ s = m ++ r.
Proof.
  revert s. induction m as [|a m IH]; intros s; simpl.
  - split; congruence.
  - destruct s as [|b s]; [split; discriminate|].
    destruct (N.eqb_spec a b) as [->|Hne].
    + rewrite IH. split; congruence.
    + split; [discriminate | congruence].
Qed.

Lemma capture_id_Some r g :
  capture_id r = Some g ↔ ∃ post, r = g ++ post ∧ canonical g.
Proof.
  unfold capture_id. split.
  - destruct (is_bare_id (take 11 r)) eqn:E; [|discriminate].
    intros [= <-]. exists (drop 11 r).
    split; [by rewrite take_drop | by apply is_bare_id_canonical].
  - intros (post & -> & Hc).
    assert (take 11 (g ++ post) = g) as ->.
    { destruct Hc as [Hl _]. rewrite <- Hl. apply take_app_length. }
    apply is_bare_id_canonical in Hc. by rewrite Hc.
Qed.

Lemma match_alternatives_Some ms s g :
  match_alternatives ms s = Some g →
  ∃ m post, m ∈ ms ∧ s = m ++ g ++ post ∧ canonical g.
Proof.
  induction ms as [|m ms IH]; simpl; [discriminate|].
  destruct (strip_literal m s ≫= capture_id) as [g'|] eqn:E.
  - intros [= ->].
    apply bind_Some in E as (r & Hr & Hg).
    apply strip_literal_Some in Hr.
    apply capture_id_Some in Hg as (post & -> & Hc).
    exists m, post. split; [by left | done].
  - intros H. destruct (IH H) as (m' & post & Hin & Hs & Hc).
    exists m', post. split; [by right | done].
Qed.

Lemma match_alternatives_None ms s :
  match_alternatives ms s = None →
  ∀ m g post, m ∈ ms → s = m ++ g ++ post → ¬ canonical g.
Proof.
  induction ms as [|m ms IH]; simpl; intros H m' g post Hin Hs Hc.
  - by apply elem_of_nil in Hin.
  - destruct (strip_literal m s ≫= capture_id) as [g'|] eqn:E; [discriminate|].
    apply elem_of_cons in Hin as [->|Hin]; [|by eapply IH].
    assert (strip_literal m s ≫= capture_id = Some g) as E'; [|congruence].
    apply bind_Some. exists (g ++ post).
    split; [by apply strip_literal_Some|].
    apply capture_id_Some. by exists post.
Qed.

Local Arguments match_alternatives : simpl never.
Local Arguments regex_match : simpl never.

Lemma regex_match_cons c s :
  regex_match (c :: s) =
  match match_alternatives markers (c :: s) with
  | Some g => Some g
  | None => regex_match s
  end.
Proof. reflexivity. Qed.

Lemma regex_match_Some s g :
  regex_match s = Some g →
  ∃ i, follows_marker markers s i g
       ∧ ∀ j g', (j < i)%nat → ¬ follows_marker markers s j g'.
Proof.
  induction s as [|c s IH].
  - discriminate.
  - rewrite regex_match_cons.
    destruct (match_alternatives markers (c :: s)) eqn:E.
    + intros [= ->]. apply match_alternatives_Some in E as (m & post & ? & ? & ?).
      exists 0%nat. split; [|lia]. by exists m, [], post.
    + intros H. destruct (IH H) as (i & (m & pre & post & Hin & -> & Hl & Hc) & Hmin).
      exists (S i). split.
      * exists m, (c :: pre), post. simpl. by rewrite Hl.
      * intros j g' Hj (m' & pre' & post' & Hin' & Hs' & Hl' & Hc').
        destruct pre' as [|c' pre']; simpl in *.
        -- by eapply (match_alternatives_None _ _ E m' g' post').
        -- injection Hs' as -> Hs'. subst j.
           apply (Hmin (length pre') g'); [lia|].
           by exists m', pre', post'.
Qed.

Lemma regex_match_None s :
  regex_match s = None → ∀ i g, ¬ follows_marker markers s i g.
Proof.
  induction s as [|c s IH].
  - intros _ i g (m & pre & post & Hin & Hs & Hl & Hc).
    destruct pre; [|discriminate].
    by eapply (match_alternatives_None markers [] eq_refl m g post).
  - rewrite regex_match_cons.
    destruct (match_alternatives markers (c :: s)) eqn:E; [discriminate|].
    intros H i g (m & pre & post & Hin & Hs & Hl & Hc).
    destruct pre as [|c' pre]; simpl in *.
    + by eapply (match_alternatives_None _ _ E m g post).
    + injection Hs as -> Hs. eapply (IH H (length pre) g).
      by exists m, pre, post.
Qed.

(** No two alternatives of the pattern start alike, so the identifier
    found at a given offset does not depend on the alternative. *)
Lemma marker_head m m' (r r' : jsstring) :
  m ∈ markers → m' ∈ markers → m ++ r = m' ++ r' → m = m'.
Proof.
  unfold markers. intros Hin Hin' Hs.
  repeat (apply elem_of_cons in Hin as [->|Hin]);
    try (by apply elem_of_nil in Hin).
  all: repeat (apply elem_of_cons in Hin' as [->|Hin']);
    try (by apply elem_of_nil in Hin').
  all: try reflexivity.
  all: vm_compute in Hs; discriminate.
Qed.

Lemma follows_marker_unique s i g g' :
  follows_marker markers s i g → follows_marker markers s i g' → g = g'.
Proof.
  intros (m & pre & post & Hin & -> & Hl & [Hg _])
         (m' & pre' & post' & Hin' & Hs & Hl' & [Hg' _]).
  apply app_inj_1 in Hs as [_ Hs]; [|congruence].
  pose proof (marker_head _ _ _ _ Hin Hin' Hs) as <-.
  apply app_inv_head in Hs.
  apply app_inj_1 in Hs as [? _]; [done | congruence].
Qed.

End Pattern.

Section ExtractUrl.

Lemma extract_not_bare v :
  to_boolean v = true → is_bare_id (trim (to_string v)) = false →
  extractYTId v =
    match regex_match (trim (to_string v)) with
    | Some g => g
    | None => trim (to_string v)
    end.
Proof.
  intros Hv Hb. unfold extractYTId. rewrite Hv, Hb. simpl.
  destruct (regex_match _) as [g|] eqn:E; [|done].
  apply regex_match_Some in E as (i & (m & pre & post & _ & _ & _ & [Hl _]) & _).
  destruct g; [done|]. reflexivity.
Qed.

(** C3 (amended). For a non-empty input whose trimmed value is not a
    bare identifier, [extractYTId] returns the canonical identifier that
    follows the first occurrence of one of the markers [v=], [/embed/],
    [/shorts/], [youtu.be/] having one, and the trimmed input when there
    is none; the four URL shapes of the specification give
    [RAbnwLxwPNY]. *)
Theorem extract_first_marker :
  (∀ v, to_boolean v = true → ¬ canonical (trim (to_string v)) →
        extracts_first_after markers v)
  ∧ extractYTId (JStr (lit "https://youtu.be/RAbnwLxwPNY")) = lit "RAbnwLxwPNY"
  ∧ extractYTId (JStr (lit "https://x/embed/RAbnwLxwPNY")) = lit "RAbnwLxwPNY"
  ∧ extractYTId (JStr (lit "https://x/watch?v=RAbnwLxwPNY")) = lit "RAbnwLxwPNY"
  ∧ extractYTId (JStr (lit "https://x/shorts/RAbnwLxwPNY")) = lit "RAbnwLxwPNY".
Proof.
  split; [|repeat split; reflexivity].
  intros v Hv Hc. unfold extracts_first_after.
  assert (Hb : is_bare_id (trim (to_string v)) = false).
  { destruct (is_bare_id _) eqn:E; [|done].
    by apply is_bare_id_canonical in E. }
  rewrite (extract_not_bare v Hv Hb).
  destruct (regex_match _) as [g|] eqn:E.
  - left. apply regex_match_Some in E as (i & Hf & Hmin).
    exists i, g. split; [done|]. split; [done|]. split; [|done].
    intros id' Hf'. by eapply follows_marker_unique.
  - right. split; [|done]. by apply regex_match_None.
Qed.

Lemma extract_first_marker_witness :
  extracts_first_after markers (JStr (lit "see https://youtu.be/RAbnwLxwPNY?t=1")).
Proof.
  apply (proj1 extract_first_marker).
  - reflexivity.
  - intros [Hl _]. vm_compute in Hl. discriminate.
Defined.

(** C3 as stated fails: after the marker [video=] the specification
    names, the identifier is not extracted; the input comes back. *)
Lemma extract_video_marker_counterexample :
  let v := JStr (lit "video=RAbnwLxwPNY") in
  to_boolean v = true
  ∧ ¬ canonical (trim (to_string v))
  ∧ follows_marker spec_markers (trim (to_string v)) 0 (lit "RAbnwLxwPNY")
  ∧ extractYTId v = lit "video=RAbnwLxwPNY"
  ∧ ¬ extracts_first_after spec_markers v.
Proof.
  assert (Hcan : canonical (lit "RAbnwLxwPNY")).
  { apply is_bare_id_canonical. reflexivity. }
  assert (Hf : follows_marker spec_markers (lit "video=RAbnwLxwPNY") 0
                 (lit "RAbnwLxwPNY")).
  { exists (lit "video="), [], [].
    split; [by left|]. split; [reflexivity|]. split; [reflexivity|apply Hcan]. }
  split; [reflexivity|]. split; [|split; [exact Hf|split; [reflexivity|]]].
  - intros [Hl _]. vm_compute in Hl. discriminate.
  - intros [(i & id & (m & pre & post & _ & _ & _ & [Hl _]) & _ & _ & He) | [Hno _]].
    + rewrite <- He in Hl. vm_compute in Hl. discriminate.
    + exact (Hno _ _ Hf).
Qed.

End ExtractUrl.

(** ** Form-urlencoding *)

Section Urlencode.

Lemma safe_unreserved c : is_urlencoded_safe c = true ↔ c ∈ unreserved.
Proof.
  split.
  - intros H. pose proof (safe_ascii c H) as Hc.
    pose proof (below_128
      (λ c, implb (is_urlencoded_safe c) (bool_decide (c ∈ unreserved)))
      eq_refl c Hc) as HP.
    simpl in HP. rewrite H in HP. by apply bool_decide_eq_true in HP.
  - intros H.
    assert (HA : Forall (λ c, is_urlencoded_safe c = true) unreserved).
    { apply Forall_forall. intros x Hx.
      apply list_elem_of_In in Hx.
      revert x Hx. apply forallb_forall. reflexivity. }
    rewrite Forall_forall in HA. by apply HA.
Qed.

Lemma urlencode_cons_safe c s :
  is_urlencoded_safe c = true → urlencode (c :: s) = c :: urlencode s.
Proof.
  intros H. pose proof (safe_ascii c H) as Hc.
  unfold urlencode. cbn [utf8_encode].
  assert (is_high_surrogate c = false) as ->.
  { unfold is_high_surrogate, in_range. apply andb_false_iff. left.
    apply N.leb_gt. lia. }
  assert (is_low_surrogate c = false) as ->.
  { unfold is_low_surrogate, in_range. apply andb_false_iff. left.
    apply N.leb_gt. lia. }
  unfold utf8_bytes. apply N.ltb_lt in Hc. rewrite Hc.
  cbn [app mbind list_bind]. unfold urlencode_byte at 1. by rewrite H.
Qed.

(** A string of unreserved characters is its own encoding. *)
Lemma urlencode_unreserved s :
  Forall (λ c, c ∈ unreserved) s → urlencode s = s.
Proof.
  induction 1 as [|c s Hc _ IH]; [done|].
  rewrite urlencode_cons_safe by by apply safe_unreserved.
  by rewrite IH.
Qed.

Lemma canonical_unreserved s :
  canonical s → Forall (λ c, c ∈ unreserved) s.
Proof.
  intros [_ H]. eapply Forall_impl; [exact H|].
  intros c Hc. by apply safe_unreserved, id_char_safe, id_char_alphabet.
Qed.

Lemma lit_cons a s : lit (String a s) = N_of_ascii a :: lit s.
Proof. reflexivity. Qed.

Lemma uint_unreserved (d : Decimal.uint) :
  Forall (λ c, c ∈ unreserved) (lit (NilEmpty.string_of_uint d)).
Proof.
  induction d; cbn [NilEmpty.string_of_uint]; [constructor|..];
    rewrite lit_cons; (constructor; [|done]);
    apply safe_unreserved; reflexivity.
Qed.

(** The decimal numeral of an integer has nothing to encode. *)
Lemma number_unreserved z :
  Forall (λ c, c ∈ unreserved) (to_string (JNum z)).
Proof.
  unfold to_string.
  assert (Hz : ∀ d, Forall (λ c, c ∈ unreserved) (lit (NilZero.string_of_uint d))).
  { intros d. destruct d; try apply uint_unreserved.
    cbn. constructor; [|constructor]. apply safe_unreserved. reflexivity. }
  destruct (Z.to_int z) as [d|d]; cbn [NilZero.string_of_int].
  - apply Hz.
  - rewrite lit_cons. constructor; [|apply Hz].
    apply safe_unreserved. reflexivity.
Qed.

Lemma hex_digit_range n : 48 ≤ hex_digit n ≤ 57 ∨ 65 ≤ hex_digit n.
Proof. unfold hex_digit. destruct (N.ltb_spec n 10); lia. Qed.

Lemma urlencode_byte_chars b c :
  c ∈ urlencode_byte b →
  is_urlencoded_safe c = true ∨ c = 0x2B ∨ c = 0x25 ∨ 48 ≤ c ≤ 57 ∨ 65 ≤ c.
Proof.
  unfold urlencode_byte.
  destruct (is_urlencoded_safe b) eqn:Hb.
  - intros ->%list_elem_of_singleton. by left.
  - destruct (b =? 0x20).
    + intros ->%list_elem_of_singleton. tauto.
    + intros H. repeat (apply elem_of_cons in H as [->|H]).
      * tauto.
      * pose proof (hex_digit_range (N.shiftr b 4)). tauto.
      * pose proof (hex_digit_range (N.land b 15)). tauto.
      * by apply elem_of_nil in H.
Qed.

(** None of [&], [=], [#], [?] and the space comes out of the
    serializer. *)
Lemma urlencode_no_delimiter s c :
  c ∈ urlencode s → c ∉ lit "&=#? ".
Proof.
  unfold urlencode. intros (b & Hc & _)%list_elem_of_bind Hd.
  apply urlencode_byte_chars in Hc.
  assert (c = 38 ∨ c = 61 ∨ c = 35 ∨ c = 63 ∨ c = 32) as Hcases.
  { repeat (apply elem_of_cons in Hd as [->|Hd]); try tauto.
    by apply elem_of_nil in Hd. }
  destruct Hc as [Hs | Hc]; [|lia].
  destruct Hcases as [-> | [-> | [-> | [-> | ->]]]]; discriminate.
Qed.

Lemma urlencode_absent c s : c ∈ lit "&=#? " → c ∉ urlencode s.
Proof. intros Hc Hs. by apply (urlencode_no_delimiter s c). Qed.

End Urlencode.

(** ** The embed URL *)

Section EmbedUrl.

Lemma startsWith_prefix p s : startsWith p s = true ↔ p `prefix_of` s.
Proof.
  revert s. induction p as [|a p IH]; intros s; simpl.
  - split; [intros _; apply prefix_nil | done].
  - destruct s as [|b s].
    + split; [done | intros H; by apply prefix_nil_not in H].
    + rewrite andb_true_iff, N.eqb_eq, IH. split.
      * intros [-> H]. by apply prefix_cons.
      * intros H. split; [by eapply prefix_cons_inv_1 | by eapply prefix_cons_inv_2].
Qed.

Lemma occurs_contains needle s : occurs needle s = true ↔ contains needle s.
Proof.
  split.
  - induction s as [|c s IH]; simpl; rewrite orb_true_iff.
    + intros [H|H]; [|done]. apply startsWith_prefix in H as [k ->].
      by exists [], k.
    + intros [H|H].
      * apply startsWith_prefix in H as [k ->]. by exists [], k.
      * destruct (IH H) as (pre & post & ->). by exists (c :: pre), post.
  - intros (pre & post & ->). induction pre as [|c pre IH].
    + assert (H : startsWith needle (needle ++ post) = true).
      { apply startsWith_prefix. by exists post. }
      simpl. destruct (needle ++ post); simpl in *; by rewrite H.
    + simpl. rewrite IH. apply orb_true_r.
Qed.

Lemma params_toString (a id : jsstring) :
  URLSearchParams_toString
    [ (lit "autoplay", a); (lit "mute", lit "1"); (lit "controls", lit "0");
      (lit "rel", lit "0"); (lit "modestbranding", lit "1");
      (lit "playsinline", lit "1"); (lit "iv_load_policy", lit "3");
      (lit "loop", lit "1"); (lit "playlist", id) ]
  = lit "autoplay=" ++ urlencode a ++ fixed_params ++ urlencode id.
Proof.
  cbn [URLSearchParams_toString].
  generalize (urlencode a) (urlencode id). intros A I.
  vm_compute. reflexivity.
Qed.

(** The URL [ytSrc] builds once the identifier has passed the guard. *)
Lemma ytSrc_shape raw options :
  extractYTId raw ≠ [] →
  ¬ lit "YOUR_" `prefix_of` extractYTId raw →
  ytSrc raw options =
    lit "https://www.youtube-nocookie.com/embed/" ++ extractYTId raw
      ++ lit "?autoplay="
      ++ urlencode (to_string (get_prop
           (Object_assign {[ "autoplay"%string := JNum 1 ]} options) "autoplay"))
      ++ fixed_params ++ urlencode (extractYTId raw).
Proof.
  intros Hne Hpre. unfold ytSrc.
  assert (to_boolean (JStr (extractYTId raw)) = true) as ->.
  { simpl. by rewrite bool_decide_eq_false_2. }
  assert (startsWith (lit "YOUR_") (extractYTId raw) = false) as ->.
  { destruct (startsWith _ _) eqn:E; [|done]. by apply startsWith_prefix in E. }
  cbn [negb orb]. rewrite params_toString.
  rewrite <- !app_assoc. reflexivity.
Qed.

(** The guard of [ytSrc]: an empty or [YOUR_]-prefixed identifier. *)
Lemma ytSrc_guard raw options :
  extractYTId raw = [] ∨ lit "YOUR_" `prefix_of` extractYTId raw →
  ytSrc raw options = [].
Proof.
  intros H. unfold ytSrc.
  destruct H as [->|H]; [done|].
  apply startsWith_prefix in H. rewrite H. by rewrite orb_true_r.
Qed.

Lemma autoplay_option (o : jsobject) a :
  o !! "autoplay"%string = Some a →
  get_prop (Object_assign {[ "autoplay"%string := JNum 1 ]} (Some o)) "autoplay" = a.
Proof.
  intros H. unfold get_prop, Object_assign.
  by rewrite (lookup_union_Some_l _ _ _ _ H).
Qed.

End EmbedUrl.

(** ** The parameters of a built URL *)

Section QueryOf.

Lemma before_first_absent c s : c ∉ s → before_first c s = s.
Proof.
  induction s as [|x s IH]; [done|].
  intros [Hx Hs]%not_elem_of_cons. simpl.
  destruct (N.eqb_spec x c); [congruence|]. by rewrite IH.
Qed.

Lemma before_first_app c s t : c ∉ s → before_first c (s ++ c :: t) = s.
Proof.
  induction s as [|x s IH]; simpl.
  - by rewrite N.eqb_refl.
  - intros [Hx Hs]%not_elem_of_cons.
    destruct (N.eqb_spec x c); [congruence|]. by rewrite IH.
Qed.

Lemma after_first_app c s t : c ∉ s → after_first c (s ++ c :: t) = Some t.
Proof.
  induction s as [|x s IH]; simpl.
  - by rewrite N.eqb_refl.
  - intros [Hx Hs]%not_elem_of_cons.
    destruct (N.eqb_spec x c); [congruence|]. by apply IH.
Qed.

Lemma after_first_absent c s : c ∉ s → after_first c s = None.
Proof.
  induction s as [|x s IH]; [done|].
  intros [Hx Hs]%not_elem_of_cons. simpl.
  destruct (N.eqb_spec x c); [congruence|]. by apply IH.
Qed.

Lemma split_on_absent c s : c ∉ s → split_on c s = [s].
Proof.
  induction s as [|x s IH]; [done|].
  intros [Hx Hs]%not_elem_of_cons. simpl.
  destruct (N.eqb_spec x c); [congruence|]. by rewrite IH.
Qed.

Lemma split_on_app c s t : c ∉ s → split_on c (s ++ c :: t) = s :: split_on c t.
Proof.
  induction s as [|x s IH]; simpl.
  - by rewrite N.eqb_refl.
  - intros [Hx Hs]%not_elem_of_cons.
    destruct (N.eqb_spec x c); [congruence|]. by rewrite IH.
Qed.

(** A character that does not occur in a string written out. *)
Lemma absent_decide (c : N) (s : jsstring) : bool_decide (c ∈ s) = false → c ∉ s.
Proof. apply bool_decide_eq_false_1. Qed.

Lemma present_decide (c : N) (s : jsstring) : bool_decide (c ∈ s) = true → c ∈ s.
Proof. apply bool_decide_eq_true_1. Qed.

(** The query of a URL made of a path without [?] and [#] and a query
    without [#]. *)
Lemma url_query_app path q :
  63 ∉ path → 35 ∉ path → 35 ∉ q → url_query (path ++ 63 :: q) = Some q.
Proof.
  intros H1 H2 H3. unfold url_query.
  rewrite before_first_absent.
  - by apply after_first_app.
  - rewrite elem_of_app, elem_of_cons. intros [?|[?|?]]; done.
Qed.

(** The parameters of a query made like the one [ytSrc] builds, for
    serialized values [a] and [i]. *)
Lemma query_pairs_embed (a i : jsstring) :
  38 ∉ a → 38 ∉ i →
  query_pairs (lit "autoplay=" ++ a ++ fixed_params ++ i) = embed_params a i.
Proof.
  intros Ha Hi. unfold query_pairs.
  assert (Hsplit : split_on 38 (lit "autoplay=" ++ a ++ fixed_params ++ i) =
            [ lit "autoplay=" ++ a; lit "mute=1"; lit "controls=0"; lit "rel=0";
              lit "modestbranding=1"; lit "playsinline=1"; lit "iv_load_policy=3";
              lit "loop=1"; lit "playlist=" ++ i ]).
  { replace (lit "autoplay=" ++ a ++ fixed_params ++ i) with
      ((lit "autoplay=" ++ a) ++ 38 :: lit "mute=1" ++ 38 :: lit "controls=0"
         ++ 38 :: lit "rel=0" ++ 38 :: lit "modestbranding=1"
         ++ 38 :: lit "playsinline=1" ++ 38 :: lit "iv_load_policy=3"
         ++ 38 :: lit "loop=1" ++ 38 :: lit "playlist=" ++ i)
      by (rewrite <- !app_assoc; reflexivity).
    rewrite split_on_app
      by (rewrite elem_of_app; intros [H|H]; [by apply absent_decide in H|done]).
    do 7 (rewrite split_on_app by by apply absent_decide).
    rewrite split_on_absent; [done|].
    rewrite elem_of_app. intros [H|H]; [by apply absent_decide in H|done]. }
  rewrite Hsplit. clear. vm_compute. reflexivity.
Qed.

(** The parameters of the URL [ytSrc] builds for an identifier that
    holds neither [?] nor [#]. *)
Lemma ytSrc_params raw options :
  extractYTId raw ≠ [] →
  ¬ lit "YOUR_" `prefix_of` extractYTId raw →
  63 ∉ extractYTId raw → 35 ∉ extractYTId raw →
  url_params (ytSrc raw options) =
    embed_params
      (urlencode (to_string (get_prop
         (Object_assign {[ "autoplay"%string := JNum 1 ]} options) "autoplay")))
      (urlencode (extractYTId raw)).
Proof.
  intros Hne Hpre Hq Hf. rewrite (ytSrc_shape raw options Hne Hpre).
  set (a := urlencode (to_string _)). set (i := urlencode (extractYTId raw)).
  assert (Ha : ∀ c, c ∈ lit "&=#? " → c ∉ a) by (intros c; apply urlencode_absent).
  assert (Hi : ∀ c, c ∈ lit "&=#? " → c ∉ i) by (intros c; apply urlencode_absent).
  clearbody a i. unfold url_params.
  replace (lit "https://www.youtube-nocookie.com/embed/" ++ extractYTId raw
             ++ lit "?autoplay=" ++ a ++ fixed_params ++ i)
    with ((lit "https://www.youtube-nocookie.com/embed/" ++ extractYTId raw)
            ++ 63 :: lit "autoplay=" ++ a ++ fixed_params ++ i)
    by (rewrite <- !app_assoc; reflexivity).
  rewrite url_query_app.
  - cbn [from_option]. apply query_pairs_embed; [apply Ha | apply Hi]; by apply present_decide.
  - rewrite elem_of_app. intros [H|H]; [by apply absent_decide in H|done].
  - rewrite elem_of_app. intros [H|H]; [by apply absent_decide in H|done].
  - rewrite !elem_of_app.
    intros [H|[H|[H|H]]].
    + by apply absent_decide in H.
    + revert H. by apply Ha, present_decide.
    + by apply absent_decide in H.
    + revert H. by apply Hi, present_decide.
Qed.

Lemma canonical_no_delimiter s : canonical s → (63 ∉ s) ∧ (35 ∉ s).
Proof.
  intros [_ Hs]. rewrite Forall_forall in Hs.
  split; intros H%Hs; apply absent_decide in H; done.
Qed.

(** *** Reading a serialized value back *)

Lemma below_256 (P : N → bool) :
  forallb P (N.of_nat <$> seq 0 256) = true → ∀ c, c < 256 → P c = true.
Proof.
  intros HP c Hc.
  rewrite forallb_forall in HP. apply HP.
  apply list_elem_of_In, list_elem_of_fmap.
  exists (N.to_nat c). split; [by rewrite N2Nat.id|].
  apply list_elem_of_In, in_seq. lia.
Qed.

Lemma form_decode_cons c rest :
  form_decode (c :: rest) =
    if c =? 43 then 32 :: form_decode rest
    else if c =? 37 then
      match rest with
      | h :: l :: rest' =>
          if is_hex_digit h && is_hex_digit l
          then (16 * hex_value h + hex_value l) :: form_decode rest'
          else c :: form_decode rest
      | _ => c :: form_decode rest
      end
    else c :: form_decode rest.
Proof. reflexivity. Qed.

Lemma form_decode_byte b rest :
  b < 256 → form_decode (urlencode_byte b ++ rest) = b :: form_decode rest.
Proof.
  intros Hb.
  pose proof (below_256
    (λ b, if is_urlencoded_safe b then negb (b =? 43) && negb (b =? 37)
          else (b =? 32)
               || (is_hex_digit (hex_digit (N.shiftr b 4))
                   && is_hex_digit (hex_digit (N.land b 15))
                   && (16 * hex_value (hex_digit (N.shiftr b 4))
                         + hex_value (hex_digit (N.land b 15)) =? b)))
    eq_refl b Hb) as HP.
  cbv beta in HP. unfold urlencode_byte.
  destruct (is_urlencoded_safe b).
  - apply andb_true_iff in HP as [H1 H2].
    apply negb_true_iff in H1, H2.
    change ([b] ++ rest) with (b :: rest).
    by rewrite form_decode_cons, H1, H2.
  - destruct (N.eqb_spec b 32) as [->|Hne]; [reflexivity|].
    cbn [orb] in HP.
    apply andb_true_iff in HP as [HP H3]. apply N.eqb_eq in H3.
    change ([37; hex_digit (N.shiftr b 4); hex_digit (N.land b 15)] ++ rest)
      with (37 :: hex_digit (N.shiftr b 4) :: hex_digit (N.land b 15) :: rest).
    rewrite form_decode_cons.
    change (37 =? 43) with false. change (37 =? 37) with true.
    cbv iota. rewrite HP. by rewrite H3.
Qed.

Lemma form_decode_bytes bs :
  Forall (λ b, b < 256) bs → form_decode (bs ≫= urlencode_byte) = bs.
Proof.
  induction 1 as [|b bs Hb _ IH]; [done|].
  csimpl. by rewrite form_decode_byte, IH.
Qed.

Lemma lor_below a b n : a < 2 ^ n → b < 2 ^ n → N.lor a b < 2 ^ n.
Proof.
  intros Ha Hb.
  destruct (N.eq_dec (N.lor a b) 0) as [->|Hz]; [lia|].
  apply N.log2_lt_pow2; [lia|]. rewrite N.log2_lor.
  assert (Hn : 0 < n).
  { destruct (N.eq_dec n 0) as [->|]; [|lia].
    change (2 ^ 0) with 1 in Ha, Hb.
    assert (a = 0) as -> by lia. assert (b = 0) as -> by lia. done. }
  assert (Hlog : ∀ x, x < 2 ^ n → N.log2 x < n).
  { intros x Hx. destruct (N.eq_dec x 0) as [->|]; [done|].
    apply N.log2_lt_pow2; [lia|done]. }
  apply N.max_lub_lt; by apply Hlog.
Qed.

Lemma continuation_below x : N.lor 128 (N.land x 63) < 256.
Proof.
  apply (lor_below _ _ 8); [done|].
  pose proof (N.land_le_r x 63). change (2 ^ 8) with 256. lia.
Qed.

Lemma shiftr_below x k m : x < 2 ^ k * m → N.shiftr x k < m.
Proof. intros H. rewrite N.shiftr_div_pow2. by apply N.Div0.div_lt_upper_bound. Qed.

Lemma utf8_bytes_below cp :
  cp < 0x110000 → Forall (λ b, b < 256) (utf8_bytes cp).
Proof.
  intros Hcp. unfold utf8_bytes.
  destruct (N.ltb_spec cp 0x80); [repeat constructor; lia|].
  destruct (N.ltb_spec cp 0x800); [|destruct (N.ltb_spec cp 0x10000)];
    repeat constructor; try apply continuation_below;
    apply (lor_below _ _ 8); try done;
    change (2 ^ 8) with 256.
  - apply N.lt_trans with 32; [|done]. apply shiftr_below. change (2 ^ 6 * 32) with 2048. lia.
  - apply N.lt_trans with 16; [|done]. apply shiftr_below. change (2 ^ 12 * 16) with 65536. lia.
  - apply N.lt_trans with 8; [|done]. apply shiftr_below. change (2 ^ 18 * 8) with 2097152. lia.
Qed.

Lemma utf8_encode_cons c s' :
  utf8_encode (c :: s') =
    if is_high_surrogate c then
      match s' with
      | d :: s'' =>
          if is_low_surrogate d then
            utf8_bytes (0x10000 + (c - 0xD800) * 0x400 + (d - 0xDC00))
              ++ utf8_encode s''
          else utf8_bytes 0xFFFD ++ utf8_encode s'
      | [] => utf8_bytes 0xFFFD
      end
    else if is_low_surrogate c then utf8_bytes 0xFFFD ++ utf8_encode s'
    else utf8_bytes c ++ utf8_encode s'.
Proof. reflexivity. Qed.

Lemma utf8_encode_below s :
  Forall (λ c, c < 65536) s → Forall (λ b, b < 256) (utf8_encode s).
Proof.
  enough (H : (Forall (λ c, c < 65536) s → Forall (λ b, b < 256) (utf8_encode s))
              ∧ ∀ c, Forall (λ c, c < 65536) (c :: s) →
                     Forall (λ b, b < 256) (utf8_encode (c :: s))) by apply H.
  assert (Hrep : Forall (λ b, b < 256) (utf8_bytes 0xFFFD)) by (by apply utf8_bytes_below).
  induction s as [|d s [IH1 IH2]].
  - split; [constructor|]. intros c [Hc _]%Forall_cons.
    rewrite utf8_encode_cons. change (utf8_encode []) with (@nil N).
    destruct (is_high_surrogate c); [done|].
    destruct (is_low_surrogate c); rewrite app_nil_r; [done|].
    apply utf8_bytes_below. lia.
  - split; [apply IH2|].
    intros c [Hc Hds]%Forall_cons. pose proof Hds as [Hd Hs]%Forall_cons.
    rewrite utf8_encode_cons.
    destruct (is_high_surrogate c) eqn:Hh.
    + destruct (is_low_surrogate d) eqn:Hl.
      * apply Forall_app. split; [|by apply IH1].
        apply utf8_bytes_below.
        unfold is_high_surrogate, is_low_surrogate, in_range in Hh, Hl.
        apply andb_true_iff in Hh as [Hh1 Hh2%N.leb_le].
        apply andb_true_iff in Hl as [Hl1 Hl2%N.leb_le]. lia.
      * apply Forall_app. split; [done|by apply IH2].
    + destruct (is_low_surrogate c); apply Forall_app; (split; [|by apply IH2]).
      * done.
      * apply utf8_bytes_below. lia.
Qed.

(** A serialized value reads back as the UTF-8 bytes of the string. *)
Lemma form_decode_urlencode s :
  Forall (λ c, c < 65536) s → form_decode (urlencode s) = utf8_encode s.
Proof. intros Hs. by apply form_decode_bytes, utf8_encode_below. Qed.

Lemma representable_code_units a :
  representable a → Forall (λ c, c < 65536) (to_string a).
Proof.
  destruct a as [| |[|]|z|s]; intros H.
  1-4: vm_compute; by repeat constructor.
  - eapply Forall_impl; [apply number_unreserved|].
    intros c Hc%safe_unreserved%safe_ascii. lia.
  - exact H.
Qed.

End QueryOf.

Section EmbedUrlClaims.

(** C1 (amended). When the extracted identifier is non-empty and does
    not start with [YOUR_], and the config sets autoplay to 0 or 1,
    [ytSrc] returns the embed URL with the identifier in the path and its
    form-urlencoded serialization as the playlist value; the two are the
    same, and the URL is exactly the one of the specification, whenever
    the identifier is made of unreserved characters, as every canonical
    identifier is.  [ytSrc("RAbnwLxwPNY", {autoplay: 0})] is the URL of
    the specification with [autoplay=0]. *)
Theorem ytSrc_embed_url :
  (∀ (raw : jsval) (o : jsobject) (a : Z),
     extractYTId raw ≠ [] →
     ¬ lit "YOUR_" `prefix_of` extractYTId raw →
     o !! "autoplay"%string = Some (JNum a) →
     a = 0%Z ∨ a = 1%Z →
     ytSrc raw (Some o) =
       lit "https://www.youtube-nocookie.com/embed/" ++ extractYTId raw
         ++ lit "?autoplay=" ++ to_string (JNum a)
         ++ fixed_params ++ urlencode (extractYTId raw)
     ∧ (Forall (λ c, c ∈ unreserved) (extractYTId raw) →
        ytSrc raw (Some o) = embed_url (extractYTId raw) (to_string (JNum a)))
     ∧ (canonical (extractYTId raw) →
        ytSrc raw (Some o) = embed_url (extractYTId raw) (to_string (JNum a))))
  ∧ ytSrc (JStr (lit "RAbnwLxwPNY")) (Some {[ "autoplay"%string := JNum 0 ]})
    = lit "https://www.youtube-nocookie.com/embed/RAbnwLxwPNY?autoplay=0&mute=1&controls=0&rel=0&modestbranding=1&playsinline=1&iv_load_policy=3&loop=1&playlist=RAbnwLxwPNY".
Proof.
  split; [|reflexivity].
  intros raw o a Hne Hpre Ho Ha.
  assert (Hurl : ytSrc raw (Some o) =
    lit "https://www.youtube-nocookie.com/embed/" ++ extractYTId raw
      ++ lit "?autoplay=" ++ to_string (JNum a)
      ++ fixed_params ++ urlencode (extractYTId raw)).
  { rewrite (ytSrc_shape raw (Some o) Hne Hpre), (autoplay_option o _ Ho).
    by rewrite (urlencode_unreserved _ (number_unreserved a)). }
  assert (Hsafe : Forall (λ c, c ∈ unreserved) (extractYTId raw) →
            ytSrc raw (Some o) = embed_url (extractYTId raw) (to_string (JNum a))).
  { intros Hs. rewrite Hurl, (urlencode_unreserved _ Hs). reflexivity. }
  split; [exact Hurl|]. split; [exact Hsafe|].
  intros Hc. by apply Hsafe, canonical_unreserved.
Qed.

Lemma ytSrc_embed_url_witness :
  let raw := JStr (lit "https://youtu.be/RAbnwLxwPNY") in
  let o : jsobject := {[ "autoplay"%string := JNum 1 ]} in
  ytSrc raw (Some o) =
    lit "https://www.youtube-nocookie.com/embed/" ++ extractYTId raw
      ++ lit "?autoplay=" ++ to_string (JNum 1)
      ++ fixed_params ++ urlencode (extractYTId raw)
  ∧ (Forall (λ c, c ∈ unreserved) (extractYTId raw) →
     ytSrc raw (Some o) = embed_url (extractYTId raw) (to_string (JNum 1)))
  ∧ (canonical (extractYTId raw) →
     ytSrc raw (Some o) = embed_url (extractYTId raw) (to_string (JNum 1))).
Proof.
  apply (proj1 ytSrc_embed_url
           (JStr (lit "https://youtu.be/RAbnwLxwPNY"))
           {[ "autoplay"%string := JNum 1 ]} 1%Z).
  - vm_compute. discriminate.
  - intros H%startsWith_prefix. vm_compute in H. discriminate.
  - reflexivity.
  - by right.
Defined.

(** C1 as stated fails: an input that is not recognised is its own
    identifier, and the playlist value is its encoding, not the
    identifier as it stands in the path. *)
Lemma ytSrc_playlist_counterexample :
  let raw := JStr (lit "https://example.com/clip") in
  let o : jsobject := {[ "autoplay"%string := JNum 1 ]} in
  extractYTId raw = lit "https://example.com/clip"
  ∧ extractYTId raw ≠ []
  ∧ ¬ lit "YOUR_" `prefix_of` extractYTId raw
  ∧ ytSrc raw (Some o) =
      lit "https://www.youtube-nocookie.com/embed/https://example.com/clip?autoplay=1&mute=1&controls=0&rel=0&modestbranding=1&playsinline=1&iv_load_policy=3&loop=1&playlist=https%3A%2F%2Fexample.com%2Fclip"
  ∧ ytSrc raw (Some o) ≠ embed_url (extractYTId raw) (lit "1").
Proof.
  split; [reflexivity|]. split; [vm_compute; discriminate|].
  split; [intros H%startsWith_prefix; vm_compute in H; discriminate|].
  split; [reflexivity|]. vm_compute. discriminate.
Qed.

(** [YOUR_], when it heads the input, heads the trimmed input too. *)
Lemma trimStart_app_keep a b :
  trimStart b = b → ∃ a', trimStart (a ++ b) = a' ++ b.
Proof.
  intros Hb. induction a as [|c a IH]; simpl.
  - by exists [].
  - destruct (is_white_space c); [exact IH | by exists (c :: a)].
Qed.

Lemma trim_keeps_sentinel s :
  lit "YOUR_" `prefix_of` s → lit "YOUR_" `prefix_of` trim s.
Proof.
  intros [k ->]. unfold trim, trimEnd.
  change (trimStart (lit "YOUR_" ++ k)) with (lit "YOUR_" ++ k).
  rewrite rev_app_distr.
  destruct (trimStart_app_keep (rev k) (rev (lit "YOUR_")) eq_refl) as [a' ->].
  rewrite rev_app_distr, rev_involutive. by exists (rev a').
Qed.

(** C4 (amended). [ytSrc] returns the empty string whenever the
    extracted identifier starts with [YOUR_], whatever the options; this
    is the case of every input starting with [YOUR_] in which no marker
    is followed by a canonical identifier. *)
Theorem ytSrc_sentinel (options : option jsobject) :
  (∀ raw, lit "YOUR_" `prefix_of` extractYTId raw → ytSrc raw options = [])
  ∧ (∀ s, lit "YOUR_" `prefix_of` s →
          (∀ i id, ¬ follows_marker markers (trim s) i id) →
          ytSrc (JStr s) options = []).
Proof.
  split.
  - intros raw H. apply ytSrc_guard. by right.
  - intros s Hs Hno. apply ytSrc_guard. right.
    assert (Hv : to_boolean (JStr s) = true).
    { destruct Hs as [k ->]. reflexivity. }
    assert (extractYTId (JStr s) = trim s) as ->; [|by apply trim_keeps_sentinel].
    destruct (is_bare_id (trim s)) eqn:Hb.
    + by apply extract_bare_trimmed.
    + rewrite (extract_not_bare (JStr s) Hv Hb). simpl.
      destruct (regex_match (trim s)) as [g|] eqn:E; [|done].
      apply regex_match_Some in E as (i & Hf & _). by destruct (Hno i g).
Qed.

Lemma ytSrc_sentinel_witness :
  ytSrc (JStr (lit "https://youtu.be/YOUR_VIDEO_ID")) None = []
  ∧ ytSrc (JStr (lit "YOUR_YOUTUBE_ID")) None = [].
Proof.
  split.
  - apply (proj1 (ytSrc_sentinel None)).
    apply startsWith_prefix. reflexivity.
  - apply (proj2 (ytSrc_sentinel None)).
    + apply startsWith_prefix. reflexivity.
    + apply regex_match_None. reflexivity.
Defined.

(** C4 as stated fails: an input that starts with [YOUR_] and goes on
    with a marker and an identifier is embedded. *)
Lemma ytSrc_sentinel_counterexample :
  let raw := lit "YOUR_v=RAbnwLxwPNY" in
  lit "YOUR_" `prefix_of` raw
  ∧ extractYTId (JStr raw) = lit "RAbnwLxwPNY"
  ∧ ytSrc (JStr raw) None =
      lit "https://www.youtube-nocookie.com/embed/RAbnwLxwPNY?autoplay=1&mute=1&controls=0&rel=0&modestbranding=1&playsinline=1&iv_load_policy=3&loop=1&playlist=RAbnwLxwPNY"
  ∧ ytSrc (JStr raw) None ≠ [].
Proof.
  split; [apply startsWith_prefix; reflexivity|].
  split; [reflexivity|]. split; [reflexivity|]. vm_compute. discriminate.
Qed.

(** C10, amended.  [ytSrc] neither validates nor clamps the autoplay
    option.  For an identifier that passes the guard and a representable
    value [a] of the option, the URL is the base, the identifier, [?],
    [autoplay=] with the form-urlencoded [String(a)], and the eight
    other parameters.  When the identifier holds neither [?] nor [#],
    as every canonical identifier does, the query of the URL starts with
    a parameter named [autoplay] and has no other of that name; its
    value is the form-urlencoded [String(a)], which reads back as the
    UTF-8 bytes of [String(a)] and is [String(a)] itself when that is
    made of unreserved characters, as for every safe integer;
    [{autoplay: 2}] gives [autoplay=2]. *)
Theorem ytSrc_autoplay_unchecked :
  (∀ (raw : jsval) (o : jsobject) (a : jsval),
     extractYTId raw ≠ [] →
     ¬ lit "YOUR_" `prefix_of` extractYTId raw →
     o !! "autoplay"%string = Some a →
     representable a →
     ytSrc raw (Some o) =
       lit "https://www.youtube-nocookie.com/embed/" ++ extractYTId raw
         ++ lit "?autoplay=" ++ urlencode (to_string a)
         ++ fixed_params ++ urlencode (extractYTId raw)
     ∧ (63 ∉ extractYTId raw →
        35 ∉ extractYTId raw →
        ∃ v,
          url_params (ytSrc raw (Some o)) !! 0%nat = Some (lit "autoplay", v)
          ∧ (∀ v', (lit "autoplay", v') ∈ url_params (ytSrc raw (Some o)) → v' = v)
          ∧ v = urlencode (to_string a)
          ∧ form_decode v = utf8_encode (to_string a)
          ∧ (Forall (λ c, c ∈ unreserved) (to_string a) → v = to_string a)
          ∧ (∀ z, a = JNum z → v = to_string a)))
  ∧ (∀ s, canonical s → (63 ∉ s) ∧ (35 ∉ s))
  ∧ url_params (ytSrc (JStr (lit "RAbnwLxwPNY"))
                  (Some {[ "autoplay"%string := JNum 2 ]}))
    = embed_params (lit "2") (lit "RAbnwLxwPNY").
Proof.
  split; [|split; [apply canonical_no_delimiter | reflexivity]].
  intros raw o a Hne Hpre Ho Ha. split.
  { by rewrite (ytSrc_shape raw (Some o) Hne Hpre), (autoplay_option o _ Ho). }
  intros Hq Hf.
  exists (urlencode (to_string a)).
  rewrite (ytSrc_params raw (Some o) Hne Hpre Hq Hf), (autoplay_option o _ Ho).
  split; [reflexivity|]. split; [|split; [reflexivity|split; [|split]]].
  - generalize (urlencode (to_string a)) (urlencode (extractYTId raw)).
    intros A I v' Hv. unfold embed_params in Hv.
    apply elem_of_cons in Hv as [Hv|Hv]; [congruence|].
    repeat (apply elem_of_cons in Hv as [Hv|Hv];
            [apply (f_equal fst) in Hv; vm_compute in Hv; discriminate|]).
    by apply elem_of_nil in Hv.
  - by apply form_decode_urlencode, representable_code_units.
  - apply urlencode_unreserved.
  - intros z ->. apply urlencode_unreserved, number_unreserved.
Qed.

Lemma ytSrc_autoplay_unchecked_witness :
  let raw := JStr (lit "RAbnwLxwPNY") in
  let a := JStr (lit "yes!") in
  let o : jsobject := {[ "autoplay"%string := a ]} in
  ytSrc raw (Some o) =
    lit "https://www.youtube-nocookie.com/embed/" ++ extractYTId raw
      ++ lit "?autoplay=" ++ urlencode (to_string a)
      ++ fixed_params ++ urlencode (extractYTId raw)
  ∧ ∃ v,
      url_params (ytSrc raw (Some o)) !! 0%nat = Some (lit "autoplay", v)
      ∧ (∀ v', (lit "autoplay", v') ∈ url_params (ytSrc raw (Some o)) → v' = v)
      ∧ v = urlencode (to_string a)
      ∧ form_decode v = utf8_encode (to_string a)
      ∧ (Forall (λ c, c ∈ unreserved) (to_string a) → v = to_string a)
      ∧ (∀ z, a = JNum z → v = to_string a).
Proof.
  intros raw a o.
  assert (Hne : extractYTId raw ≠ []) by (vm_compute; discriminate).
  assert (Hpre : ¬ lit "YOUR_" `prefix_of` extractYTId raw).
  { intros H%startsWith_prefix. vm_compute in H. discriminate. }
  assert (Ha : representable a) by (vm_compute; repeat constructor).
  destruct (proj1 ytSrc_autoplay_unchecked raw o a Hne Hpre eq_refl Ha) as [H1 H2].
  split; [exact H1|].
  apply H2; apply absent_decide; reflexivity.
Defined.

(** C10 as stated fails for an input that is not a link to a video and
    holds [#]: the extracted identifier is the input, it passes the
    guard, and what follows it in the URL is a fragment; the URL has no
    query, hence no [autoplay] parameter. *)
Lemma ytSrc_autoplay_counterexample :
  let raw := JStr (lit "a#b") in
  let o : jsobject := {[ "autoplay"%string := JNum 2 ]} in
  extractYTId raw = lit "a#b"
  ∧ ¬ lit "YOUR_" `prefix_of` extractYTId raw
  ∧ ytSrc raw (Some o) =
      lit "https://www.youtube-nocookie.com/embed/a#b?autoplay=2&mute=1&controls=0&rel=0&modestbranding=1&playsinline=1&iv_load_policy=3&loop=1&playlist=a%23b"
  ∧ url_query (ytSrc raw (Some o)) = None
  ∧ ∀ v, (lit "autoplay", v) ∉ url_params (ytSrc raw (Some o)).
Proof.
  split; [reflexivity|]. split.
  { intros H%startsWith_prefix. vm_compute in H. discriminate. }
  split; [reflexivity|]. split; [reflexivity|].
  intros v H.
  assert (Hnone : url_params
            (ytSrc (JStr (lit "a#b")) (Some {[ "autoplay"%string := JNum 2 ]})) = [])
    by reflexivity.
  rewrite Hnone in H. by apply elem_of_nil in H.
Qed.

End EmbedUrlClaims.

(** ** Trees *)

Section Tree.

Context (sel : element → bool).

Lemma first_under_None i rs :
  first_under i rs = None ↔ Forall (λ r, r = None) rs.
Proof.
  revert i. induction rs as [|[p|] rs IH]; intros i; csimpl.
  - split; [constructor | done].
  - split; [done | by inversion 1].
  - rewrite IH. split; [by constructor | by inversion 1].
Qed.

Lemma first_under_app i (pre : list (option path)) q post :
  Forall (λ r, r = None) pre →
  first_under i (pre ++ Some q :: post) = Some ((i + length pre)%nat :: q).
Proof.
  intros H. revert i. induction H as [|r pre -> _ IH]; intros i; csimpl.
  - by rewrite Nat.add_0_r.
  - rewrite IH. do 2 f_equal. lia.
Qed.

Lemma first_under_Some i rs p :
  first_under i rs = Some p →
  ∃ pre q post, rs = pre ++ Some q :: post
                ∧ Forall (λ r, r = None) pre
                ∧ p = (i + length pre)%nat :: q.
Proof.
  revert i. induction rs as [|[q|] rs IH]; intros i; csimpl; [done|..].
  - intros [= <-]. exists [], q, rs. csimpl.
    by rewrite Nat.add_0_r.
  - intros H. destruct (IH _ H) as (pre & q & post & -> & Hpre & ->).
    exists (None :: pre), q, post. csimpl.
    split; [done|]. split; [by constructor|]. do 2 f_equal. lia.
Qed.

Lemma first_match_None n : first_match sel n = None ↔ count_matches sel n = 0%nat.
Proof.
  induction n as [d|e cs IH] using node_tree_ind; csimpl; [done|].
  destruct (sel e); [done|].
  rewrite first_under_None. csimpl.
  induction IH as [|c cs Hc _ IHcs]; csimpl.
  - split; [done | constructor].
  - split.
    + inversion 1 as [|? ? Hc' Hcs']; subst.
      apply Hc in Hc'. apply IHcs in Hcs'. lia.
    + intros H. constructor; [apply Hc; lia | apply IHcs; lia].
Qed.

Lemma forest_None (cs : list node) :
  Forall (λ r, r = None) (first_match sel <$> cs)
  ↔ sum_list (count_matches sel <$> cs) = 0%nat.
Proof.
  induction cs as [|c cs IH]; csimpl.
  - split; [done | constructor].
  - split.
    + inversion 1 as [|? ? Hc Hcs]; subst.
      apply first_match_None in Hc. apply IH in Hcs. lia.
    + intros H. constructor; [apply first_match_None; lia | apply IH; lia].
Qed.

Lemma querySelector_None n :
  querySelector sel n = None ↔ count_inside sel n = 0%nat.
Proof.
  unfold querySelector, count_inside.
  by rewrite first_under_None, forest_None.
Qed.

(** Where [querySelector] finds its element: under which child, and
    that nothing before that child matches. *)
Lemma querySelector_Some n p :
  querySelector sel n = Some p →
  ∃ pre c post q,
    children n = pre ++ c :: post
    ∧ sum_list (count_matches sel <$> pre) = 0%nat
    ∧ first_match sel c = Some q
    ∧ p = length pre :: q.
Proof.
  unfold querySelector. intros H.
  apply first_under_Some in H as (rpre & q & rpost & Hrs & Hpre & ->).
  apply fmap_app_inv in Hrs as (pre & rest & -> & Hrest & Hcs).
  symmetry in Hrest.
  apply fmap_cons_inv in Hrest as (c & post & Hc & -> & ->).
  exists pre, c, post, q.
  split; [done|]. split; [by apply forest_None|].
  split; [done|]. by rewrite length_fmap.
Qed.

Lemma querySelector_app pre c post q e :
  sum_list (count_matches sel <$> pre) = 0%nat →
  first_match sel c = Some q →
  querySelector sel (Elem e (pre ++ c :: post)) = Some (length pre :: q).
Proof.
  intros Hpre Hc. unfold querySelector. csimpl.
  rewrite fmap_app, fmap_cons, Hc.
  rewrite first_under_app by by apply forest_None.
  by rewrite length_fmap.
Qed.

Lemma node_at_update p f n :
  node_at (update_at p f n) p = f <$> node_at n p.
Proof.
  revert n. induction p as [|i p IH]; intros n; csimpl; [done|].
  destruct n as [d|e cs]; csimpl; [done|].
  rewrite list_lookup_alter_eq.
  destruct (cs !! i) as [c|]; csimpl; [apply IH | done].
Qed.

Lemma node_at_app n p q :
  node_at n (p ++ q) = node_at n p ≫= λ m, node_at m q.
Proof.
  revert n. induction p as [|i p IH]; intros n; csimpl; [done|].
  destruct (children n !! i) as [c|]; csimpl; [apply IH | done].
Qed.

Lemma first_match_at n p :
  first_match sel n = Some p →
  ∃ e cs, node_at n p = Some (Elem e cs) ∧ sel e = true.
Proof.
  revert p. induction n as [d|e cs IH] using node_tree_ind; intros p; csimpl; [done|].
  destruct (sel e) eqn:He.
  - intros [= <-]. by exists e, cs.
  - intros H. apply first_under_Some in H as (rpre & q & rpost & Hrs & _ & ->).
    apply fmap_app_inv in Hrs as (pre & rest & -> & Hrest & ->).
    symmetry in Hrest.
    apply fmap_cons_inv in Hrest as (c & post & Hc & -> & ->).
    rewrite Forall_app, Forall_cons in IH. destruct IH as (_ & IHc & _).
    destruct (IHc q) as (e' & cs' & Hat & Hsel); [done|].
    exists e', cs'. split; [|done].
    csimpl. rewrite length_fmap.
    by rewrite list_lookup_middle by done.
Qed.

Lemma querySelector_at n p :
  querySelector sel n = Some p →
  ∃ e cs, node_at n p = Some (Elem e cs) ∧ sel e = true.
Proof.
  intros H. apply querySelector_Some in H as (pre & c & post & q & Hcs & _ & Hc & ->).
  apply first_match_at in Hc as (e & cs & Hat & Hsel).
  exists e, cs. split; [|done].
  csimpl. rewrite Hcs. by rewrite list_lookup_middle by done.
Qed.

(** Counting is blind to a mutation that keeps the count of the node it
    is applied to. *)
Lemma count_update p f n :
  (∀ m, count_matches sel (f m) = count_matches sel m) →
  count_matches sel (update_at p f n) = count_matches sel n.
Proof.
  intros Hf. revert n. induction p as [|i p IH]; intros n; csimpl; [apply Hf|].
  destruct n as [d|e cs]; csimpl; [done|]. f_equal.
  revert i. induction cs as [|c cs IHcs]; intros i; [done|].
  destruct i as [|i]; csimpl; [by rewrite IH|]. by rewrite IHcs.
Qed.

End Tree.

(** ** The player host *)

Section PlayerHost.

Lemma count_set_attribute k v m :
  count_matches sel_iframe (set_attribute k v m) = count_matches sel_iframe m.
Proof. by destruct m. Qed.

Lemma first_match_set_attribute k v m :
  first_match sel_iframe (set_attribute k v m) = first_match sel_iframe m.
Proof. by destruct m. Qed.

Lemma count_inside_update sel p f n :
  (∀ m, count_matches sel (f m) = count_matches sel m) →
  p ≠ [] →
  count_inside sel (update_at p f n) = count_inside sel n.
Proof.
  intros Hf Hp. pose proof (count_update sel p f n Hf) as H.
  destruct p as [|i p]; [done|]. destruct n as [d|e cs]; [done|].
  simpl in H. unfold count_inside. simpl. lia.
Qed.

Lemma first_match_update sel p f n :
  (∀ m, first_match sel (f m) = first_match sel m) →
  first_match sel (update_at p f n) = first_match sel n.
Proof.
  intros Hf. revert n. induction p as [|i p IH]; intros n; csimpl; [apply Hf|].
  destruct n as [d|e cs]; csimpl; [done|].
  destruct (sel e); [done|]. f_equal.
  revert i. induction cs as [|c cs IHcs]; intros i; [done|].
  destruct i as [|i]; csimpl; [by rewrite IH|]. by rewrite IHcs.
Qed.

Lemma querySelector_update sel p f n :
  (∀ m, first_match sel (f m) = first_match sel m) →
  p ≠ [] →
  querySelector sel (update_at p f n) = querySelector sel n.
Proof.
  intros Hf Hp. pose proof (first_match_update sel p f n Hf) as H.
  destruct p as [|i p]; [done|]. destruct n as [d|e cs]; [done|].
  unfold querySelector. csimpl. f_equal.
  clear H Hp. revert i. induction cs as [|c cs IHcs]; intros i; [done|].
  destruct i as [|i]; csimpl; [by rewrite first_match_update|]. by rewrite IHcs.
Qed.

Lemma update_at_twice p f n :
  (∀ m, f (f m) = f m) → update_at p f (update_at p f n) = update_at p f n.
Proof.
  intros Hf. revert n. induction p as [|i p IH]; intros n; csimpl; [apply Hf|].
  destruct n as [d|e cs]; csimpl; [done|]. f_equal.
  revert i. induction cs as [|c cs IHcs]; intros i; [done|].
  destruct i as [|i]; csimpl; [by rewrite IH|]. by rewrite IHcs.
Qed.

Lemma set_attribute_twice k v m :
  set_attribute k v (set_attribute k v m) = set_attribute k v m.
Proof. destruct m as [d|e cs]; simpl; [done|]. by rewrite insert_insert_eq. Qed.

Lemma update_last f (cs : list node) c e :
  update_at [length cs] f (Elem e (cs ++ [c])) = Elem e (cs ++ [f c]).
Proof.
  simpl. f_equal. induction cs as [|c' cs IH]; csimpl; [done|]. by rewrite IH.
Qed.

Lemma inject_skip h raw options :
  embeds raw options = false →
  injectIframe (Some h) raw options = Injected (Some h) None [].
Proof.
  unfold embeds, injectIframe.
  destruct (to_boolean raw); [|done]. rewrite andb_true_l.
  by intros ->.
Qed.

Lemma inject_reuse h raw options p :
  embeds raw options = true →
  querySelector sel_iframe h = Some p →
  injectIframe (Some h) raw options =
    Injected (Some (update_at p (set_attribute "src" (ytSrc raw options)) h))
             (Some p) [ytSrc raw options].
Proof.
  unfold embeds, injectIframe. intros [-> H]%andb_true_iff Hq.
  cbn [negb]. rewrite H. cbn [negb]. by rewrite Hq.
Qed.

Lemma inject_fresh e cs raw options :
  embeds raw options = true →
  count_inside sel_iframe (Elem e cs) = 0%nat →
  injectIframe (Some (Elem e cs)) raw options =
    Injected (Some (Elem e (cs ++ [player (ytSrc raw options)])))
             (Some [length cs]) [ytSrc raw options].
Proof.
  unfold embeds, injectIframe. intros [-> H]%andb_true_iff Hq.
  apply querySelector_None in Hq.
  cbn [negb]. rewrite H. cbn [negb]. rewrite Hq.
  cbn [appendChild children]. by rewrite update_last.
Qed.

Lemma querySelector_player e cs src :
  count_inside sel_iframe (Elem e cs) = 0%nat →
  querySelector sel_iframe (Elem e (cs ++ [player src])) = Some [length cs].
Proof. intros H. by apply querySelector_app. Qed.

Lemma count_inside_player e cs src :
  count_inside sel_iframe (Elem e cs) = 0%nat →
  count_inside sel_iframe (Elem e (cs ++ [player src])) = 1%nat.
Proof.
  unfold count_inside. cbn [children]. intros H.
  rewrite fmap_app, sum_list_with_app. fold (sum_list (count_matches sel_iframe <$> cs)).
  rewrite H. reflexivity.
Qed.

Lemma querySelector_nonempty sel n p : querySelector sel n = Some p → p ≠ [].
Proof.
  intros H. by apply querySelector_Some in H as (? & ? & ? & ? & _ & _ & _ & ->).
Qed.

(** One call never adds a player to a host that has one. *)
Lemma inject_players h raw options :
  (players (host_after (injectIframe h raw options)) ≤ max 1 (players h))%nat.
Proof.
  destruct h as [h|]; [|simpl; lia].
  destruct (embeds raw options) eqn:He; [|rewrite inject_skip by done; simpl; lia].
  destruct (querySelector sel_iframe h) as [p|] eqn:Hq.
  - rewrite (inject_reuse h raw options p He Hq). simpl.
    rewrite count_inside_update;
      [lia | apply count_set_attribute | by eapply querySelector_nonempty].
  - apply querySelector_None in Hq. destruct h as [d|e cs].
    + unfold embeds in He. apply andb_true_iff in He as [Hr Hs].
      unfold injectIframe. rewrite Hr, Hs. simpl. lia.
    + rewrite inject_fresh by done. simpl.
      rewrite count_inside_player by done. lia.
Qed.

End PlayerHost.

Section Inject.

(** What an effective call leaves: the reference it returns points to
    an iframe of the host whose [src] is the URL just built. *)
Lemma inject_result e cs raw options :
  embeds raw options = true →
  ∃ host' p ie ics,
    injectIframe (Some (Elem e cs)) raw options =
      Injected (Some host') (Some p) [ytSrc raw options]
    ∧ node_at host' p = Some (Elem ie ics)
    ∧ sel_iframe ie = true
    ∧ attributes ie !! "src"%string = Some (ytSrc raw options)
    ∧ players (Some host') = max 1 (players (Some (Elem e cs)))
    ∧ querySelector sel_iframe host' = Some p
    ∧ (∀ q, querySelector sel_iframe (Elem e cs) = Some q →
         p = q
         ∧ host' = update_at q (set_attribute "src" (ytSrc raw options)) (Elem e cs)).
Proof.
  intros He. destruct (querySelector sel_iframe (Elem e cs)) as [q|] eqn:Hq.
  - destruct (querySelector_at _ _ _ Hq) as (ie & ics & Hat & Hsel).
    pose proof (querySelector_nonempty _ _ _ Hq) as Hne.
    eexists _, q, _, ics. split; [by apply inject_reuse|].
    split; [rewrite node_at_update, Hat; reflexivity|].
    split; [exact Hsel|]. split; [apply lookup_insert_eq|].
    split; [|split].
    + simpl. rewrite count_inside_update;
        [| apply count_set_attribute | done].
      destruct (count_inside sel_iframe (Elem e cs)) eqn:Hc; [|lia].
      apply querySelector_None in Hc. congruence.
    + rewrite querySelector_update;
        [done | apply first_match_set_attribute | done].
    + by intros ? [= <-].
  - pose proof Hq as Hc. apply querySelector_None in Hc.
    eexists _, [length cs], _, []. split; [by apply inject_fresh|].
    split; [csimpl; rewrite list_lookup_middle by done; reflexivity|].
    split; [reflexivity|]. split; [apply lookup_insert_eq|].
    split; [|split].
    + simpl. rewrite count_inside_player by done. simpl in Hc. by rewrite Hc.
    + by apply querySelector_player.
    + done.
Qed.

(** C6, amended.  A host that holds at most one iframe never holds more
    than one, whatever calls of [injectIframe] are made on it, and no
    sequence of calls takes any host beyond one iframe or the number it
    had; an effective call reuses the iframe [querySelector] finds and
    assigns the built URL to its [src] in every case; two calls in
    succession with the same reference on a host that holds at most one
    iframe leave one player, the host as the first call left it, and
    the URL is assigned again. *)
Theorem inject_single_player :
  (∀ host calls, (players host ≤ 1)%nat → (players (inject_all host calls) ≤ 1)%nat)
  ∧ (∀ host calls, (players (inject_all host calls) ≤ max 1 (players host))%nat)
  ∧ (∀ e cs raw options,
       embeds raw options = true →
       ∃ host' p ie ics,
         injectIframe (Some (Elem e cs)) raw options =
           Injected (Some host') (Some p) [ytSrc raw options]
         ∧ node_at host' p = Some (Elem ie ics)
         ∧ sel_iframe ie = true
         ∧ attributes ie !! "src"%string = Some (ytSrc raw options)
         ∧ players (Some host') = max 1 (players (Some (Elem e cs)))
         ∧ (∀ q, querySelector sel_iframe (Elem e cs) = Some q →
              p = q
              ∧ host' = update_at q (set_attribute "src" (ytSrc raw options))
                          (Elem e cs)))
  ∧ (∀ e cs raw options,
       embeds raw options = true →
       (players (Some (Elem e cs)) ≤ 1)%nat →
       let first := injectIframe (Some (Elem e cs)) raw options in
       let second := injectIframe (host_after first) raw options in
       players (host_after second) = 1%nat
       ∧ host_after second = host_after first
       ∧ returned second = returned first
       ∧ src_writes second = [ytSrc raw options]
       ∧ ∃ host'' p ie ics,
           host_after second = Some host'' ∧ returned second = Some p
           ∧ node_at host'' p = Some (Elem ie ics)
           ∧ sel_iframe ie = true
           ∧ attributes ie !! "src"%string = Some (ytSrc raw options)).
Proof.
  assert (Hbound : ∀ host calls,
            (players (inject_all host calls) ≤ max 1 (players host))%nat).
  { intros host calls. revert host.
    induction calls as [|[raw options] calls IH]; intros host; [simpl; lia|].
    simpl. etrans; [apply IH|].
    pose proof (inject_players host raw options). lia. }
  split; [|split; [exact Hbound|split]].
  - intros host calls Hh. pose proof (Hbound host calls). lia.
  - intros e cs raw options He.
    destruct (inject_result e cs raw options He)
      as (host' & p & ie & ics & H1 & H2 & H3 & H4 & H5 & _ & H7).
    by exists host', p, ie, ics.
  - intros e cs raw options He Hle first second.
    destruct (inject_result e cs raw options He)
      as (host' & p & ie & ics & H1 & H2 & H3 & H4 & H5 & H6 & H7).
    subst second first. rewrite H1. cbn [host_after returned].
    rewrite (inject_reuse host' raw options p He H6). cbn.
    pose proof (querySelector_nonempty _ _ _ H6) as Hne.
    assert (Hsame : update_at p (set_attribute "src" (ytSrc raw options)) host' = host').
    { destruct (querySelector sel_iframe (Elem e cs)) as [q|] eqn:Hq.
      - destruct (H7 q eq_refl) as [-> ->].
        apply update_at_twice, set_attribute_twice.
      - apply querySelector_None in Hq.
        rewrite (inject_fresh e cs raw options He Hq) in H1.
        injection H1 as <- <-.
        rewrite update_last. unfold player. by rewrite set_attribute_twice. }
    rewrite Hsame.
    split; [simpl in H5; simpl in Hle; lia|].
    split; [done|]. split; [done|]. split; [done|].
    by exists host', p, ie, ics.
Qed.

Lemma inject_single_player_witness :
  let host := Elem (Element "div" ["ytEmbed"%string] ∅) [] in
  let raw := JStr (lit "RAbnwLxwPNY") in
  let first := injectIframe (Some host) raw None in
  let second := injectIframe (host_after first) raw None in
  (players (inject_all (Some host) [(raw, None); (raw, None); (JNull, None)]) ≤ 1)%nat
  ∧ players (host_after second) = 1%nat
  ∧ host_after second = host_after first.
Proof.
  intros host raw first second. split.
  - apply (proj1 inject_single_player). vm_compute. lia.
  - assert (Hle : (players (Some host) ≤ 1)%nat) by (vm_compute; lia).
    destruct (proj2 (proj2 (proj2 inject_single_player))
                (Element "div" ["ytEmbed"%string] ∅) [] raw None eq_refl Hle)
      as (H1 & H2 & _).
    split; [exact H1 | exact H2].
Defined.

(** C6 as stated, for every host: a host whose markup holds two iframes
    still holds two after an effective call, and after a second one;
    [injectIframe] re-points the first and removes none. *)
Lemma inject_surplus_counterexample :
  let frame := Elem (Element "iframe" [] ∅) [] in
  let host := Elem (Element "div" ["ytEmbed"%string] ∅) [frame; frame] in
  let raw := JStr (lit "RAbnwLxwPNY") in
  embeds raw None = true
  ∧ players (host_after (injectIframe (Some host) raw None)) = 2%nat
  ∧ players (inject_all (Some host) [(raw, None); (raw, None)]) = 2%nat
  ∧ ¬ (players (inject_all (Some host) [(raw, None)]) ≤ 1)%nat.
Proof.
  intros frame host raw.
  split; [reflexivity|]. split; [reflexivity|]. split; [reflexivity|].
  assert (H : players (inject_all (Some host) [(raw, None)]) = 2%nat) by reflexivity.
  rewrite H. lia.
Qed.

End Inject.

Section Clear.

Context (sel : element → bool).

Lemma remove_at_Elem p e cs :
  remove_at p (Elem e cs) = Elem e (children (remove_at p (Elem e cs))).
Proof. by destruct p as [|i [|j p]]. Qed.

Lemma remove_at_child i e cs :
  remove_at [i] (Elem e cs) = Elem e (delete i cs).
Proof. reflexivity. Qed.

Lemma remove_at_below i j q e cs :
  remove_at (i :: j :: q) (Elem e cs) = Elem e (alter (remove_at (j :: q)) i cs).
Proof. reflexivity. Qed.

Lemma alter_middle (f : node → node) pre c post :
  alter f (length pre) (pre ++ c :: post) = pre ++ f c :: post.
Proof.
  rewrite <- (Nat.add_0_r (length pre)) at 1. by rewrite alter_app_r.
Qed.

(** Removing the element [querySelector] finds is removing the first
    match and nothing else. *)
Lemma remove_found n p :
  querySelector sel n = Some p →
  removes_first sel (children n) (children (remove_at p n)).
Proof.
  revert p. induction n as [d|e cs IH] using node_tree_ind; intros p Hq; [done|].
  apply querySelector_Some in Hq as (pre & c & post & q & Hcs & Hpre & Hc & ->).
  simpl in Hcs. subst cs.
  rewrite Forall_app, Forall_cons in IH. destruct IH as (_ & IHc & _).
  destruct c as [d|ec ccs]; [done|].
  simpl in Hc. destruct (sel ec) eqn:Hec.
  - injection Hc as <-. rewrite remove_at_child. cbn [children].
    rewrite delete_middle. by constructor.
  - assert (Hqc : querySelector sel (Elem ec ccs) = Some q) by exact Hc.
    pose proof (querySelector_nonempty _ _ _ Hqc) as Hne.
    destruct q as [|j q]; [done|].
    rewrite remove_at_below. cbn [children]. rewrite alter_middle.
    rewrite (remove_at_Elem (j :: q) ec ccs).
    apply removes_below; [done | done |]. by apply (IHc (j :: q)).
Qed.

End Clear.

Section ClearClaims.

(** C7. [clearIframe] takes out the iframe [querySelector] finds in the
    host and changes nothing else: nothing happens when the host is
    absent or holds no iframe; otherwise the host keeps its own tag,
    classes and attributes and its children are the former ones less
    the first iframe in document order; when that iframe is a child of
    the host, the siblings before and after it are what is left. *)
Theorem clear_removes_only_player :
  clearIframe None = None
  ∧ (∀ host, players (Some host) = 0%nat → clearIframe (Some host) = Some host)
  ∧ (∀ e cs, players (Some (Elem e cs)) ≠ 0%nat →
       ∃ cs', clearIframe (Some (Elem e cs)) = Some (Elem e cs')
              ∧ removes_first sel_iframe cs cs')
  ∧ (∀ e pre ie ics post,
       sel_iframe ie = true →
       players (Some (Elem e pre)) = 0%nat →
       clearIframe (Some (Elem e (pre ++ Elem ie ics :: post)))
       = Some (Elem e (pre ++ post))).
Proof.
  split; [done|]. split; [|split].
  - intros host Hc. apply querySelector_None in Hc.
    unfold clearIframe. by rewrite Hc.
  - intros e cs Hc. unfold clearIframe.
    destruct (querySelector sel_iframe (Elem e cs)) as [p|] eqn:Hq.
    + exists (children (remove_at p (Elem e cs))).
      split; [by rewrite <- remove_at_Elem|].
      by apply (remove_found sel_iframe (Elem e cs) p).
    + by apply querySelector_None in Hq.
  - intros e pre ie ics post Hie Hpre. unfold clearIframe.
    rewrite (querySelector_app sel_iframe pre (Elem ie ics) post [] e);
      [| exact Hpre | by simpl; rewrite Hie].
    rewrite remove_at_child. by rewrite delete_middle.
Qed.

Lemma clear_removes_only_player_witness :
  let poster := Elem (Element "img" ["poster"%string] ∅) [] in
  let caption := Text (lit "clip") in
  let host := Element "div" ["ytEmbed"%string] ∅ in
  clearIframe (Some (Elem host [poster; caption])) = Some (Elem host [poster; caption])
  ∧ clearIframe (Some (Elem host [poster; player (lit "u"); caption]))
    = Some (Elem host [poster; caption]).
Proof.
  intros poster caption host. split.
  - apply (proj1 (proj2 clear_removes_only_player)). reflexivity.
  - apply (proj2 (proj2 (proj2 clear_removes_only_player)) host [poster]
             (Element "iframe" [] _) [] [caption]); reflexivity.
Defined.

End ClearClaims.

(** ** Hover previews *)

Section Card.

Lemma node_at_children n n' i p :
  children n = children n' → node_at n (i :: p) = node_at n' (i :: p).
Proof. simpl. by intros ->. Qed.

Lemma children_classList_add c n : children (classList_add c n) = children n.
Proof. destruct n as [d|e cs]; simpl; [done|]. by destruct (has_class c e). Qed.

Lemma children_classList_remove c n : children (classList_remove c n) = children n.
Proof. by destruct n. Qed.

(** What [wire] found when it wires a card. *)
Lemma wire_Some card w :
  wire card = Some w →
  ∃ he hcs,
    querySelector sel_ytEmbed_data_yt card = Some (host_ref w)
    ∧ node_at card (host_ref w) = Some (Elem he hcs)
    ∧ hasAttribute he "data-autoplay" = false
    ∧ attributes he !! "data-yt"%string = Some (raw_value w)
    ∧ raw_value w ≠ []
    ∧ ¬ lit "YOUR_" `prefix_of` raw_value w.
Proof.
  unfold wire.
  destruct (querySelector sel_ytEmbed_data_yt card) as [hp|] eqn:Hq; [|done].
  destruct (node_at card hp) as [[d|he hcs]|] eqn:Hat; [done| |done].
  destruct (hasAttribute he "data-autoplay") eqn:Hauto; [done|].
  unfold getAttribute.
  destruct (attributes he !! "data-yt"%string) as [raw|] eqn:Hraw; [|done].
  destruct (negb (to_boolean (JStr raw)) || startsWith (lit "YOUR_") raw) eqn:Hg;
    [done|].
  intros [= <-]. apply orb_false_iff in Hg as [Hne Hpre].
  exists he, hcs. simpl. repeat (split; [done|]). split.
  - intros ->. done.
  - intros H%startsWith_prefix. congruence.
Qed.


Lemma node_at_play w card :
  host_ref w ≠ [] →
  node_at (play w card) (host_ref w) =
    on_host (λ h, host_after (injectIframe h (JStr (raw_value w)) autoplay_on))
      <$> node_at card (host_ref w).
Proof.
  intros Hne. unfold play. rewrite node_at_update.
  destruct (host_ref w) as [|i p]; [done|].
  by rewrite (node_at_children _ card i p (children_classList_add _ _)).
Qed.

Lemma node_at_stop w card :
  host_ref w ≠ [] →
  node_at (stop w card) (host_ref w) = on_host clearIframe <$> node_at card (host_ref w).
Proof.
  intros Hne. unfold stop. rewrite node_at_update.
  destruct (host_ref w) as [|i p]; [done|].
  by rewrite (node_at_children _ card i p (children_classList_remove _ _)).
Qed.

(** The two states of a host without an iframe of its own in the
    markup: idle, and playing with the created player as last child. *)
Context (he : element) (hcs : list node) (raw : jsstring).
Hypothesis idle : count_inside sel_iframe (Elem he hcs) = 0%nat.
Hypothesis built : ytSrc (JStr raw) autoplay_on ≠ [].

Let src := ytSrc (JStr raw) autoplay_on.
Let inject := on_host (λ h, host_after (injectIframe h (JStr raw) autoplay_on)).

Lemma raw_embeds : embeds (JStr raw) autoplay_on = true.
Proof.
  unfold embeds. apply andb_true_iff. split.
  - destruct raw; [|done]. exfalso. by apply built.
  - simpl. by rewrite bool_decide_eq_false_2.
Qed.

Lemma enter_idle : inject (Elem he hcs) = Elem he (hcs ++ [player src]).
Proof.
  unfold inject, on_host. by rewrite (inject_fresh _ _ _ _ raw_embeds idle).
Qed.

Lemma enter_playing :
  inject (Elem he (hcs ++ [player src])) = Elem he (hcs ++ [player src]).
Proof.
  unfold inject, on_host.
  rewrite (inject_reuse _ _ _ _ raw_embeds (querySelector_player he hcs src idle)).
  cbn [host_after default]. rewrite update_last.
  unfold player. by rewrite set_attribute_twice.
Qed.

Lemma leave_idle : on_host clearIframe (Elem he hcs) = Elem he hcs.
Proof.
  unfold on_host, clearIframe.
  by rewrite (proj2 (querySelector_None _ _) idle).
Qed.

Lemma leave_playing :
  on_host clearIframe (Elem he (hcs ++ [player src])) = Elem he hcs.
Proof.
  unfold on_host, clearIframe.
  rewrite (querySelector_player he hcs src idle).
  cbn [default]. rewrite remove_at_child.
  rewrite <- (app_nil_r (hcs ++ [player src])), <- app_assoc.
  cbn [app]. by rewrite delete_middle, app_nil_r.
Qed.

End Card.

Section Cycle.

Context (w : wiring) (he : element) (hcs : list node).
Hypothesis idle : count_inside sel_iframe (Elem he hcs) = 0%nat.
Hypothesis built : ytSrc (JStr (raw_value w)) autoplay_on ≠ [].
Hypothesis inside : host_ref w ≠ [].

Let playing := Elem he (hcs ++ [player (ytSrc (JStr (raw_value w)) autoplay_on)]).

(** The host after an event, from either state. *)
Lemma hover_step card ev :
  node_at card (host_ref w) = Some (Elem he hcs)
  ∨ node_at card (host_ref w) = Some playing →
  node_at (hover_event w ev card) (host_ref w) =
    Some (match ev with pointerenter => playing | pointerleave => Elem he hcs end).
Proof.
  intros Hs. destruct ev; simpl.
  - rewrite node_at_play by done.
    destruct Hs as [-> | ->]; simpl; f_equal.
    + by apply enter_idle.
    + by apply enter_playing.
  - rewrite node_at_stop by done.
    destruct Hs as [-> | ->]; simpl; f_equal.
    + by apply leave_idle.
    + by apply leave_playing.
Qed.

Lemma hover_state card evs :
  node_at card (host_ref w) = Some (Elem he hcs) →
  let card' := foldl (λ c ev, hover_event w ev c) card evs in
  node_at card' (host_ref w) = Some (Elem he hcs)
  ∨ node_at card' (host_ref w) = Some playing.
Proof.
  intros H0. induction evs as [|ev evs IH] using rev_ind; simpl; [by left|].
  rewrite foldl_app. simpl.
  rewrite (hover_step _ ev IH). destruct ev; [by right | by left].
Qed.

Lemma players_playing : count_inside sel_iframe playing = 1%nat.
Proof. by apply count_inside_player. Qed.

End Cycle.

(** ** Listeners of the document *)

Section Listeners.

Lemma all_under_head i rs p :
  p ∈ all_under i rs → ∃ j q, p = j :: q ∧ (i ≤ j)%nat.
Proof.
  revert i. induction rs as [|ps rs IH]; intros i; simpl.
  - by intros ?%elem_of_nil.
  - rewrite elem_of_app. intros [H|H].
    + apply list_elem_of_fmap in H as (q & -> & _). exists i, q. split; [done|lia].
    + destruct (IH _ H) as (j & q & -> & Hj). exists j, q. split; [done|lia].
Qed.

Lemma NoDup_all_under i rs : Forall NoDup rs → NoDup (all_under i rs).
Proof.
  intros H. revert i. induction H as [|ps rs Hps _ IH]; intros i; simpl.
  - constructor.
  - apply NoDup_app. split; [|split].
    + apply NoDup_fmap_2; [|done]. by intros ?? [=].
    + intros p Hp Hp'.
      apply list_elem_of_fmap in Hp as (q & -> & _).
      apply all_under_head in Hp' as (j & q' & [= <- _] & Hj). lia.
    + apply IH.
Qed.

(** [querySelectorAll] lists every element once. *)
Lemma NoDup_all_matches sel n : NoDup (all_matches sel n).
Proof.
  induction n as [d|e cs IH] using node_tree_ind; simpl; [constructor|].
  apply NoDup_app. split; [|split].
  - destruct (sel e); [apply NoDup_singleton | constructor].
  - intros p Hp Hp'. apply all_under_head in Hp' as (j & q & -> & _).
    destruct (sel e); [|by apply elem_of_nil in Hp].
    by apply list_elem_of_singleton in Hp.
  - apply NoDup_all_under. by apply Forall_fmap.
Qed.

Lemma card_listeners_target doc cp l :
  l ∈ card_listeners doc cp →
  target l = cp ∧ ∃ w, node_at doc cp ≫= wire = Some w.
Proof.
  unfold card_listeners. destruct (node_at doc cp ≫= wire) as [w|]; [|by intros ?%elem_of_nil].
  intros H. split; [|by exists w].
  repeat (apply elem_of_cons in H as [->|H]); try done.
  by apply elem_of_nil in H.
Qed.

Lemma dispatch_app ls1 ls2 cp ev d :
  dispatch (ls1 ++ ls2) cp ev d = dispatch ls2 cp ev (dispatch ls1 cp ev d).
Proof. unfold dispatch. apply foldl_app. Qed.

Lemma dispatch_other ls cp ev d :
  (∀ l, l ∈ ls → target l ≠ cp) → dispatch ls cp ev d = d.
Proof.
  revert d. induction ls as [|l ls IH]; intros d H; [done|].
  unfold dispatch. simpl.
  rewrite bool_decide_eq_false_2.
  - apply IH. intros l' Hl'. apply H. by right.
  - intros [Ht _]. by apply (H l); [left|].
Qed.

Lemma dispatch_card doc cp ev d w :
  node_at doc cp ≫= wire = Some w →
  dispatch (card_listeners doc cp) cp ev d = update_at cp (hover_event w ev) d.
Proof.
  intros Hw. unfold card_listeners, dispatch. rewrite Hw.
  destruct ev; cbn [foldl target event_type handler hover_event].
  - rewrite (bool_decide_eq_true_2 (cp = cp ∧ pointerenter = pointerenter)) by done.
    by rewrite (bool_decide_eq_false_2 (cp = cp ∧ pointerleave = pointerenter))
      by (by intros [_ [=]]).
  - rewrite (bool_decide_eq_true_2 (cp = cp ∧ pointerleave = pointerleave)) by done.
    by rewrite (bool_decide_eq_false_2 (cp = cp ∧ pointerenter = pointerleave))
      by (by intros [_ [=]]).
Qed.

Lemma dispatch_bind doc paths cp ev d w :
  NoDup paths → cp ∈ paths →
  node_at doc cp ≫= wire = Some w →
  dispatch (paths ≫= card_listeners doc) cp ev d = update_at cp (hover_event w ev) d.
Proof.
  intros Hnd Hin Hw. revert d. induction Hnd as [|x paths Hx Hnd IH]; intros d.
  - by apply elem_of_nil in Hin.
  - csimpl. rewrite dispatch_app.
    destruct (decide (x = cp)) as [->|Hne].
    + rewrite (dispatch_card doc cp ev d w Hw).
      apply dispatch_other. intros l Hl Ht.
      apply list_elem_of_bind in Hl as (y & Hl & Hy).
      apply card_listeners_target in Hl as [Hl _]. congruence.
    + rewrite (dispatch_other (card_listeners doc x)).
      * apply IH. apply elem_of_cons in Hin as [?|?]; [congruence | done].
      * intros l Hl. apply card_listeners_target in Hl as [-> _]. done.
Qed.

(** A pointer event at a wired card of the loaded document runs that
    card's handler, once. *)
Lemma dispatch_wired doc cp ev d w :
  cp ∈ all_matches sel_hoverPreview doc →
  node_at doc cp ≫= wire = Some w →
  dispatch (setupHoverPreviews doc) cp ev d = update_at cp (hover_event w ev) d.
Proof.
  intros Hin Hw. unfold setupHoverPreviews.
  apply dispatch_bind; [apply NoDup_all_matches | done | done].
Qed.

Lemma hover_all_wired doc cp evs d w :
  cp ∈ all_matches sel_hoverPreview doc →
  node_at doc cp ≫= wire = Some w →
  hover_all doc cp evs d =
    update_at cp (λ card, foldl (λ c ev, hover_event w ev c) card evs) d.
Proof.
  intros Hin Hw. unfold hover_all. revert d.
  induction evs as [|ev evs IH] using rev_ind; intros d.
  - simpl. clear. revert d. induction cp as [|i cp IH]; intros d; [done|].
    destruct d as [t|e cs]; simpl; [done|]. f_equal.
    revert i. induction cs as [|c cs IHcs]; intros i; [done|].
    destruct i; simpl; f_equal; [by rewrite <- IH | apply IHcs].
  - rewrite !foldl_app. simpl. rewrite IH, (dispatch_wired doc cp ev _ w Hin Hw).
    clear. revert d. induction cp as [|i cp IH]; intros d; simpl.
    + by rewrite foldl_app.
    + destruct d as [t|e cs]; simpl; [done|]. f_equal.
      revert i. induction cs as [|c cs IHcs]; intros i; [done|].
      destruct i; simpl; f_equal; [apply IH | apply IHcs].
Qed.

End Listeners.

Section HoverClaims.

(** C8 (amended). For a card wired by [setupHoverPreviews] whose host
    holds no iframe when the page is loaded and whose [data-yt] value
    builds a non-empty embed URL, after every sequence of pointer events
    at the card the host holds exactly one player if the last event was
    a pointer-enter and none if it was a pointer-leave, however long the
    sequence. *)
Theorem hover_cycle (doc : node) (cp : path) (card : node) (w : wiring) :
  cp ∈ all_matches sel_hoverPreview doc →
  node_at doc cp = Some card →
  wire card = Some w →
  players (node_at card (host_ref w)) = 0%nat →
  ytSrc (JStr (raw_value w)) autoplay_on ≠ [] →
  ∀ evs ev,
    ∃ host,
      node_at (hover_all doc cp (evs ++ [ev]) doc) (cp ++ host_ref w) = Some host
      ∧ players (Some host) =
          match ev with pointerenter => 1%nat | pointerleave => 0%nat end.
Proof.
  intros Hin Hcard Hw Hidle Hbuilt evs ev.
  destruct (wire_Some card w Hw) as (he & hcs & Hq & Hhost & _).
  pose proof (querySelector_nonempty _ _ _ Hq) as Hne.
  rewrite Hhost in Hidle. simpl in Hidle.
  assert (Hwired : node_at doc cp ≫= wire = Some w) by by rewrite Hcard.
  rewrite (hover_all_wired doc cp _ doc w Hin Hwired).
  rewrite node_at_app, node_at_update, Hcard. csimpl.
  rewrite foldl_app. cbn [foldl].
  pose proof (hover_state w he hcs Hidle Hbuilt Hne card evs Hhost) as Hs.
  rewrite (hover_step w he hcs Hidle Hbuilt Hne _ ev Hs).
  eexists. split; [reflexivity|].
  destruct ev; simpl.
  - by apply players_playing.
  - exact Hidle.
Qed.

Lemma hover_cycle_witness :
  let host :=
    Elem (Element "div" ["hoverPreview__video"; "ytEmbed"]%string
            {[ "data-yt"%string := lit "RAbnwLxwPNY" ]}) [] in
  let card :=
    Elem (Element "div" ["hoverPreview"%string] ∅)
         [Elem (Element "img" ["hoverPreview__poster"%string] ∅) []; host] in
  let doc := Elem (Element "body" [] ∅) [card] in
  ∃ h, node_at (hover_all doc [0%nat]
                  ([pointerenter; pointerleave] ++ [pointerenter]) doc)
               ([0%nat] ++ [1%nat]) = Some h
       ∧ players (Some h) = 1%nat.
Proof.
  intros host card doc.
  apply (hover_cycle doc [0%nat] card (Wiring [1%nat] (lit "RAbnwLxwPNY"))).
  - vm_compute. by left.
  - reflexivity.
  - reflexivity.
  - reflexivity.
  - vm_compute. discriminate.
Defined.

(** C8 as stated fails: a card whose [data-yt] value is non-empty and
    does not start with [YOUR_] is wired, but a value that builds no URL
    (here a placeholder inside a link) gives no player on
    pointer-enter. *)
Lemma hover_placeholder_counterexample :
  let raw := lit "https://youtu.be/YOUR_VIDEO_ID" in
  let host :=
    Elem (Element "div" ["hoverPreview__video"; "ytEmbed"]%string
            {[ "data-yt"%string := raw ]}) [] in
  let card :=
    Elem (Element "div" ["hoverPreview"%string] ∅)
         [Elem (Element "img" ["hoverPreview__poster"%string] ∅) []; host] in
  let doc := Elem (Element "body" [] ∅) [card] in
  all_matches sel_hoverPreview doc = [[0%nat]]
  ∧ node_at doc [0%nat] = Some card
  ∧ wire card = Some (Wiring [1%nat] raw)
  ∧ raw ≠ [] ∧ startsWith (lit "YOUR_") raw = false
  ∧ players (Some host) = 0%nat
  ∧ length (setupHoverPreviews doc) = 2%nat
  ∧ node_at (hover_all doc [0%nat] [pointerenter] doc) [0%nat; 1%nat] = Some host
  ∧ players (node_at (hover_all doc [0%nat] [pointerenter] doc) [0%nat; 1%nat])
    ≠ 1%nat.
Proof.
  intros raw host card doc.
  assert (H : node_at (hover_all doc [0%nat] [pointerenter] doc) [0%nat; 1%nat]
              = Some host) by (vm_compute; reflexivity).
  split; [reflexivity|]. split; [reflexivity|]. split; [reflexivity|].
  split; [vm_compute; discriminate|]. split; [reflexivity|].
  split; [reflexivity|]. split; [reflexivity|]. split; [exact H|].
  rewrite H. vm_compute. discriminate.
Qed.

End HoverClaims.

(** * Further properties *)

(** ** Extraction, again *)

Section ExtractMore.

Lemma trimStart_split s : ∃ ws, s = ws ++ trimStart s.
Proof.
  induction s as [|c s [ws IH]]; simpl; [by exists []|].
  destruct (is_white_space c); [|by exists []].
  exists (c :: ws). simpl. by rewrite <- IH.
Qed.

Lemma trimStart_head s c rest :
  trimStart s = c :: rest → is_white_space c = false.
Proof.
  induction s as [|a s IH]; simpl; [done|].
  destruct (is_white_space a) eqn:Ha; [exact IH|]. by intros [= <- _].
Qed.

Lemma trimStart_fixed s :
  (∀ c rest, s = c :: rest → is_white_space c = false) → trimStart s = s.
Proof. destruct s as [|c s]; simpl; [done|]. intros H. by rewrite (H c s). Qed.

Lemma trim_head s c rest : trim s = c :: rest → is_white_space c = false.
Proof.
  unfold trim, trimEnd. intros H.
  destruct (trimStart_split (rev (trimStart s))) as [ws Hws].
  apply (f_equal (@rev N)) in Hws. rewrite rev_involutive, rev_app_distr, H in Hws.
  simpl in Hws. by apply (trimStart_head s c (rest ++ rev ws)).
Qed.

Lemma trim_last s c rest : trim s = rest ++ [c] → is_white_space c = false.
Proof.
  unfold trim, trimEnd. intros H.
  apply (f_equal (@rev N)) in H. rewrite rev_involutive, rev_app_distr in H.
  simpl in H. by apply (trimStart_head _ _ _ H).
Qed.

Lemma trim_idempotent s : trim (trim s) = trim s.
Proof.
  assert (Hs : trimStart (trim s) = trim s).
  { apply trimStart_fixed. intros c rest. apply trim_head. }
  unfold trim at 1. rewrite Hs. unfold trimEnd.
  rewrite trimStart_fixed; [apply rev_involutive|].
  intros c rest Hr. apply (trim_last s c (rev rest)).
  apply (f_equal (@rev N)) in Hr. rewrite rev_involutive in Hr. by rewrite Hr.
Qed.

Lemma extract_cases v :
  extractYTId v = []
  ∨ canonical (extractYTId v)
  ∨ (extractYTId v = trim (to_string v)
     ∧ is_bare_id (trim (to_string v)) = false
     ∧ regex_match (trim (to_string v)) = None).
Proof.
  destruct (to_boolean v) eqn:Hv; [|left; unfold extractYTId; by rewrite Hv].
  destruct (is_bare_id (trim (to_string v))) eqn:Hb.
  - right. left. unfold extractYTId. rewrite Hv, Hb. simpl.
    by apply is_bare_id_canonical.
  - rewrite (extract_not_bare v Hv Hb).
    destruct (regex_match _) as [g|] eqn:E.
    + right. left.
      by apply regex_match_Some in E as (i & (m & pre & post & _ & _ & _ & Hc) & _).
    + right. right. done.
Qed.

Lemma extract_extracted (v : jsval) :
  extractYTId (JStr (extractYTId v)) = extractYTId v.
Proof.
  destruct (extract_cases v) as [-> | [Hc | (He & Hb & Hm)]]; [done| |].
  - apply is_bare_id_canonical in Hc.
    rewrite <- (trim_bare_id _ Hc) at 2.
    apply extract_bare_trimmed. by rewrite (trim_bare_id _ Hc).
  - rewrite He. pose proof (trim_idempotent (to_string v)) as Hid.
    remember (trim (to_string v)) as t eqn:Ht. clear Ht He.
    destruct (decide (t = [])) as [->|Hne]; [done|].
    assert (Hv : to_boolean (JStr t) = true).
    { simpl. by rewrite bool_decide_eq_false_2. }
    rewrite (extract_not_bare (JStr t) Hv); cbn [to_string]; rewrite Hid; [|done].
    by rewrite Hm.
Qed.

(** X1. Extracting from an extracted identifier gives it back. *)
Theorem extract_idempotent (v : jsval) :
  extractYTId (JStr (extractYTId v)) = extractYTId v.
Proof. apply extract_extracted. Qed.

(** X2. What [extractYTId] returns has no white space at either end,
    whatever the input. *)
Theorem extract_trimmed (v : jsval) (c : N) (rest : jsstring) :
  extractYTId v = c :: rest ∨ extractYTId v = rest ++ [c] →
  is_white_space c = false.
Proof.
  intros H.
  destruct (extract_cases v) as [E | [Hc | (He & _)]].
  - rewrite E in H. destruct H as [H|H]; [done|]. by destruct rest.
  - apply is_bare_id_canonical in Hc.
    apply andb_true_iff in Hc as [_ Hc]. rewrite forallb_forall in Hc.
    apply id_char_not_white_space, Hc.
    destruct H as [-> | ->]; [by left|]. apply in_or_app. right. by left.
  - rewrite He in H. destruct H as [H|H].
    + by apply (trim_head _ _ _ H).
    + by apply (trim_last _ _ _ H).
Qed.

Lemma extract_trimmed_witness :
  extractYTId (JStr (lit "  hello world  ")) = 104 :: lit "ello world"
  ∧ is_white_space 104 = false.
Proof.
  split; [reflexivity|].
  apply (extract_trimmed (JStr (lit "  hello world  ")) 104 (lit "ello world")).
  left. reflexivity.
Defined.

End ExtractMore.

(** ** The embed URL, again *)

Section UrlMore.

(** X3. A reference and the identifier extracted from it build the
    same URL: [ytSrc] of a link is [ytSrc] of its identifier. *)
Theorem ytSrc_of_extracted (raw : jsval) (options : option jsobject) :
  ytSrc (JStr (extractYTId raw)) options = ytSrc raw options.
Proof. unfold ytSrc. by rewrite extract_extracted. Qed.

Lemma ytSrc_by_autoplay raw o1 o2 :
  get_prop (Object_assign {[ "autoplay"%string := JNum 1 ]} o1) "autoplay"
  = get_prop (Object_assign {[ "autoplay"%string := JNum 1 ]} o2) "autoplay" →
  ytSrc raw o1 = ytSrc raw o2.
Proof. unfold ytSrc. cbv zeta. by intros ->. Qed.

(** X4. Only the [autoplay] property of the options is read, and it
    defaults to 1: options that are absent or have no [autoplay] build
    the URL of [{autoplay: 1}], and two option objects with the same
    [autoplay] build the same URL. *)
Theorem ytSrc_autoplay_default (raw : jsval) :
  ytSrc raw None = ytSrc raw (Some {[ "autoplay"%string := JNum 1 ]})
  ∧ (∀ o : jsobject, o !! "autoplay"%string = None →
       ytSrc raw (Some o) = ytSrc raw (Some {[ "autoplay"%string := JNum 1 ]}))
  ∧ (∀ o o' : jsobject, o !! "autoplay"%string = o' !! "autoplay"%string →
       ytSrc raw (Some o) = ytSrc raw (Some o')).
Proof.
  split; [|split].
  - by apply ytSrc_by_autoplay.
  - intros o Ho. apply ytSrc_by_autoplay. unfold get_prop, Object_assign.
    rewrite (lookup_union_r o) by done. by rewrite lookup_union_Some_l with (x := JNum 1).
  - intros o o' Ho. apply ytSrc_by_autoplay. unfold get_prop, Object_assign.
    rewrite !lookup_union, Ho. done.
Qed.

Lemma ytSrc_autoplay_default_witness :
  ytSrc (JStr (lit "RAbnwLxwPNY")) (Some {[ "controls"%string := JNum 1 ]})
  = ytSrc (JStr (lit "RAbnwLxwPNY")) (Some {[ "autoplay"%string := JNum 1 ]}).
Proof.
  apply (proj1 (proj2 (ytSrc_autoplay_default (JStr (lit "RAbnwLxwPNY"))))).
  reflexivity.
Defined.

(** X5. [ytSrc] returns the empty string exactly when the extracted
    identifier is empty or starts with [YOUR_]; any other result starts
    with the embed origin followed by the identifier. *)
Theorem ytSrc_empty_iff (raw : jsval) (options : option jsobject) :
  (ytSrc raw options = []
   ↔ extractYTId raw = [] ∨ lit "YOUR_" `prefix_of` extractYTId raw)
  ∧ (ytSrc raw options ≠ [] →
     (lit "https://www.youtube-nocookie.com/embed/" ++ extractYTId raw ++ lit "?")
       `prefix_of` ytSrc raw options).
Proof.
  assert (Hshape : ¬ (extractYTId raw = [] ∨ lit "YOUR_" `prefix_of` extractYTId raw) →
    (lit "https://www.youtube-nocookie.com/embed/" ++ extractYTId raw ++ lit "?")
      `prefix_of` ytSrc raw options).
  { intros Hg. rewrite ytSrc_shape by tauto.
    eexists. rewrite <- !app_assoc. reflexivity. }
  split.
  - split; [|apply ytSrc_guard].
    intros He.
    destruct (decide (extractYTId raw = [])) as [?|Hne]; [by left|].
    destruct (startsWith (lit "YOUR_") (extractYTId raw)) eqn:Hs;
      [right; by apply startsWith_prefix|].
    exfalso. destruct Hshape as [k Hk].
    + intros [?|H%startsWith_prefix]; congruence.
    + rewrite He in Hk. discriminate.
  - intros Hne. apply Hshape. intros Hg. by apply Hne, ytSrc_guard.
Qed.

Lemma ytSrc_empty_iff_witness :
  (lit "https://www.youtube-nocookie.com/embed/"
     ++ extractYTId (JStr (lit "https://youtu.be/RAbnwLxwPNY")) ++ lit "?")
    `prefix_of` ytSrc (JStr (lit "https://youtu.be/RAbnwLxwPNY")) None.
Proof.
  apply (proj2 (ytSrc_empty_iff (JStr (lit "https://youtu.be/RAbnwLxwPNY")) None)).
  vm_compute. discriminate.
Defined.

(** X6. For an identifier that holds neither [?] nor [#], the query of
    a URL built by [ytSrc] is made of the same nine parameters, in the
    same order, whatever the value of the autoplay option: the two
    values put into it are serialized and contain none of [&], [=],
    [#], [?] or a space, so neither can end its parameter or start
    another. *)
Theorem ytSrc_query_sealed (raw : jsval) (options : option jsobject) :
  ytSrc raw options ≠ [] →
  63 ∉ extractYTId raw →
  35 ∉ extractYTId raw →
  ∃ autoplay playlist,
    url_params (ytSrc raw options) = embed_params autoplay playlist
    ∧ playlist = urlencode (extractYTId raw)
    ∧ (∀ c, c ∈ autoplay ++ playlist → c ∉ lit "&=#? ")
    ∧ length (url_params (ytSrc raw options)) = 9%nat.
Proof.
  intros Hne Hq Hf.
  assert (Hg : ¬ (extractYTId raw = [] ∨ lit "YOUR_" `prefix_of` extractYTId raw)).
  { intros Hg. by apply Hne, ytSrc_guard. }
  eexists _, _. rewrite ytSrc_params by tauto.
  split; [reflexivity|]. split; [reflexivity|]. split; [|reflexivity].
  intros c [Hc|Hc]%elem_of_app; by eapply urlencode_no_delimiter.
Qed.

Lemma ytSrc_query_sealed_witness :
  let raw := JStr (lit "RAbnwLxwPNY") in
  let o : jsobject := {[ "autoplay"%string := JStr (lit "1&mute=0") ]} in
  ∃ autoplay playlist,
    url_params (ytSrc raw (Some o)) = embed_params autoplay playlist
    ∧ playlist = urlencode (extractYTId raw)
    ∧ (∀ c, c ∈ autoplay ++ playlist → c ∉ lit "&=#? ")
    ∧ length (url_params (ytSrc raw (Some o))) = 9%nat.
Proof.
  intros raw o. apply (ytSrc_query_sealed raw (Some o)).
  - vm_compute. discriminate.
  - apply absent_decide. reflexivity.
  - apply absent_decide. reflexivity.
Defined.

End UrlMore.

(** ** The player host, again *)

Section PlayerMore.

Lemma remove_update p f n :
  p ≠ [] → remove_at p (update_at p f n) = remove_at p n.
Proof.
  revert n. induction p as [|i p IH]; intros n Hp; [done|].
  destruct n as [d|e cs]; [by destruct p|].
  destruct p as [|j p].
  - simpl. f_equal. clear. revert i.
    induction cs as [|c cs IHcs]; intros [|i]; csimpl; f_equal; auto.
  - change (update_at (i :: j :: p) f (Elem e cs))
      with (Elem e (alter (update_at (j :: p) f) i cs)).
    rewrite !remove_at_below. f_equal.
    rewrite list_alter_alter_eq. apply list_alter_ext; [|done].
    intros c _. simpl. by apply IH.
Qed.

Lemma clear_player e cs src :
  count_inside sel_iframe (Elem e cs) = 0%nat →
  clearIframe (Some (Elem e (cs ++ [player src]))) = Some (Elem e cs).
Proof.
  intros H. unfold clearIframe. rewrite (querySelector_player e cs src H).
  rewrite remove_at_child.
  rewrite <- (app_nil_r (cs ++ [player src])), <- app_assoc.
  cbn [app]. by rewrite delete_middle, app_nil_r.
Qed.

(** X7. [injectIframe] returns [null] exactly when the host is absent,
    the reference is falsy or no URL can be built; it then leaves the
    host as it is and assigns nothing. *)
Theorem inject_declines (h : option node) (raw : jsval) (options : option jsobject) :
  (returned (injectIframe h raw options) = None
   ↔ h = None ∨ embeds raw options = false)
  ∧ (returned (injectIframe h raw options) = None →
     host_after (injectIframe h raw options) = h
     ∧ src_writes (injectIframe h raw options) = []).
Proof.
  destruct h as [h|]; [|split; [split; [by left | done] | done]].
  destruct (embeds raw options) eqn:He.
  - assert (Hret : is_Some (returned (injectIframe (Some h) raw options))).
    { unfold embeds in He. apply andb_true_iff in He as [Hr Hs].
      unfold injectIframe. rewrite Hr, Hs. cbn [negb].
      by destruct (querySelector sel_iframe h). }
    destruct Hret as [p Hp]. rewrite Hp.
    split; [|done]. split; [done | by intros [?|?]].
  - rewrite (inject_skip h raw options He). simpl.
    split; [|done]. split; [by right | done].
Qed.

Lemma inject_declines_witness :
  host_after (injectIframe (Some (Elem (Element "div" [] ∅) []))
                (JStr (lit "YOUR_VIDEO_ID")) None)
  = Some (Elem (Element "div" [] ∅) [])
  ∧ src_writes (injectIframe (Some (Elem (Element "div" [] ∅) []))
                  (JStr (lit "YOUR_VIDEO_ID")) None) = [].
Proof.
  apply (proj2 (inject_declines (Some (Elem (Element "div" [] ∅) []))
                  (JStr (lit "YOUR_VIDEO_ID")) None)).
  reflexivity.
Defined.

Lemma all_matches_update sel p f n :
  (∀ m, all_matches sel (f m) = all_matches sel m) →
  all_matches sel (update_at p f n) = all_matches sel n.
Proof.
  intros Hf. revert n. induction p as [|i p IH]; intros n; csimpl; [apply Hf|].
  destruct n as [d|e cs]; csimpl; [done|]. do 2 f_equal.
  revert i. induction cs as [|c cs IHcs]; intros i; [done|].
  destruct i as [|i]; csimpl; [by rewrite IH|]. by rewrite IHcs.
Qed.

Lemma all_matches_set_attribute k v m :
  all_matches sel_iframe (set_attribute k v m) = all_matches sel_iframe m.
Proof. by destruct m. Qed.

Lemma children_length_update p f n :
  p ≠ [] → length (children (update_at p f n)) = length (children n).
Proof.
  destruct p as [|i p]; [done|]. intros _.
  destruct n as [d|e cs]; simpl; [done|]. apply length_alter.
Qed.

(** X8. A host that holds an iframe gets none added: the first iframe
    in document order is the one returned, it keeps its tag, classes,
    children and every attribute but [src], which becomes the built URL,
    and the iframes of the host are where they were. *)
Theorem inject_reuses_first (host : node) (raw : jsval)
    (options : option jsobject) (q : path) (ie : element) (ics : list node) :
  embeds raw options = true →
  querySelector sel_iframe host = Some q →
  node_at host q = Some (Elem ie ics) →
  ∃ host',
    injectIframe (Some host) raw options
      = Injected (Some host') (Some q) [ytSrc raw options]
    ∧ node_at host' q =
        Some (Elem (Element (tagName ie) (classList ie)
                      (<["src"%string := ytSrc raw options]> (attributes ie))) ics)
    ∧ length (children host') = length (children host)
    ∧ all_matches sel_iframe host' = all_matches sel_iframe host.
Proof.
  intros He Hq Hat. eexists. split; [by apply inject_reuse|].
  pose proof (querySelector_nonempty _ _ _ Hq) as Hne.
  split; [by rewrite node_at_update, Hat|].
  split; [by apply children_length_update|].
  apply all_matches_update, all_matches_set_attribute.
Qed.

Lemma inject_reuses_first_witness :
  let markup := Elem (Element "iframe" ["own"%string] {[ "src"%string := lit "about:blank" ]}) [] in
  let host := Elem (Element "div" ["ytEmbed"%string] ∅) [Text (lit "x"); markup] in
  ∃ host',
    injectIframe (Some host) (JStr (lit "RAbnwLxwPNY")) None
      = Injected (Some host') (Some [1%nat]) [ytSrc (JStr (lit "RAbnwLxwPNY")) None]
    ∧ node_at host' [1%nat] =
        Some (Elem (Element "iframe" ["own"%string]
                (<["src"%string := ytSrc (JStr (lit "RAbnwLxwPNY")) None]>
                   {[ "src"%string := lit "about:blank" ]})) [])
    ∧ length (children host') = length (children host)
    ∧ all_matches sel_iframe host' = all_matches sel_iframe host.
Proof.
  intros markup host.
  exact (inject_reuses_first host (JStr (lit "RAbnwLxwPNY")) None [1%nat]
           (Element "iframe" ["own"%string] {[ "src"%string := lit "about:blank" ]}) []
           eq_refl eq_refl eq_refl).
Defined.

(** X9. Injecting and then clearing is clearing: on a host without an
    iframe the round trip gives the host back as it was; on a host with
    one, the iframe found is removed whatever was assigned to it. *)
Theorem inject_then_clear (e : element) (cs : list node) (raw : jsval)
    (options : option jsobject) :
  embeds raw options = true →
  clearIframe (host_after (injectIframe (Some (Elem e cs)) raw options))
  = (if decide (players (Some (Elem e cs)) = 0%nat)
     then Some (Elem e cs) else clearIframe (Some (Elem e cs))).
Proof.
  intros He. case_decide as Hc.
  - simpl in Hc. rewrite (inject_fresh e cs raw options He Hc).
    by apply clear_player.
  - destruct (querySelector sel_iframe (Elem e cs)) as [q|] eqn:Hq;
      [|by apply querySelector_None in Hq].
    pose proof (querySelector_nonempty _ _ _ Hq) as Hne.
    rewrite (inject_reuse _ raw options q He Hq). cbn [host_after].
    unfold clearIframe.
    rewrite querySelector_update, Hq;
      [| apply first_match_set_attribute | done].
    by rewrite remove_update.
Qed.

Lemma inject_then_clear_witness :
  let e := Element "div" ["ytEmbed"%string] ∅ in
  let cs := [Elem (Element "img" [] ∅) []] in
  clearIframe (host_after (injectIframe (Some (Elem e cs)) (JStr (lit "RAbnwLxwPNY")) None))
  = (if decide (players (Some (Elem e cs)) = 0%nat)
     then Some (Elem e cs) else clearIframe (Some (Elem e cs))).
Proof.
  intros e cs.
  apply (inject_then_clear e cs (JStr (lit "RAbnwLxwPNY")) None). reflexivity.
Defined.

Lemma removes_first_count sel cs cs' :
  removes_first sel cs cs' →
  (sum_list (count_matches sel <$> cs') < sum_list (count_matches sel <$> cs))%nat.
Proof.
  induction 1 as [pre e cs post Hpre He | pre e cs cs' post Hpre He _ IH];
    rewrite !fmap_app, !sum_list_with_app; csimpl; rewrite He; lia.
Qed.

Lemma clear_fewer host :
  (players (clearIframe host) ≤ players host - 1)%nat.
Proof.
  destruct host as [h|]; [|done]. unfold clearIframe.
  destruct (querySelector sel_iframe h) as [p|] eqn:Hq.
  - pose proof (remove_found sel_iframe h p Hq) as Hr.
    apply removes_first_count in Hr. simpl. unfold count_inside. lia.
  - apply querySelector_None in Hq. simpl. lia.
Qed.

Lemma clear_times_players k host :
  (players (clear_times k host) ≤ players host - k)%nat.
Proof.
  revert host. induction k as [|k IH]; intros host; simpl; [lia|].
  pose proof (IH (clearIframe host)). pose proof (clear_fewer host). lia.
Qed.

(** X10. Each call of [clearIframe] on a host that holds iframes leaves
    it with fewer, and never with more; as many calls as the host holds
    iframes leave none. *)
Theorem clear_exhausts (host : option node) :
  (players (clearIframe host) ≤ players host)%nat
  ∧ (players host ≠ 0%nat → (players (clearIframe host) < players host)%nat)
  ∧ players (clear_times (players host) host) = 0%nat.
Proof.
  pose proof (clear_fewer host).
  pose proof (clear_times_players (players host) host).
  split; [lia|]. split; lia.
Qed.

Lemma clear_exhausts_witness :
  let host := Some (Elem (Element "div" [] ∅) [player (lit "a"); Elem (Element "p" [] ∅) [player (lit "b")]]) in
  (players (clearIframe host) < players host)%nat.
Proof.
  intros host. apply (proj1 (proj2 (clear_exhausts host))). vm_compute. discriminate.
Defined.

End PlayerMore.

(** ** What embedding leaves in place *)

Section Grows.

Lemma same_but_src_refl e : same_but_src e e.
Proof. by repeat split. Qed.

Lemma same_but_src_trans e1 e2 e3 :
  same_but_src e1 e2 → same_but_src e2 e3 → same_but_src e1 e3.
Proof.
  intros (H1 & H2 & H3) (H4 & H5 & H6). repeat split; [congruence..|].
  intros k Hk. by rewrite H6, H3.
Qed.

Lemma same_but_src_set e v :
  same_but_src e (Element (tagName e) (classList e) (<["src"%string := v]> (attributes e))).
Proof. repeat split. intros k Hk. simpl. by rewrite lookup_insert_ne. Qed.

Lemma embedded_children cs :
  fold_right (λ c rest, embedded c ∧ rest) True cs ↔ Forall embedded cs.
Proof.
  induction cs as [|c cs IH]; simpl; [split; [constructor|done]|].
  rewrite IH. split; [intros [??]; by constructor | by inversion 1].
Qed.

Lemma embedded_player src : embedded (player src).
Proof.
  unfold player, created_iframe. simpl. split; [|done].
  repeat split. intros k Hk. simpl. by rewrite lookup_insert_ne.
Qed.

Lemma grows_list_refl l : Forall (λ c, grows c c) l → grows_list grows l l.
Proof. induction 1; simpl; [constructor | done]. Qed.

Lemma grows_refl n : grows n n.
Proof.
  induction n as [d|e cs IH] using node_tree_ind; simpl; [done|].
  split; [apply same_but_src_refl | by apply grows_list_refl].
Qed.

Lemma embedded_grows a a' : embedded a → grows a a' → embedded a'.
Proof.
  revert a'. induction a as [d|e cs IH] using node_tree_ind; intros a'; [done|].
  destruct a' as [d'|e' cs']; [done|].
  simpl. intros [He Hcs] [Hee Hg].
  split; [by eapply same_but_src_trans|].
  apply embedded_children in Hcs. apply embedded_children.
  clear He Hee. revert cs' Hg.
  induction IH as [|c cs Hc _ IHcs]; intros cs' Hg; simpl in Hg; [done|].
  destruct cs' as [|c' cs']; [done|]. destruct Hg as [Hg1 Hg2].
  inversion Hcs; subst. constructor; [by eapply Hc | by apply IHcs].
Qed.

Lemma embedded_list_grows l l' :
  Forall embedded l → grows_list grows l l' → Forall embedded l'.
Proof.
  intros H. revert l'. induction H as [|c l Hc _ IH]; intros l' Hg; simpl in Hg; [done|].
  destruct l' as [|c' l']; [done|]. destruct Hg as [Hg1 Hg2].
  constructor; [by eapply embedded_grows | by apply IH].
Qed.

Lemma grows_trans n n' n'' : grows n n' → grows n' n'' → grows n n''.
Proof.
  revert n' n''. induction n as [d|e cs IH] using node_tree_ind; intros n' n''.
  - destruct n', n''; simpl; try done. congruence.
  - destruct n' as [|e' cs'], n'' as [|e'' cs'']; simpl; try done.
    intros [He Hg] [He' Hg']. split; [by eapply same_but_src_trans|].
    clear He He'. revert cs' cs'' Hg Hg'.
    induction IH as [|c cs Hc _ IHcs]; intros cs' cs'' Hg Hg'; simpl in *.
    + by eapply embedded_list_grows.
    + destruct cs' as [|c' cs']; [done|]. destruct cs'' as [|c'' cs'']; [by destruct Hg'|].
      simpl in Hg'. destruct Hg as [? ?], Hg' as [? ?].
      split; [by eapply Hc | by eapply IHcs].
Qed.

Lemma grows_set_src v m : grows m (set_attribute "src" v m).
Proof.
  destruct m as [d|e cs]; simpl; [done|].
  split; [apply same_but_src_set|].
  apply grows_list_refl, Forall_forall. intros c _. apply grows_refl.
Qed.

Lemma grows_list_alter f i l :
  (∀ c, grows c (f c)) → grows_list grows l (alter f i l).
Proof.
  intros Hf. revert i. induction l as [|c l IH]; intros i; [constructor|].
  destruct i as [|i]; simpl.
  - split; [apply Hf|]. apply grows_list_refl, Forall_forall.
    intros ? _. apply grows_refl.
  - split; [apply grows_refl | apply IH].
Qed.

Lemma grows_update p f n :
  (∀ m, grows m (f m)) → grows n (update_at p f n).
Proof.
  intros Hf. revert n. induction p as [|i p IH]; intros n; simpl; [apply Hf|].
  destruct n as [d|e cs]; simpl; [done|].
  split; [apply same_but_src_refl | by apply grows_list_alter].
Qed.

Lemma grows_append e cs src : grows (Elem e cs) (Elem e (cs ++ [player src])).
Proof.
  simpl. split; [apply same_but_src_refl|].
  induction cs as [|c cs IH]; simpl.
  - constructor; [apply embedded_player | constructor].
  - split; [apply grows_refl | apply IH].
Qed.

(** What [injectIframe] does to a host is embedding. *)
Lemma grows_inject raw options h :
  grows h (on_host (λ h, host_after (injectIframe h raw options)) h).
Proof.
  unfold on_host.
  destruct (embeds raw options) eqn:He;
    [|rewrite inject_skip by done; apply grows_refl].
  destruct (querySelector sel_iframe h) as [q|] eqn:Hq.
  - rewrite (inject_reuse h raw options q He Hq). simpl.
    apply grows_update, grows_set_src.
  - destruct h as [d|e cs].
    + unfold embeds in He. apply andb_true_iff in He as [Hr Hs].
      unfold injectIframe. rewrite Hr, Hs. simpl. done.
    + apply querySelector_None in Hq.
      rewrite (inject_fresh e cs raw options He Hq). cbn [host_after default].
      apply (grows_append e cs).
Qed.

End Grows.

Section GrowsKeeps.

Context (sel : element → bool) (Hblind : blind sel).

Lemma embedded_invisible a :
  embedded a → first_match sel a = None ∧ all_matches sel a = [].
Proof.
  induction a as [d|e cs IH] using node_tree_ind; [done|].
  simpl. intros [He Hcs]. apply embedded_children in Hcs.
  destruct Hblind as [Hb1 Hb2].
  rewrite (Hb1 _ _ He), Hb2. simpl.
  assert (Hall : Forall (λ c, first_match sel c = None ∧ all_matches sel c = []) cs).
  { apply Forall_forall. intros c Hc. rewrite Forall_forall in IH, Hcs. auto. }
  clear IH Hcs He. generalize 0%nat.
  induction Hall as [|c cs [Hc1 Hc2] _ IHcs]; intros i; csimpl; [done|].
  rewrite Hc1, Hc2. csimpl. apply IHcs.
Qed.

Lemma embedded_list_invisible i l :
  Forall embedded l →
  first_under i (first_match sel <$> l) = None
  ∧ all_under i (all_matches sel <$> l) = [].
Proof.
  intros H. revert i. induction H as [|c l Hc _ IH]; intros i; csimpl; [done|].
  destruct (embedded_invisible c Hc) as [-> ->]. csimpl. apply IH.
Qed.

(** A blind selector finds in the grown tree what it found before. *)
Lemma grows_matches n n' :
  grows n n' →
  first_match sel n' = first_match sel n
  ∧ all_matches sel n' = all_matches sel n
  ∧ querySelector sel n' = querySelector sel n.
Proof.
  revert n'. induction n as [d|e cs IH] using node_tree_ind; intros n'.
  - destruct n'; simpl; [by intros -> | done].
  - destruct n' as [|e' cs']; [done|]. simpl. intros [He Hg].
    destruct Hblind as [Hb1 _]. rewrite (Hb1 _ _ He).
    assert (Hl : ∀ i, first_under i (first_match sel <$> cs')
                      = first_under i (first_match sel <$> cs)
                    ∧ all_under i (all_matches sel <$> cs')
                      = all_under i (all_matches sel <$> cs)).
    { clear He. revert cs' Hg.
      induction IH as [|c cs Hc _ IHcs]; intros cs' Hg i; simpl in Hg.
      - by apply embedded_list_invisible.
      - destruct cs' as [|c' cs']; [done|]. destruct Hg as [Hg1 Hg2].
        csimpl. destruct (Hc c' Hg1) as (-> & -> & _).
        destruct (IHcs cs' Hg2 (S i)) as [-> ->]. done. }
    destruct (Hl 0%nat) as [H1 H2]. unfold querySelector. simpl.
    by rewrite H1, H2.
Qed.

End GrowsKeeps.

Section GrowsAt.

Lemma grows_list_lookup l l' i c :
  grows_list grows l l' → l !! i = Some c →
  ∃ c', l' !! i = Some c' ∧ grows c c'.
Proof.
  revert l' i. induction l as [|a l IH]; intros l' i Hg Hi; [done|].
  destruct l' as [|a' l']; [done|]. destruct Hg as [Hg1 Hg2].
  destruct i as [|i]; simpl in *.
  - injection Hi as <-. by exists a'.
  - by apply IH.
Qed.

(** Every node of the tree is still there, at the same place, grown. *)
Lemma grows_node_at n n' p m :
  grows n n' → node_at n p = Some m →
  ∃ m', node_at n' p = Some m' ∧ grows m m'.
Proof.
  revert n n'. induction p as [|i p IH]; intros n n' Hg Hat; simpl in *.
  - injection Hat as <-. by exists n'.
  - destruct (children n !! i) as [c|] eqn:Hc; [|done]. simpl in Hat.
    destruct n as [d|e cs]; [done|]. destruct n' as [d'|e' cs']; [done|].
    destruct Hg as [_ Hg]. simpl in Hc.
    destruct (grows_list_lookup _ _ _ _ Hg Hc) as (c' & Hc' & Hgc).
    simpl. rewrite Hc'. simpl. by eapply IH.
Qed.

Lemma grows_players n n' :
  grows n n' → (count_matches sel_iframe n ≤ count_matches sel_iframe n')%nat.
Proof.
  revert n'. induction n as [d|e cs IH] using node_tree_ind; intros n'; [by destruct n'|].
  destruct n' as [|e' cs']; [done|]. simpl. intros [(Ht & _ & _) Hg].
  assert (sel_iframe e' = sel_iframe e) as -> by (unfold sel_iframe; by rewrite Ht).
  apply Nat.add_le_mono_l.
  revert cs' Hg. induction IH as [|c cs Hc _ IHcs]; intros cs' Hg; csimpl; [lia|].
  destruct cs' as [|c' cs']; [done|]. destruct Hg as [Hg1 Hg2]. csimpl.
  pose proof (Hc c' Hg1). pose proof (IHcs cs' Hg2). lia.
Qed.

Lemma grows_count_inside n n' :
  grows n n' → (count_inside sel_iframe n ≤ count_inside sel_iframe n')%nat.
Proof.
  intros Hg. pose proof (grows_players n n' Hg) as H.
  destruct n as [d|e cs], n' as [d'|e' cs']; try done.
  destruct Hg as [(Ht & _ & _) _]. simpl in H. unfold count_inside. simpl.
  assert (sel_iframe e' = sel_iframe e) as Hs by (unfold sel_iframe; by rewrite Ht).
  rewrite Hs in H. lia.
Qed.

Lemma blind_hoverPreview : blind sel_hoverPreview.
Proof.
  split; [|done]. intros e e' (_ & Hc & _).
  unfold sel_hoverPreview, has_class. by rewrite Hc.
Qed.

Lemma same_but_src_hasAttribute e e' k :
  same_but_src e e' → k ≠ "src"%string → hasAttribute e' k = hasAttribute e k.
Proof. intros (_ & _ & H) Hk. unfold hasAttribute. by rewrite H. Qed.

Lemma same_but_src_getAttribute e e' k :
  same_but_src e e' → k ≠ "src"%string → getAttribute e' k = getAttribute e k.
Proof. intros (_ & _ & H) Hk. unfold getAttribute. by rewrite H. Qed.

Lemma blind_ytEmbed : blind sel_ytEmbed_data_yt.
Proof.
  split; [|done]. intros e e' He.
  unfold sel_ytEmbed_data_yt, has_class.
  rewrite (same_but_src_hasAttribute e e') by done.
  destruct He as (_ & -> & _). done.
Qed.

Lemma blind_autoplay_embed : blind sel_autoplay_embed.
Proof.
  split; [|done]. intros e e' He.
  unfold sel_autoplay_embed, has_class.
  rewrite !(same_but_src_hasAttribute e e') by done.
  destruct He as (_ & -> & _). done.
Qed.

(** The wiring of a card does not see what was embedded in it. *)
Lemma grows_wire card card' : grows card card' → wire card' = wire card.
Proof.
  intros Hg. unfold wire.
  destruct (grows_matches _ blind_ytEmbed card card' Hg) as (_ & _ & ->).
  destruct (querySelector sel_ytEmbed_data_yt card) as [hp|] eqn:Hq; [|done].
  destruct (querySelector_at _ _ _ Hq) as (he & hcs & Hat & _).
  destruct (grows_node_at _ _ _ _ Hg Hat) as (m' & -> & Hm).
  rewrite Hat. destruct m' as [|he' hcs']; [done|]. destruct Hm as [He _].
  rewrite (same_but_src_hasAttribute he he'), (same_but_src_getAttribute he he');
    done.
Qed.

Lemma all_matches_at sel n p :
  p ∈ all_matches sel n → ∃ e cs, node_at n p = Some (Elem e cs) ∧ sel e = true.
Proof.
  revert p. induction n as [d|e cs IH] using node_tree_ind; intros p; simpl.
  - by intros ?%elem_of_nil.
  - rewrite elem_of_app. intros [H|H].
    + destruct (sel e) eqn:He; [|by apply elem_of_nil in H].
      apply list_elem_of_singleton in H as ->. by exists e, cs.
    + assert (Hl : ∀ i, p ∈ all_under i (all_matches sel <$> cs) →
                ∃ k q c, p = (i + k)%nat :: q ∧ cs !! k = Some c
                         ∧ q ∈ all_matches sel c).
      { clear. induction cs as [|c cs IHcs]; intros i; csimpl.
        - by intros ?%elem_of_nil.
        - rewrite elem_of_app. intros [Hp|Hp].
          + apply list_elem_of_fmap in Hp as (q & -> & Hq).
            exists 0%nat, q, c. by rewrite Nat.add_0_r.
          + destruct (IHcs _ Hp) as (k & q & c' & -> & Hk & Hq).
            exists (S k), q, c'. split; [f_equal; lia | done]. }
      destruct (Hl 0%nat H) as (k & q & c & -> & Hk & Hq).
      rewrite Forall_forall in IH.
      destruct (IH c (list_elem_of_lookup_2 _ _ _ Hk) q Hq) as (e' & cs' & Hat & Hs).
      exists e', cs'. split; [|done]. simpl. by rewrite Hk.
Qed.

(** The hover wiring of a document does not see what was embedded in
    it. *)
Lemma grows_hover doc doc' :
  grows doc doc' → setupHoverPreviews doc' = setupHoverPreviews doc.
Proof.
  intros Hg. unfold setupHoverPreviews.
  destruct (grows_matches _ blind_hoverPreview doc doc' Hg) as (_ & -> & _).
  assert (Hall : Forall (λ cp, card_listeners doc' cp = card_listeners doc cp)
                   (all_matches sel_hoverPreview doc)).
  { apply Forall_forall. intros cp Hcp.
    destruct (all_matches_at _ _ _ Hcp) as (e & cs & Hat & _).
    destruct (grows_node_at _ _ _ _ Hg Hat) as (m' & Hat' & Hm).
    unfold card_listeners. rewrite Hat, Hat'. simpl.
    by rewrite (grows_wire _ _ Hm). }
  induction Hall as [|cp l Hcp _ IH]; csimpl; [done|]. by rewrite Hcp, IH.
Qed.

End GrowsAt.

(** ** What a write to [style] leaves in place *)

Section Restyle.

Lemma same_but_style_refl e : same_but_style e e.
Proof. by repeat split. Qed.

Lemma pairwise_refl l : Forall (λ c, restyled c c) l → pairwise restyled l l.
Proof. induction 1; simpl; done. Qed.

Lemma restyled_refl n : restyled n n.
Proof.
  induction n as [d|e cs IH] using node_tree_ind; simpl; [done|].
  split; [apply same_but_style_refl | by apply pairwise_refl].
Qed.

Lemma restyled_display_none css m : restyled m (style_display_none css m).
Proof.
  destruct m as [d|e cs]; simpl; [done|]. split.
  - repeat split. intros k Hk. simpl. by rewrite lookup_insert_ne.
  - apply pairwise_refl, Forall_forall. intros c _. apply restyled_refl.
Qed.

Lemma pairwise_alter f i l :
  (∀ c, restyled c (f c)) → pairwise restyled l (alter f i l).
Proof.
  intros Hf. revert i. induction l as [|c l IH]; intros i; [done|].
  destruct i as [|i]; simpl.
  - split; [apply Hf|]. apply pairwise_refl, Forall_forall.
    intros ? _. apply restyled_refl.
  - split; [apply restyled_refl | apply IH].
Qed.

Lemma restyled_update p f n :
  (∀ m, restyled m (f m)) → restyled n (update_at p f n).
Proof.
  intros Hf. revert n. induction p as [|i p IH]; intros n; simpl; [apply Hf|].
  destruct n as [d|e cs]; simpl; [done|].
  split; [apply same_but_style_refl | by apply pairwise_alter].
Qed.

Lemma pairwise_lookup l l' i c :
  pairwise restyled l l' → l !! i = Some c →
  ∃ c', l' !! i = Some c' ∧ restyled c c'.
Proof.
  revert l' i. induction l as [|a l IH]; intros l' i Hg Hi; [done|].
  destruct l' as [|a' l']; [done|]. destruct Hg as [Hg1 Hg2].
  destruct i as [|i]; simpl in *.
  - injection Hi as <-. by exists a'.
  - by apply IH.
Qed.

(** Every node of the tree is still there, at the same place. *)
Lemma restyled_node_at n n' p m :
  restyled n n' → node_at n p = Some m →
  ∃ m', node_at n' p = Some m' ∧ restyled m m'.
Proof.
  revert n n'. induction p as [|i p IH]; intros n n' Hg Hat; simpl in *.
  - injection Hat as <-. by exists n'.
  - destruct (children n !! i) as [c|] eqn:Hc; [|done]. simpl in Hat.
    destruct n as [d|e cs]; [done|]. destruct n' as [d'|e' cs']; [done|].
    destruct Hg as [_ Hg]. simpl in Hc.
    destruct (pairwise_lookup _ _ _ _ Hg Hc) as (c' & Hc' & Hgc).
    simpl. rewrite Hc'. simpl. by eapply IH.
Qed.

Lemma restyled_matches sel n n' :
  unstyled sel → restyled n n' →
  first_match sel n' = first_match sel n
  ∧ all_matches sel n' = all_matches sel n
  ∧ querySelector sel n' = querySelector sel n.
Proof.
  intros Hsel. revert n'.
  induction n as [d|e cs IH] using node_tree_ind; intros n'.
  - destruct n'; simpl; [by intros -> | done].
  - destruct n' as [|e' cs']; [done|]. simpl. intros [He Hg].
    rewrite (Hsel _ _ He).
    assert (Hl : ∀ i, first_under i (first_match sel <$> cs')
                      = first_under i (first_match sel <$> cs)
                    ∧ all_under i (all_matches sel <$> cs')
                      = all_under i (all_matches sel <$> cs)).
    { clear He. revert cs' Hg.
      induction IH as [|c cs Hc _ IHcs]; intros cs' Hg i; simpl in Hg.
      - by destruct cs'.
      - destruct cs' as [|c' cs']; [done|]. destruct Hg as [Hg1 Hg2].
        csimpl. destruct (Hc c' Hg1) as (-> & -> & _).
        destruct (IHcs cs' Hg2 (S i)) as [-> ->]. done. }
    destruct (Hl 0%nat) as [H1 H2]. unfold querySelector. simpl.
    by rewrite H1, H2.
Qed.

Lemma restyled_players n n' :
  restyled n n' → count_matches sel_iframe n' = count_matches sel_iframe n.
Proof.
  revert n'. induction n as [d|e cs IH] using node_tree_ind; intros n'; [by destruct n'|].
  destruct n' as [|e' cs']; [done|]. simpl. intros [(Ht & _ & _) Hg].
  assert (sel_iframe e' = sel_iframe e) as -> by (unfold sel_iframe; by rewrite Ht).
  f_equal.
  revert cs' Hg. induction IH as [|c cs Hc _ IHcs]; intros cs' Hg; csimpl.
  - by destruct cs'.
  - destruct cs' as [|c' cs']; [done|]. destruct Hg as [Hg1 Hg2]. csimpl.
    by rewrite (Hc c' Hg1), (IHcs cs' Hg2).
Qed.

Lemma restyled_count_inside n n' :
  restyled n n' → count_inside sel_iframe n' = count_inside sel_iframe n.
Proof.
  intros Hg. pose proof (restyled_players n n' Hg) as H.
  destruct n as [d|e cs], n' as [d'|e' cs']; try done.
  destruct Hg as [(Ht & _ & _) _]. simpl in H. unfold count_inside. simpl.
  assert (sel_iframe e' = sel_iframe e) as Hs by (unfold sel_iframe; by rewrite Ht).
  rewrite Hs in H. lia.
Qed.

Lemma same_but_style_hasAttribute e e' k :
  same_but_style e e' → k ≠ "style"%string → hasAttribute e' k = hasAttribute e k.
Proof. intros (_ & _ & H) Hk. unfold hasAttribute. by rewrite H. Qed.

Lemma same_but_style_getAttribute e e' k :
  same_but_style e e' → k ≠ "style"%string → getAttribute e' k = getAttribute e k.
Proof. intros (_ & _ & H) Hk. unfold getAttribute. by rewrite H. Qed.

Lemma unstyled_hoverPreview : unstyled sel_hoverPreview.
Proof.
  intros e e' (_ & Hc & _). unfold sel_hoverPreview, has_class. by rewrite Hc.
Qed.

Lemma unstyled_ytEmbed : unstyled sel_ytEmbed_data_yt.
Proof.
  intros e e' He. unfold sel_ytEmbed_data_yt, has_class.
  rewrite (same_but_style_hasAttribute e e') by done.
  destruct He as (_ & -> & _). done.
Qed.

Lemma unstyled_autoplay_embed : unstyled sel_autoplay_embed.
Proof.
  intros e e' He. unfold sel_autoplay_embed, has_class.
  rewrite !(same_but_style_hasAttribute e e') by done.
  destruct He as (_ & -> & _). done.
Qed.

(** The wiring of a card does not look at [style]. *)
Lemma restyled_wire card card' : restyled card card' → wire card' = wire card.
Proof.
  intros Hg. unfold wire.
  destruct (restyled_matches _ card card' unstyled_ytEmbed Hg) as (_ & _ & ->).
  destruct (querySelector sel_ytEmbed_data_yt card) as [hp|] eqn:Hq; [|done].
  destruct (querySelector_at _ _ _ Hq) as (he & hcs & Hat & _).
  destruct (restyled_node_at _ _ _ _ Hg Hat) as (m' & -> & Hm).
  rewrite Hat. destruct m' as [|he' hcs']; [done|]. destruct Hm as [He _].
  rewrite (same_but_style_hasAttribute he he'), (same_but_style_getAttribute he he');
    done.
Qed.

Lemma restyled_hover doc doc' :
  restyled doc doc' → setupHoverPreviews doc' = setupHoverPreviews doc.
Proof.
  intros Hg. unfold setupHoverPreviews.
  destruct (restyled_matches _ doc doc' unstyled_hoverPreview Hg) as (_ & -> & _).
  assert (Hall : Forall (λ cp, card_listeners doc' cp = card_listeners doc cp)
                   (all_matches sel_hoverPreview doc)).
  { apply Forall_forall. intros cp Hcp.
    destruct (all_matches_at _ _ _ Hcp) as (e & cs & Hat & _).
    destruct (restyled_node_at _ _ _ _ Hg Hat) as (m' & Hat' & Hm).
    unfold card_listeners. rewrite Hat, Hat'. simpl.
    by rewrite (restyled_wire _ _ Hm). }
  induction Hall as [|cp l Hcp _ IH]; csimpl; [done|]. by rewrite Hcp, IH.
Qed.

End Restyle.

Section InjectFrame.




End InjectFrame.

(** ** Hover previews, again *)

Section HoverMore.

Lemma update_at_root_element i p f e cs :
  ∃ cs', update_at (i :: p) f (Elem e cs) = Elem e cs'.
Proof. by eexists. Qed.

Lemma root_classes_play w e cs :
  host_ref w ≠ [] →
  root_classes (play w (Elem e cs)) =
    if has_class "is-playing" e then classList e else classList e ++ ["is-playing"%string].
Proof.
  intros Hne. unfold play. destruct (host_ref w) as [|i p]; [done|].
  simpl. by destruct (has_class "is-playing" e).
Qed.

Lemma root_classes_stop w e cs :
  host_ref w ≠ [] →
  root_classes (stop w (Elem e cs)) = filter (λ t, t ≠ "is-playing"%string) (classList e).
Proof.
  intros Hne. unfold stop. by destruct (host_ref w) as [|i p].
Qed.

Lemma wire_inside card w : wire card = Some w → host_ref w ≠ [].
Proof.
  intros Hw. destruct (wire_Some card w Hw) as (he & hcs & Hq & _).
  by eapply querySelector_nonempty.
Qed.

(** X12. The handlers of a wired card keep its class mark in step:
    after pointer-enter the card has the class [is-playing], after
    pointer-leave it has not, and every other class of the card is kept
    either way. *)
Theorem hover_marks_card (w : wiring) (e : element) (cs : list node)
    (ev : pointer_event) :
  wire (Elem e cs) = Some w →
  ("is-playing"%string ∈ root_classes (hover_event w ev (Elem e cs))
   ↔ ev = pointerenter)
  ∧ (∀ c, c ≠ "is-playing"%string →
          c ∈ root_classes (hover_event w ev (Elem e cs)) ↔ c ∈ classList e).
Proof.
  intros Hw. pose proof (wire_inside _ _ Hw) as Hne.
  destruct ev; simpl.
  - rewrite root_classes_play by done. unfold has_class.
    case_bool_decide as Hc.
    + split; [done|]. done.
    + split.
      * split; [done|]. intros _. apply elem_of_app. right. by left.
      * intros c Hcne. rewrite elem_of_app, list_elem_of_singleton. tauto.
  - rewrite root_classes_stop by done. split.
    + rewrite list_elem_of_filter. split; [by intros [? _] | done].
    + intros c Hcne. rewrite list_elem_of_filter. tauto.
Qed.

Lemma hover_marks_card_witness :
  let host :=
    Elem (Element "div" ["ytEmbed"%string] {[ "data-yt"%string := lit "RAbnwLxwPNY" ]}) [] in
  let e := Element "div" ["hoverPreview"%string] ∅ in
  "is-playing"%string
    ∈ root_classes (hover_event (Wiring [0%nat] (lit "RAbnwLxwPNY")) pointerenter (Elem e [host])).
Proof.
  intros host e.
  apply (proj1 (hover_marks_card (Wiring [0%nat] (lit "RAbnwLxwPNY")) e [host]
                  pointerenter eq_refl)).
  reflexivity.
Defined.

(** X13. [setupHoverPreviews] attaches listeners to nothing but
    [.hoverPreview] elements whose first [.ytEmbed[data-yt]] descendant
    has no [data-autoplay] and a [data-yt] value that is not empty and
    does not start with [YOUR_]; the handler is [play] for pointer-enter
    and [stop] for pointer-leave, closed over that host and value. *)
Theorem hover_listeners_sound (doc : node) (l : listener) :
  l ∈ setupHoverPreviews doc →
  ∃ card w he hcs,
    target l ∈ all_matches sel_hoverPreview doc
    ∧ node_at doc (target l) = Some card
    ∧ querySelector sel_ytEmbed_data_yt card = Some (host_ref w)
    ∧ node_at card (host_ref w) = Some (Elem he hcs)
    ∧ hasAttribute he "data-autoplay" = false
    ∧ getAttribute he "data-yt" = JStr (raw_value w)
    ∧ raw_value w ≠ []
    ∧ ¬ lit "YOUR_" `prefix_of` raw_value w
    ∧ handler l = hover_event w (event_type l).
Proof.
  unfold setupHoverPreviews. intros (cp & Hl & Hcp)%list_elem_of_bind.
  unfold card_listeners in Hl.
  destruct (node_at doc cp) as [card|] eqn:Hcard; [|by apply elem_of_nil in Hl].
  simpl in Hl. destruct (wire card) as [w|] eqn:Hw; [|by apply elem_of_nil in Hl].
  destruct (wire_Some card w Hw) as (he & hcs & Hq & Hat & Hauto & Hraw & Hne & Hpre).
  assert (Hget : getAttribute he "data-yt" = JStr (raw_value w)).
  { unfold getAttribute. by rewrite Hraw. }
  exists card, w, he, hcs.
  repeat (apply elem_of_cons in Hl as [->|Hl]); [| |by apply elem_of_nil in Hl];
    simpl; by repeat split.
Qed.

Lemma hover_listeners_sound_witness :
  let host :=
    Elem (Element "div" ["ytEmbed"%string] {[ "data-yt"%string := lit "RAbnwLxwPNY" ]}) [] in
  let doc := Elem (Element "div" ["hoverPreview"%string] ∅) [host] in
  ∃ card w he hcs,
    [] ∈ all_matches sel_hoverPreview doc
    ∧ node_at doc [] = Some card
    ∧ querySelector sel_ytEmbed_data_yt card = Some (host_ref w)
    ∧ node_at card (host_ref w) = Some (Elem he hcs)
    ∧ hasAttribute he "data-autoplay" = false
    ∧ getAttribute he "data-yt" = JStr (raw_value w)
    ∧ raw_value w ≠ []
    ∧ ¬ lit "YOUR_" `prefix_of` raw_value w
    ∧ play (Wiring [0%nat] (lit "RAbnwLxwPNY")) = hover_event w pointerenter.
Proof.
  intros host doc.
  apply (hover_listeners_sound doc
           (Listener [] pointerenter (play (Wiring [0%nat] (lit "RAbnwLxwPNY"))))).
  vm_compute. by left.
Defined.

Lemma node_at_update_apart p q f n :
  apart p q → node_at (update_at p f n) q = node_at n q.
Proof.
  intros (r & i & j & p' & q' & -> & -> & Hij). revert n.
  induction r as [|k r IH]; intros n; simpl.
  - destruct n as [d|e cs]; simpl; [done|].
    by rewrite list_lookup_alter_ne.
  - destruct n as [d|e cs]; simpl; [done|].
    rewrite list_lookup_alter_eq. destruct (cs !! k) as [c|]; simpl; [apply IH | done].
Qed.



End HoverMore.

Section HoverRoundTrip.

Lemma update_at_compose p f g n :
  update_at p g (update_at p f n) = update_at p (g ∘ f) n.
Proof.
  revert n. induction p as [|i p IH]; intros n; simpl; [done|].
  destruct n as [d|e cs]; simpl; [done|]. f_equal.
  rewrite list_alter_alter_eq. apply list_alter_ext; [|done].
  intros c _. apply IH.
Qed.

Lemma update_at_fixed p f n m :
  node_at n p = Some m → f m = m → update_at p f n = n.
Proof.
  revert n. induction p as [|i p IH]; intros n; simpl.
  - by intros [= ->].
  - destruct n as [d|e cs]; simpl; [done|].
    destruct (cs !! i) as [c|] eqn:Hc; simpl; [|done].
    intros Hat Hf. f_equal.
    rewrite <- (list_alter_id id cs i) at 2 by done.
    apply list_alter_ext; [|done].
    intros c' Hc'. rewrite Hc in Hc'. injection Hc' as <-. by apply IH.
Qed.

Lemma update_at_ext p f g n :
  (∀ m, f m = g m) → update_at p f n = update_at p g n.
Proof.
  intros H. revert n. induction p as [|i p IH]; intros n; simpl; [apply H|].
  destruct n as [d|e cs]; [done|]. f_equal.
  apply list_alter_ext; [|done]. intros c _. apply IH.
Qed.

(** A second identical call of [injectIframe] changes nothing. *)
Lemma inject_again raw options h :
  let inject := on_host (λ h, host_after (injectIframe h raw options)) in
  inject (inject h) = inject h.
Proof.
  intros inject. subst inject. unfold on_host.
  destruct (embeds raw options) eqn:He; [|by rewrite !inject_skip].
  destruct h as [d|e cs].
  - unfold embeds in He. apply andb_true_iff in He as [Hr Hs].
    unfold injectIframe. rewrite Hr, Hs. cbn. by rewrite ?Hr, ?Hs.
  - destruct (inject_result e cs raw options He)
      as (host' & p & ie & ics & H1 & _ & _ & _ & _ & H6 & H7).
    rewrite H1. cbn [host_after from_option id].
    rewrite (inject_reuse host' raw options p He H6). cbn [host_after from_option id].
    destruct (querySelector sel_iframe (Elem e cs)) as [q|] eqn:Hq.
    + destruct (H7 q eq_refl) as [-> ->].
      apply update_at_twice, set_attribute_twice.
    + apply querySelector_None in Hq.
      rewrite (inject_fresh e cs raw options He Hq) in H1.
      injection H1 as <- <-.
      rewrite update_last. unfold player. by rewrite set_attribute_twice.
Qed.

Lemma classList_add_update c i p f n :
  classList_add c (update_at (i :: p) f n) = update_at (i :: p) f (classList_add c n).
Proof. destruct n as [d|e cs]; simpl; [done|]. by destruct (has_class c e). Qed.

Lemma classList_add_twice c n : classList_add c (classList_add c n) = classList_add c n.
Proof.
  destruct n as [d|e cs]; simpl; [done|].
  destruct (has_class c e) eqn:Hc; simpl; [by rewrite Hc|].
  unfold has_class. simpl. rewrite bool_decide_eq_true_2; [done|].
  apply elem_of_app. right. by left.
Qed.

(** X15. Pointer-enter twice is pointer-enter once: a repeated [play]
    leaves the card, its class mark and its player as the first one
    did. *)
Theorem play_idempotent (card : node) (w : wiring) :
  wire card = Some w → play w (play w card) = play w card.
Proof.
  intros Hw. pose proof (wire_inside _ _ Hw) as Hne.
  unfold play. destruct (host_ref w) as [|i p]; [done|].
  rewrite classList_add_update, classList_add_twice, update_at_compose.
  apply update_at_ext. intros m. apply inject_again.
Qed.

Lemma play_idempotent_witness :
  let host :=
    Elem (Element "div" ["ytEmbed"%string] {[ "data-yt"%string := lit "RAbnwLxwPNY" ]}) [] in
  let card := Elem (Element "div" ["hoverPreview"%string] ∅) [host] in
  let w := Wiring [0%nat] (lit "RAbnwLxwPNY") in
  play w (play w card) = play w card.
Proof.
  intros host card w. apply (play_idempotent card w). reflexivity.
Defined.






End HoverRoundTrip.

(** ** The footer year *)

Section Footer.

Lemma uint_nonempty d : d ≠ Decimal.Nil → NilEmpty.string_of_uint d ≠ ""%string.
Proof. by destruct d. Qed.

Lemma number_nonempty z : to_string (JNum z) ≠ [].
Proof.
  unfold to_string.
  assert (H : NilZero.string_of_int (Z.to_int z) ≠ ""%string).
  { destruct (Z.to_int z) as [d|d]; simpl; [|done]. by destruct d. }
  destruct (NilZero.string_of_int (Z.to_int z)); done.
Qed.

Lemma first_match_update_keep sel p f n :
  first_match sel n = Some p →
  (∀ e cs, ∃ cs', f (Elem e cs) = Elem e cs') →
  first_match sel (update_at p f n) = Some p.
Proof.
  intros Hm Hf. revert p Hm.
  induction n as [d|e cs IH] using node_tree_ind; intros p; csimpl; [done|].
  destruct (sel e) eqn:He.
  - intros [= <-]. simpl. destruct (Hf e cs) as [cs' ->]. simpl. by rewrite He.
  - intros H. apply first_under_Some in H as (rpre & q & rpost & Hrs & Hpre & ->).
    apply fmap_app_inv in Hrs as (pre & rest & -> & Hrest & ->).
    symmetry in Hrest.
    apply fmap_cons_inv in Hrest as (c & post & Hc & -> & ->).
    rewrite Forall_app, Forall_cons in IH. destruct IH as (_ & IHc & _).
    csimpl. rewrite He, length_fmap, alter_middle.
    rewrite fmap_app, fmap_cons, (IHc q) by done.
    rewrite first_under_app by done. by rewrite length_fmap.
Qed.

Lemma set_textContent_twice s s' m :
  set_textContent s' (set_textContent s m) = set_textContent s' m.
Proof. by destruct m. Qed.

Lemma year_digits (year : Z) :
  (1000 ≤ year ≤ 9999)%Z →
  length (to_string (JNum year)) = 4%nat
  ∧ Forall (λ c, 48 ≤ c ≤ 57) (to_string (JNum year)).
Proof.
  intros Hy.
  assert (Hall : forallb (λ n, bool_decide (length (to_string (JNum (1000 + Z.of_nat n))) = 4%nat)
                              && forallb (λ c, (48 <=? c) && (c <=? 57))
                                   (to_string (JNum (1000 + Z.of_nat n))))
                   (seq 0 (Z.to_nat 9000)) = true) by (vm_compute; reflexivity).
  rewrite forallb_forall in Hall.
  assert (Hin : In (Z.to_nat (year - 1000)) (seq 0 (Z.to_nat 9000)))
    by (apply in_seq; lia).
  specialize (Hall _ Hin).
  replace (1000 + Z.of_nat (Z.to_nat (year - 1000)))%Z with year in Hall by lia.
  apply andb_true_iff in Hall as [Hl Hd]. apply bool_decide_eq_true in Hl.
  split; [done|]. apply Forall_forall. intros c Hc.
  rewrite forallb_forall in Hd. apply list_elem_of_In, Hd in Hc.
  apply andb_true_iff in Hc as [?%N.leb_le ?%N.leb_le]. lia.
Qed.

(** X17. [setupFooterYear] changes nothing when no element has the id
    [year]; otherwise the first such element gets the year, in decimal,
    as its only child, keeps its tag, classes and attributes, and nothing
    outside it changes.  A later stamp replaces an earlier one, so the
    function is idempotent; for a year from 1000 to 9999 the text is four
    digits. *)
Theorem footer_year_stamp (year : Z) (doc : node) :
  (getElementById (lit "year") doc = None → setupFooterYear year doc = doc)
  ∧ (∀ p, getElementById (lit "year") doc = Some p →
       ∃ e cs,
         node_at doc p = Some (Elem e cs)
         ∧ attributes e !! "id"%string = Some (lit "year")
         ∧ node_at (setupFooterYear year doc) p
           = Some (Elem e [Text (to_string (JNum year))])
         ∧ (∀ q, apart p q → node_at (setupFooterYear year doc) q = node_at doc q))
  ∧ (∀ year', setupFooterYear year' (setupFooterYear year doc)
              = setupFooterYear year' doc)
  ∧ ((1000 ≤ year ≤ 9999)%Z →
     length (to_string (JNum year)) = 4%nat
     ∧ Forall (λ c, 48 ≤ c ≤ 57) (to_string (JNum year))).
Proof.
  split; [|split; [|split]].
  - unfold setupFooterYear. by intros ->.
  - intros p Hp. unfold setupFooterYear. rewrite Hp.
    destruct (first_match_at _ _ _ Hp) as (e & cs & Hat & Hsel).
    apply bool_decide_eq_true in Hsel.
    exists e, cs. split; [done|]. split; [done|]. split.
    + rewrite node_at_update, Hat. simpl.
      by rewrite bool_decide_eq_false_2 by apply number_nonempty.
    + intros q Hq. by apply node_at_update_apart.
  - intros year'. unfold setupFooterYear.
    destruct (getElementById (lit "year") doc) as [p|] eqn:Hp; [|by rewrite Hp].
    unfold getElementById in *.
    rewrite (first_match_update_keep _ p _ doc Hp).
    + rewrite update_at_compose. apply update_at_ext.
      intros m. apply set_textContent_twice.
    + intros e cs. by eexists.
  - apply year_digits.
Qed.

Lemma footer_year_stamp_witness :
  let span := Element "span" [] {[ "id"%string := lit "year" ]} in
  let doc := Elem (Element "footer" [] ∅) [Text (lit "(c) "); Elem span [Text (lit "2019")]] in
  (∃ e cs,
     node_at doc [1%nat] = Some (Elem e cs)
     ∧ attributes e !! "id"%string = Some (lit "year")
     ∧ node_at (setupFooterYear 2026 doc) [1%nat]
       = Some (Elem e [Text (to_string (JNum 2026))])
     ∧ (∀ q, apart [1%nat] q → node_at (setupFooterYear 2026 doc) q = node_at doc q))
  ∧ length (to_string (JNum 2026)) = 4%nat.
Proof.
  intros span doc. split.
  - apply (proj1 (proj2 (footer_year_stamp 2026 doc)) [1%nat]). reflexivity.
  - apply (proj2 (proj2 (proj2 (footer_year_stamp 2026 doc)))). lia.
Defined.

End Footer.

(** ** The background player *)

Section BackgroundPlayer.

Context (css : jsstring → jsstring).

Lemma blind_bgVideo_vid : blind sel_bgVideo_vid.
Proof.
  split; [|done]. intros e e' (_ & Hc & _).
  unfold sel_bgVideo_vid, has_class. by rewrite Hc.
Qed.

Lemma update_at_agree p f g n m :
  node_at n p = Some m → f m = g m → update_at p f n = update_at p g n.
Proof.
  revert n. induction p as [|i p IH]; intros n; simpl.
  - by intros [= ->].
  - destruct n as [d|e cs]; simpl; [done|].
    destruct (cs !! i) as [c|] eqn:Hc; simpl; [|done].
    intros Hat Hf. f_equal. apply list_alter_ext; [|done].
    intros c' Hc'. rewrite Hc in Hc'. injection Hc' as <-. by apply IH.
Qed.

(** The document [setupYoutubeBackground] works on after the call of
    [injectIframe]. *)
Lemma background_document doc bgHost host raw :
  node_at doc bgHost = Some host →
  update_at bgHost
    (λ h, default h (host_after (injectIframe (Some host) raw autoplay_on))) doc
  = update_at bgHost
      (on_host (λ h, host_after (injectIframe h raw autoplay_on))) doc.
Proof. intros Hat. by apply (update_at_agree _ _ _ _ host). Qed.

(** The two ways [setupYoutubeBackground] ends. *)
Lemma background_cases doc :
  (setupYoutubeBackground css doc = Background doc []
   ∧ ∀ bgHost he hcs,
       document_querySelector sel_bgVideo_yt doc = Some bgHost →
       node_at doc bgHost = Some (Elem he hcs) →
       embeds (getAttribute he "data-yt-bg") autoplay_on = false)
  ∨ ∃ bgHost he hcs host' p ie ics,
      document_querySelector sel_bgVideo_yt doc = Some bgHost
      ∧ node_at doc bgHost = Some (Elem he hcs)
      ∧ embeds (getAttribute he "data-yt-bg") autoplay_on = true
      ∧ on_host (λ h, host_after
           (injectIframe h (getAttribute he "data-yt-bg") autoplay_on)) (Elem he hcs)
        = host'
      ∧ node_at host' p = Some (Elem ie ics)
      ∧ sel_iframe ie = true
      ∧ attributes ie !! "src"%string
        = Some (ytSrc (getAttribute he "data-yt-bg") autoplay_on)
      ∧ (1 ≤ count_inside sel_iframe host')%nat
      ∧ setupYoutubeBackground css doc
        = match document_querySelector sel_bgVideo_vid doc with
          | Some vid =>
              Background
                (update_at vid (style_display_none css)
                   (update_at bgHost
                      (on_host (λ h, host_after
                         (injectIframe h (getAttribute he "data-yt-bg") autoplay_on)))
                      doc))
                [TryPause vid]
          | None =>
              Background
                (update_at bgHost
                   (on_host (λ h, host_after
                      (injectIframe h (getAttribute he "data-yt-bg") autoplay_on)))
                   doc)
                []
          end.
Proof.
  unfold setupYoutubeBackground.
  destruct (document_querySelector sel_bgVideo_yt doc) as [bgHost|] eqn:Hq;
    [|left; split; [done | by intros]].
  destruct (first_match_at _ _ _ Hq) as (he & hcs & Hat & _). rewrite Hat.
  destruct (embeds (getAttribute he "data-yt-bg") autoplay_on) eqn:He.
  - right.
    destruct (inject_result he hcs _ _ He)
      as (host' & p & ie & ics & H1 & H2 & H3 & H4 & H5 & _).
    exists bgHost, he, hcs, host', p, ie, ics.
    assert (Hr : to_boolean (getAttribute he "data-yt-bg") = true).
    { unfold embeds in He. by apply andb_true_iff in He as [? _]. }
    rewrite Hr. cbn [negb].
    fold autoplay_on. rewrite (background_document doc bgHost _ _ Hat).
    rewrite H1. cbn [returned].
    split; [done|]. split; [done|]. split; [done|].
    split; [unfold on_host; by rewrite H1|].
    split; [done|]. split; [done|]. split; [done|].
    split; [simpl in H5; lia|].
    assert (Hg : grows doc
              (update_at bgHost
                 (on_host (λ h, host_after
                    (injectIframe h (getAttribute he "data-yt-bg") autoplay_on))) doc)).
    { apply grows_update. intros m. apply grows_inject. }
    destruct (grows_matches _ blind_bgVideo_vid _ _ Hg) as (Hvid & _).
    unfold document_querySelector. rewrite Hvid.
    by destruct (first_match sel_bgVideo_vid doc).
  - left. split.
    + destruct (to_boolean (getAttribute he "data-yt-bg")) eqn:Hr; [|done].
      cbn [negb]. fold autoplay_on.
      rewrite (inject_skip _ _ _ He). cbn [host_after returned from_option id].
      f_equal. by apply (update_at_fixed _ _ _ (Elem he hcs)).
    + intros bgHost' he' hcs' [= <-]. rewrite Hat. by intros [= <- <-].
Qed.

(** What [setupYoutubeBackground] changes: players are embedded, and
    the [style] of the local video may be written. *)
Lemma background_frame doc :
  ∃ d1, grows doc d1
        ∧ (document_after (setupYoutubeBackground css doc) = d1
           ∨ ∃ vid,
               document_querySelector sel_bgVideo_vid doc = Some vid
               ∧ document_after (setupYoutubeBackground css doc)
                 = update_at vid (style_display_none css) d1).
Proof.
  destruct (background_cases doc)
    as [[-> _] | (bgHost & he & hcs & host' & p & ie & ics & _ & _ & _ & _ & _ & _ & _ & _ & ->)].
  - exists doc. split; [apply grows_refl | by left].
  - eexists. split; [apply grows_update; intros m; apply grows_inject|].
    destruct (document_querySelector sel_bgVideo_vid doc) as [vid|]; cbn [document_after].
    + right. by exists vid.
    + by left.
Qed.

(** The player of the background host, in place when the function
    returns. *)
Lemma background_player doc bgHost he hcs :
  document_querySelector sel_bgVideo_yt doc = Some bgHost →
  node_at doc bgHost = Some (Elem he hcs) →
  embeds (getAttribute he "data-yt-bg") autoplay_on = true →
  ∃ host' p ie ics,
    node_at (document_after (setupYoutubeBackground css doc)) bgHost = Some host'
    ∧ (1 ≤ count_inside sel_iframe host')%nat
    ∧ node_at host' p = Some (Elem ie ics)
    ∧ sel_iframe ie = true
    ∧ attributes ie !! "src"%string
      = Some (ytSrc (getAttribute he "data-yt-bg") autoplay_on).
Proof.
  intros Hq Hat He.
  destruct (background_cases doc)
    as [[_ Hno] | (bgHost' & he' & hcs' & host1 & p & ie & ics
                   & Hq' & Hat' & _ & H1 & H2 & H3 & H4 & H5 & Hres)].
  { by rewrite (Hno bgHost he hcs Hq Hat) in He. }
  rewrite Hq in Hq'. injection Hq' as <-.
  rewrite Hat in Hat'. injection Hat' as <- <-.
  set (d1 := update_at bgHost
               (on_host (λ h, host_after
                  (injectIframe h (getAttribute he "data-yt-bg") autoplay_on))) doc)
    in Hres.
  assert (Hd1 : node_at d1 bgHost = Some host1).
  { unfold d1. by rewrite node_at_update, Hat, <- H1. }
  assert (Hr : restyled d1 (document_after (setupYoutubeBackground css doc))).
  { rewrite Hres. destruct (document_querySelector sel_bgVideo_vid doc);
      cbn [document_after]; [apply restyled_update, restyled_display_none
                            | apply restyled_refl]. }
  destruct (restyled_node_at _ _ _ _ Hr Hd1) as (host' & Hat' & Hh).
  destruct (restyled_node_at _ _ _ _ Hh H2) as (m & Hm & Hie).
  destruct m as [|ie' ics']; [done|]. destruct Hie as [(Ht & _ & Ha) _].
  exists host', p, ie', ics'. split; [done|].
  split; [by rewrite (restyled_count_inside _ _ Hh)|].
  split; [done|]. split.
  - unfold sel_iframe in *. by rewrite Ht.
  - by rewrite Ha.
Qed.

(** The local video, paused and hidden once the player is in place. *)
Lemma background_fallback doc bgHost he hcs :
  document_querySelector sel_bgVideo_yt doc = Some bgHost →
  node_at doc bgHost = Some (Elem he hcs) →
  embeds (getAttribute he "data-yt-bg") autoplay_on = true →
  fallback_effects (setupYoutubeBackground css doc)
  = match document_querySelector sel_bgVideo_vid doc with
    | Some vid => [TryPause vid]
    | None => []
    end
  ∧ ∀ vid ve vcs,
      document_querySelector sel_bgVideo_vid doc = Some vid →
      node_at doc vid = Some (Elem ve vcs) →
      ∃ ve' vcs',
        node_at (document_after (setupYoutubeBackground css doc)) vid
        = Some (Elem ve' vcs')
        ∧ tagName ve' = tagName ve
        ∧ classList ve' = classList ve
        ∧ attributes ve' !! "style"%string
          = Some (hidden_style css (attributes ve !! "style"%string)).
Proof.
  intros Hq Hat He.
  destruct (background_cases doc)
    as [[_ Hno] | (bgHost' & he' & hcs' & host1 & p & ie & ics
                   & Hq' & Hat' & _ & _ & _ & _ & _ & _ & Hres)].
  { by rewrite (Hno bgHost he hcs Hq Hat) in He. }
  rewrite Hq in Hq'. injection Hq' as <-.
  rewrite Hat in Hat'. injection Hat' as <- <-.
  rewrite Hres. split.
  - by destruct (document_querySelector sel_bgVideo_vid doc).
  - intros vid ve vcs Hv Hvat. rewrite Hv. cbn [document_after].
    assert (Hg : grows doc
              (update_at bgHost
                 (on_host (λ h, host_after
                    (injectIframe h (getAttribute he "data-yt-bg") autoplay_on))) doc)).
    { apply grows_update. intros m. apply grows_inject. }
    destruct (grows_node_at _ _ _ _ Hg Hvat) as (m1 & Hm1 & Hgm).
    destruct m1 as [|ve1 vcs1]; [done|]. destruct Hgm as [(Ht & Hc & Ha) _].
    rewrite node_at_update, Hm1. simpl. eexists _, _. split; [reflexivity|].
    simpl. split; [done|]. split; [done|].
    rewrite lookup_insert_eq. by rewrite Ha.
Qed.

End BackgroundPlayer.

Section BackgroundClaims.

(** X18. [setupYoutubeBackground] embeds a player in the first
    [.bgVideo__yt[data-yt-bg]] element when its value builds a URL: the
    host then holds an iframe whose [src] is the URL built from the
    value with autoplay on, and the first [.bgVideo__vid] of the
    document, if there is one, is paused and gets [display: none]
    written into its [style] attribute.  Nothing else changes: the
    document is as before but for embedded players, [src] values and
    that [style] value.  Without such a host, or when its value builds
    no URL, the document stays as it is and the local video is left
    alone. *)
Theorem background_replaces_fallback (css : jsstring → jsstring)
    (doc : node) :
  (∃ d1, grows doc d1
         ∧ (document_after (setupYoutubeBackground css doc) = d1
            ∨ ∃ vid,
                document_querySelector sel_bgVideo_vid doc = Some vid
                ∧ document_after (setupYoutubeBackground css doc)
                  = update_at vid (style_display_none css) d1))
  ∧ (∀ bgHost he hcs,
       document_querySelector sel_bgVideo_yt doc = Some bgHost →
       node_at doc bgHost = Some (Elem he hcs) →
       embeds (getAttribute he "data-yt-bg") autoplay_on = true →
       (∃ host' p ie ics,
          node_at (document_after (setupYoutubeBackground css doc)) bgHost
          = Some host'
          ∧ node_at host' p = Some (Elem ie ics)
          ∧ sel_iframe ie = true
          ∧ attributes ie !! "src"%string
            = Some (ytSrc (getAttribute he "data-yt-bg") autoplay_on))
       ∧ fallback_effects (setupYoutubeBackground css doc)
         = match document_querySelector sel_bgVideo_vid doc with
           | Some vid => [TryPause vid]
           | None => []
           end
       ∧ (∀ vid ve vcs,
            document_querySelector sel_bgVideo_vid doc = Some vid →
            node_at doc vid = Some (Elem ve vcs) →
            ∃ ve' vcs',
              node_at (document_after (setupYoutubeBackground css doc)) vid
              = Some (Elem ve' vcs')
              ∧ tagName ve' = tagName ve
              ∧ classList ve' = classList ve
              ∧ attributes ve' !! "style"%string
                = Some (hidden_style css (attributes ve !! "style"%string))))
  ∧ ((∀ bgHost he hcs,
        document_querySelector sel_bgVideo_yt doc = Some bgHost →
        node_at doc bgHost = Some (Elem he hcs) →
        embeds (getAttribute he "data-yt-bg") autoplay_on = false) →
     setupYoutubeBackground css doc = Background doc []).
Proof.
  split; [apply background_frame|]. split.
  - intros bgHost he hcs Hq Hat He. split.
    + destruct (background_player css doc bgHost he hcs Hq Hat He)
        as (host' & p & ie & ics & H1 & _ & H2 & H3 & H4).
      by exists host', p, ie, ics.
    + exact (background_fallback css doc bgHost he hcs Hq Hat He).
  - intros Hno.
    destruct (background_cases css doc)
      as [[Hnone _] | (bgHost & he & hcs & host' & p & ie & ics
                       & Hq & Hat & He & _)]; [done|].
    by rewrite (Hno bgHost he hcs Hq Hat) in He.
Qed.

Lemma background_replaces_fallback_witness :
  let css : jsstring → jsstring := λ style, style ++ lit " display: none;" in
  let video := Elem (Element "video" ["bgVideo__vid"%string] ∅) [] in
  let placeholder :=
    Elem (Element "body" [] ∅)
      [video;
       Elem (Element "div" ["bgVideo__yt"%string]
               {[ "data-yt-bg"%string := lit "YOUR_VIDEO_ID" ]}) []] in
  let host := Element "div" ["bgVideo__yt"%string]
                {[ "data-yt-bg"%string := lit "RAbnwLxwPNY" ]} in
  let doc := Elem (Element "body" [] ∅) [video; Elem host []] in
  setupYoutubeBackground css placeholder = Background placeholder []
  ∧ (∃ host' p ie ics,
       node_at (document_after (setupYoutubeBackground css doc)) [1%nat]
       = Some host'
       ∧ node_at host' p = Some (Elem ie ics)
       ∧ sel_iframe ie = true
       ∧ attributes ie !! "src"%string
         = Some (ytSrc (getAttribute host "data-yt-bg") autoplay_on))
  ∧ fallback_effects (setupYoutubeBackground css doc) = [TryPause [0%nat]]
  ∧ ∃ ve' vcs',
      node_at (document_after (setupYoutubeBackground css doc)) [0%nat]
      = Some (Elem ve' vcs')
      ∧ tagName ve' = "video"%string
      ∧ classList ve' = ["bgVideo__vid"%string]
      ∧ attributes ve' !! "style"%string = Some (lit "display: none;").
Proof.
  intros css video placeholder host doc. split.
  - apply (proj2 (proj2 (background_replaces_fallback css placeholder))).
    intros bgHost he hcs [= <-] [= <- <-]. reflexivity.
  - destruct (proj1 (proj2 (background_replaces_fallback css doc))
                [1%nat] host [] eq_refl eq_refl eq_refl) as (H1 & H2 & H3).
    split; [exact H1|]. split; [exact H2|].
    exact (H3 [0%nat] (Element "video" ["bgVideo__vid"%string] ∅) [] eq_refl eq_refl).
Defined.

End BackgroundClaims.

(** ** Autoplay embeds and the loaded page *)

Section AutoplayEmbeds.

Lemma grows_autoplay_embed doc p : grows doc (autoplay_embed doc p).
Proof.
  unfold autoplay_embed.
  destruct (node_at doc p) as [[d|he hcs]|]; try apply grows_refl.
  destruct (getAttribute he "data-yt") as [| | |  |raw]; try apply grows_refl.
  destruct (negb (to_boolean (JStr raw)) || startsWith (lit "YOUR_") raw);
    [apply grows_refl|].
  apply grows_update. intros m. apply grows_inject.
Qed.

Lemma grows_autoplay_fold paths doc : grows doc (foldl autoplay_embed doc paths).
Proof.
  revert doc. induction paths as [|p paths IH]; intros doc; simpl; [apply grows_refl|].
  eapply grows_trans; [apply grows_autoplay_embed | apply IH].
Qed.

(** X19. [setupAutoplayEmbeds] embeds and nothing else: every node of
    the document stays in place with its tag, classes and attributes
    other than [src]; the autoplay hosts are the same afterwards, and so
    are the listeners [setupHoverPreviews] would attach.  Without an
    autoplay host the document is unchanged. *)
Theorem autoplay_embeds_keep (doc : node) :
  grows doc (setupAutoplayEmbeds doc)
  ∧ all_matches sel_autoplay_embed (setupAutoplayEmbeds doc)
    = all_matches sel_autoplay_embed doc
  ∧ setupHoverPreviews (setupAutoplayEmbeds doc) = setupHoverPreviews doc
  ∧ (all_matches sel_autoplay_embed doc = [] → setupAutoplayEmbeds doc = doc).
Proof.
  assert (Hg : grows doc (setupAutoplayEmbeds doc)) by apply grows_autoplay_fold.
  split; [exact Hg|]. split; [|split].
  - by destruct (grows_matches _ blind_autoplay_embed _ _ Hg) as (_ & ? & _).
  - by apply grows_hover.
  - unfold setupAutoplayEmbeds. by intros ->.
Qed.

Lemma autoplay_embeds_keep_witness :
  let doc := Elem (Element "body" [] ∅) [Elem (Element "p" ["ytEmbed"%string] ∅) []] in
  setupAutoplayEmbeds doc = doc.
Proof.
  intros doc. apply (proj2 (proj2 (proj2 (autoplay_embeds_keep doc)))). reflexivity.
Defined.

Lemma inject_holds_player raw options e cs :
  embeds raw options = true →
  (1 ≤ count_inside sel_iframe
         (on_host (λ h, host_after (injectIframe h raw options)) (Elem e cs)))%nat.
Proof.
  intros He. unfold on_host.
  destruct (inject_result e cs raw options He)
    as (host' & p & ie & ics & H1 & _ & _ & _ & H5 & _).
  rewrite H1. simpl in *. lia.
Qed.

(** X20. After [setupAutoplayEmbeds], every autoplay host whose
    [data-yt] value is not empty, does not start with [YOUR_] and builds
    a URL holds an iframe, wherever it stands in the document and
    whatever hosts are handled before or after it. *)
Theorem autoplay_embeds_play (doc : node) (p : path) (he : element)
    (hcs : list node) (raw : jsstring) :
  p ∈ all_matches sel_autoplay_embed doc →
  node_at doc p = Some (Elem he hcs) →
  getAttribute he "data-yt" = JStr raw →
  ¬ lit "YOUR_" `prefix_of` raw →
  ytSrc (JStr raw) autoplay_on ≠ [] →
  ∃ host',
    node_at (setupAutoplayEmbeds doc) p = Some host'
    ∧ (1 ≤ players (Some host'))%nat.
Proof.
  intros Hin Hat Hraw Hpre Hbuilt.
  assert (He : embeds (JStr raw) autoplay_on = true) by by apply raw_embeds.
  assert (Hguard : negb (to_boolean (JStr raw)) || startsWith (lit "YOUR_") raw = false).
  { apply orb_false_iff. split.
    - unfold embeds in He. apply andb_true_iff in He as [-> _]. done.
    - destruct (startsWith _ _) eqn:Hs; [|done]. by apply startsWith_prefix in Hs. }
  unfold setupAutoplayEmbeds.
  apply list_elem_of_split in Hin as (l1 & l2 & ->).
  rewrite foldl_app. simpl.
  pose proof (grows_autoplay_fold l1 doc) as Hg1.
  set (doc1 := foldl autoplay_embed doc l1) in *.
  destruct (grows_node_at _ _ _ _ Hg1 Hat) as (h1 & Hat1 & Hh1).
  destruct h1 as [|he1 hcs1]; [done|]. destruct Hh1 as [Hsame _].
  assert (Hstep : node_at (autoplay_embed doc1 p) p
                  = Some (on_host (λ h, host_after (injectIframe h (JStr raw) autoplay_on))
                            (Elem he1 hcs1))).
  { unfold autoplay_embed. rewrite Hat1.
    rewrite (same_but_src_getAttribute he he1) by done. rewrite Hraw, Hguard.
    by rewrite node_at_update, Hat1. }
  pose proof (grows_autoplay_fold l2 (autoplay_embed doc1 p)) as Hg2.
  destruct (grows_node_at _ _ _ _ Hg2 Hstep) as (host' & Hat' & Hh').
  exists host'. split; [done|]. simpl.
  pose proof (inject_holds_player (JStr raw) autoplay_on he1 hcs1 He).
  pose proof (grows_count_inside _ _ Hh'). lia.
Qed.

Lemma autoplay_embeds_play_witness :
  let inner := Elem (Element "div" ["ytEmbed"%string]
                  {[ "data-yt"%string := lit "abcdefghijk"; "data-autoplay"%string := [] ]}) [] in
  let outer := Elem (Element "div" ["ytEmbed"%string]
                  {[ "data-yt"%string := lit "https://youtu.be/RAbnwLxwPNY";
                     "data-autoplay"%string := lit "true" ]}) [inner] in
  let doc := Elem (Element "body" [] ∅) [outer] in
  ∃ host',
    node_at (setupAutoplayEmbeds doc) [0%nat] = Some host'
    ∧ (1 ≤ players (Some host'))%nat.
Proof.
  intros inner outer doc.
  apply (autoplay_embeds_play doc [0%nat]
           (Element "div" ["ytEmbed"%string]
              {[ "data-yt"%string := lit "https://youtu.be/RAbnwLxwPNY";
                 "data-autoplay"%string := lit "true" ]})
           [inner] (lit "https://youtu.be/RAbnwLxwPNY")).
  - vm_compute. by left.
  - reflexivity.
  - reflexivity.
  - intros H%startsWith_prefix. vm_compute in H. discriminate.
  - vm_compute. discriminate.
Defined.

(** An autoplay host that passes the checks holds a player once
    [setupAutoplayEmbeds] has run. *)
Lemma autoplay_host_plays doc p he hcs raw :
  p ∈ all_matches sel_autoplay_embed doc →
  node_at doc p = Some (Elem he hcs) →
  getAttribute he "data-yt" = JStr raw →
  ¬ lit "YOUR_" `prefix_of` raw →
  ytSrc (JStr raw) autoplay_on ≠ [] →
  ∃ host',
    node_at (setupAutoplayEmbeds doc) p = Some host'
    ∧ (1 ≤ count_inside sel_iframe host')%nat.
Proof.
  intros Hin Hat Hraw Hpre Hbuilt.
  assert (He : embeds (JStr raw) autoplay_on = true) by by apply raw_embeds.
  assert (Hguard : negb (to_boolean (JStr raw)) || startsWith (lit "YOUR_") raw = false).
  { apply orb_false_iff. split.
    - unfold embeds in He. apply andb_true_iff in He as [-> _]. done.
    - destruct (startsWith _ _) eqn:Hs; [|done]. by apply startsWith_prefix in Hs. }
  unfold setupAutoplayEmbeds.
  apply list_elem_of_split in Hin as (l1 & l2 & ->).
  rewrite foldl_app. simpl.
  pose proof (grows_autoplay_fold l1 doc) as Hg1.
  set (doc1 := foldl autoplay_embed doc l1) in *.
  destruct (grows_node_at _ _ _ _ Hg1 Hat) as (h1 & Hat1 & Hh1).
  destruct h1 as [|he1 hcs1]; [done|]. destruct Hh1 as [Hsame _].
  assert (Hstep : node_at (autoplay_embed doc1 p) p
                  = Some (on_host (λ h, host_after (injectIframe h (JStr raw) autoplay_on))
                            (Elem he1 hcs1))).
  { unfold autoplay_embed. rewrite Hat1.
    rewrite (same_but_src_getAttribute he he1) by done. rewrite Hraw, Hguard.
    by rewrite node_at_update, Hat1. }
  pose proof (grows_autoplay_fold l2 (autoplay_embed doc1 p)) as Hg2.
  destruct (grows_node_at _ _ _ _ Hg2 Hstep) as (host' & Hat' & Hh').
  exists host'. split; [done|].
  pose proof (inject_holds_player (JStr raw) autoplay_on he1 hcs1 He).
  pose proof (grows_count_inside _ _ Hh'). lia.
Qed.

(** X21. Once the [DOMContentLoaded] listener has run, on the document
    as the footer stamp left it: every autoplay host that passes the
    checks and the background host, when its value builds a URL, hold a
    player; the page differs from the stamped document by embedded
    players, [src] values and the [style] of the local video only; and
    the hover listeners are the ones [setupHoverPreviews] attaches to
    the stamped document, as neither the embeds nor the [style] written
    before it change which cards are wired, nor their hosts and
    values. *)
Theorem loaded_page (css : jsstring → jsstring) (year : Z) (doc : node) :
  let doc1 := setupFooterYear year doc in
  let result := DOMContentLoaded css year doc in
  listeners result = setupHoverPreviews doc1
  ∧ media_effects result = fallback_effects (setupYoutubeBackground css doc1)
  ∧ (∃ d1 d2,
       grows doc1 d1
       ∧ (d2 = d1
          ∨ ∃ vid,
              document_querySelector sel_bgVideo_vid doc1 = Some vid
              ∧ d2 = update_at vid (style_display_none css) d1)
       ∧ grows d2 (page result))
  ∧ (∀ p he hcs raw,
       p ∈ all_matches sel_autoplay_embed doc1 →
       node_at doc1 p = Some (Elem he hcs) →
       getAttribute he "data-yt" = JStr raw →
       ¬ lit "YOUR_" `prefix_of` raw →
       ytSrc (JStr raw) autoplay_on ≠ [] →
       ∃ host', node_at (page result) p = Some host'
                ∧ (1 ≤ players (Some host'))%nat)
  ∧ (∀ bgHost he hcs,
       document_querySelector sel_bgVideo_yt doc1 = Some bgHost →
       node_at doc1 bgHost = Some (Elem he hcs) →
       embeds (getAttribute he "data-yt-bg") autoplay_on = true →
       ∃ host', node_at (page result) bgHost = Some host'
                ∧ (1 ≤ players (Some host'))%nat)
  ∧ (getElementById (lit "year") doc = None → doc1 = doc).
Proof.
  intros doc1 result. subst result. unfold DOMContentLoaded.
  fold doc1. cbn [page listeners media_effects].
  set (doc2 := document_after (setupYoutubeBackground css doc1)).
  destruct (background_frame css doc1) as (d1 & Hg1 & Hd2). fold doc2 in Hd2.
  assert (Hr : restyled d1 doc2).
  { destruct Hd2 as [-> | (vid & _ & ->)];
      [apply restyled_refl | apply restyled_update, restyled_display_none]. }
  pose proof (grows_autoplay_fold (all_matches sel_autoplay_embed doc2) doc2) as Hg2.
  fold (setupAutoplayEmbeds doc2) in Hg2.
  split; [|split; [done|split; [|split; [|split]]]].
  - by rewrite (grows_hover _ _ Hg2), (restyled_hover _ _ Hr), (grows_hover _ _ Hg1).
  - by exists d1, doc2.
  - intros p he hcs raw Hin Hat Hraw Hpre Hbuilt.
    destruct (grows_matches _ blind_autoplay_embed _ _ Hg1) as (_ & Hm1 & _).
    destruct (restyled_matches _ _ _ unstyled_autoplay_embed Hr) as (_ & Hm2 & _).
    destruct (grows_node_at _ _ _ _ Hg1 Hat) as (m1 & Hat1 & Hgm).
    destruct m1 as [|he1 hcs1]; [done|]. destruct Hgm as [Hs1 _].
    destruct (restyled_node_at _ _ _ _ Hr Hat1) as (m2 & Hat2 & Hrm).
    destruct m2 as [|he2 hcs2]; [done|]. destruct Hrm as [Hs2 _].
    apply (autoplay_host_plays doc2 p he2 hcs2 raw); try done.
    + by rewrite Hm2, Hm1.
    + by rewrite (same_but_style_getAttribute he1 he2),
                 (same_but_src_getAttribute he he1).
  - intros bgHost he hcs Hq Hat He.
    destruct (background_player css doc1 bgHost he hcs Hq Hat He)
      as (host2 & _ & _ & _ & Hat2 & Hc & _).
    fold doc2 in Hat2.
    destruct (grows_node_at _ _ _ _ Hg2 Hat2) as (host' & Hat' & Hgh).
    exists host'. split; [done|]. simpl.
    pose proof (grows_count_inside _ _ Hgh). lia.
  - intros Hnone. subst doc1. unfold setupFooterYear. by rewrite Hnone.
Qed.

Lemma loaded_page_witness :
  let css : jsstring → jsstring := λ style, style ++ lit " display: none;" in
  let hero := Element "div" ["ytEmbed"%string]
                {[ "data-yt"%string := lit "https://youtu.be/RAbnwLxwPNY";
                   "data-autoplay"%string := lit "true" ]} in
  let bg := Element "div" ["bgVideo__yt"%string]
              {[ "data-yt-bg"%string := lit "RAbnwLxwPNY" ]} in
  let card :=
    Elem (Element "div" ["hoverPreview"%string] ∅)
      [Elem (Element "div" ["ytEmbed"%string]
               {[ "data-yt"%string := lit "RAbnwLxwPNY" ]}) []] in
  let doc :=
    Elem (Element "body" [] ∅)
      [Elem (Element "video" ["bgVideo__vid"%string] ∅) [];
       Elem bg []; Elem hero []; card;
       Elem (Element "span" [] {[ "id"%string := lit "year" ]}) []] in
  (∃ host', node_at (page (DOMContentLoaded css 2026 doc)) [2%nat] = Some host'
            ∧ (1 ≤ players (Some host'))%nat)
  ∧ (∃ host', node_at (page (DOMContentLoaded css 2026 doc)) [1%nat] = Some host'
              ∧ (1 ≤ players (Some host'))%nat)
  ∧ media_effects (DOMContentLoaded css 2026 doc) = [TryPause [0%nat]]
  ∧ length (listeners (DOMContentLoaded css 2026 doc)) = 2%nat.
Proof.
  intros css hero bg card doc.
  destruct (loaded_page css 2026 doc) as (H1 & H2 & _ & H4 & H5 & _).
  split; [|split; [|split]].
  - apply (H4 [2%nat] hero [] (lit "https://youtu.be/RAbnwLxwPNY")).
    + vm_compute. by left.
    + reflexivity.
    + reflexivity.
    + intros H%startsWith_prefix. vm_compute in H. discriminate.
    + vm_compute. discriminate.
  - apply (H5 [1%nat] bg []); reflexivity.
  - rewrite H2. reflexivity.
  - rewrite H1. reflexivity.
Defined.

End AutoplayEmbeds.

(** ** Frames of the handlers *)

Section Frames.

#[local] Set Warnings "-clear-no-such-hyp".

Lemma node_at_classList_add c n q :
  q ≠ [] → node_at (classList_add c n) q = node_at n q.
Proof.
  destruct q as [|i q]; [done|]. intros _.
  apply node_at_children, children_classList_add.
Qed.

Lemma node_at_classList_remove c n q :
  q ≠ [] → node_at (classList_remove c n) q = node_at n q.
Proof.
  destruct q as [|i q]; [done|]. intros _.
  apply node_at_children, children_classList_remove.
Qed.

Lemma apart_nonempty p q : apart p q → q ≠ [].
Proof. intros (r & i & j & p' & q' & _ & -> & _). by destruct r. Qed.



(** X22. The handlers of a card work on its class mark and inside its
    host only: the poster and every other node of the card that lies
    outside the host are as before, after either event. *)
Theorem hover_event_inside (card : node) (w : wiring) (ev : pointer_event)
    (q : path) :
  wire card = Some w →
  apart (host_ref w) q →
  node_at (hover_event w ev card) q = node_at card q.
Proof.
  intros Hw Hq. pose proof (apart_nonempty _ _ Hq) as Hne.
  destruct ev; simpl; unfold play, stop;
    rewrite node_at_update_apart by done.
  - by apply node_at_classList_add.
  - by apply node_at_classList_remove.
Qed.

Lemma hover_event_inside_witness :
  let poster := Elem (Element "img" ["hoverPreview__poster"%string] ∅) [] in
  let host :=
    Elem (Element "div" ["ytEmbed"%string] {[ "data-yt"%string := lit "RAbnwLxwPNY" ]}) [] in
  let card := Elem (Element "div" ["hoverPreview"%string] ∅) [poster; host] in
  node_at (hover_event (Wiring [1%nat] (lit "RAbnwLxwPNY")) pointerenter card) [0%nat]
  = node_at card [0%nat].
Proof.
  intros poster host card.
  apply (hover_event_inside card (Wiring [1%nat] (lit "RAbnwLxwPNY")) pointerenter [0%nat]).
  - reflexivity.
  - by exists [], 1%nat, 0%nat, [], [].
Defined.

(** X23. On a host without an iframe, an effective call appends one
    iframe after the children the host had, which stay as they are; the
    iframe has no child and exactly five attributes: the lazy-loading
    hint, the permissions, the title, the referrer policy and [src]. *)
Theorem inject_creates_last (e : element) (cs : list node) (raw : jsval)
    (options : option jsobject) :
  embeds raw options = true →
  players (Some (Elem e cs)) = 0%nat →
  ∃ attrs,
    injectIframe (Some (Elem e cs)) raw options
      = Injected (Some (Elem e (cs ++ [Elem (Element "iframe" [] attrs) []])))
                 (Some [length cs]) [ytSrc raw options]
    ∧ map_to_list attrs ≡ₚ
        [ ("loading"%string, lit "lazy");
          ("allow"%string, lit "autoplay; encrypted-media; picture-in-picture");
          ("title"%string, lit "YouTube video");
          ("referrerpolicy"%string, lit "strict-origin-when-cross-origin");
          ("src"%string, ytSrc raw options) ].
Proof.
  intros He Hc. simpl in Hc. eexists. split.
  - rewrite (inject_fresh e cs raw options He Hc). reflexivity.
  - simpl.
    rewrite map_to_list_insert by done.
    rewrite map_to_list_insert by done.
    rewrite map_to_list_insert by done.
    rewrite map_to_list_insert by done.
    rewrite map_to_list_insert by done.
    rewrite map_to_list_empty.
    apply NoDup_Permutation.
    + repeat (constructor; [set_solver|]). constructor.
    + repeat (constructor; [set_solver|]). constructor.
    + intros x. set_solver.
Qed.

Lemma inject_creates_last_witness :
  ∃ attrs,
    injectIframe (Some (Elem (Element "div" [] ∅) [Text (lit "x")]))
      (JStr (lit "RAbnwLxwPNY")) None
      = Injected (Some (Elem (Element "div" [] ∅)
                    ([Text (lit "x")] ++ [Elem (Element "iframe" [] attrs) []])))
                 (Some [length [Text (lit "x")]]) [ytSrc (JStr (lit "RAbnwLxwPNY")) None]
    ∧ map_to_list attrs ≡ₚ
        [ ("loading"%string, lit "lazy");
          ("allow"%string, lit "autoplay; encrypted-media; picture-in-picture");
          ("title"%string, lit "YouTube video");
          ("referrerpolicy"%string, lit "strict-origin-when-cross-origin");
          ("src"%string, ytSrc (JStr (lit "RAbnwLxwPNY")) None) ].
Proof.
  exact (inject_creates_last (Element "div" [] ∅) [Text (lit "x")]
           (JStr (lit "RAbnwLxwPNY")) None eq_refl eq_refl).
Defined.




End Frames.

(** ** Cards that play by themselves *)

Section AutoplayCards.





End AutoplayCards.
